(** * The event bus and the key-value store of Plots-Manager (scripts/core,
      classes [EventBus] and [Database])

    A shallow embedding of the dispatcher ([on], [once], [off], [emit],
    [emitAsync], introspection), of the staged module loader
    ([registerModule], [initialize], [importPhase], [importModule]) and, in
    the module [Database], of the store that keeps its values in the dynamic
    properties of the world ([get], [set], [delete], [has], [update],
    [entries], [clear], [refreshCache], [listIds]).

    Modelling choices.
    - The static fields of the class are the fields of the record [Bus];
      every method is a function in the state-and-exception monad [M].
    - A JS [Map] is an association list in insertion order; a JS [Set] of
      listeners is a duplicate-free list in insertion order.  The [Set]
      objects live in a store ([sets]) and the map holds references to them,
      because [emit] keeps the [Set] objects it looked up while listeners run
      and may change the registry.
    - Listeners are function values with identity.  A user function is
      [FUser id] and its body is [code id], a script of bus calls chosen from
      its arguments and from the user's own variables ([memory]); the arrow
      functions the bus itself creates ([once]'s wrapper, the unsubscribe and
      cancel capabilities) are closures in the store [closures].
    - Calls nest ([emit] calls a listener which calls [emit] ...): [invoke]
      is defined by recursion on a bound on the call depth and yields
      [OutOfFuel] when the bound is reached.
    - Everything observable (listener calls with their arguments, console
      output, calls of the dynamic [import]) is appended to [trace].
    - An [async] method is run up to the settlement of its promise: the
      promise a listener or [import] returns carries its eventual state.
    - The host drives the bus through [step]: a user call, the world-load
      signal, the watchdog signal, or an event of a bound Minecraft source. *)

From Stdlib Require Import ZArith Ascii String.
From stdpp Require Import base relations list strings.

Open Scope string_scope.
Open Scope list_scope.
Open Scope nat_scope.

Module EventBus.

(** ** Values *)

(** Function values.  Identity is the constructor and its number. *)
Inductive Fn :=
  | FUser (id : nat)
  | FClosure (addr : nat).

#[global] Instance Fn_eq_dec : EqDecision Fn.
Proof. solve_decision. Defined.

Inductive PState := Fulfilled | Rejected | Pending.

Inductive Value :=
  | VUndefined
  | VNull
  | VBool (b : bool)
  | VNum (n : Z)
  | VStr (s : string)
  | VFn (f : Fn)
  | VObj (o : nat)
  | VError (name msg : string)
  | VPromise (st : PState) (v : Value).

Definition typeof (v : Value) : string :=
  match v with
  | VUndefined => "undefined"
  | VBool _ => "boolean"
  | VNum _ => "number"
  | VStr _ => "string"
  | VFn _ => "function"
  | VNull | VObj _ | VError _ _ | VPromise _ _ => "object"
  end.

(** JS truthiness, for [legacyBeforeLoad ? ... : ...] and [!anchor]. *)
Definition truthy (v : Value) : bool :=
  match v with
  | VUndefined | VNull => false
  | VBool b => b
  | VNum n => negb (n =? 0)%Z
  | VStr s => negb (String.eqb s "")
  | _ => true
  end.

(** ** The registry containers *)

(** [Map<string, V>]: keys in insertion order; [set] on a present key keeps
    its place. *)
Fixpoint map_get {V} (k : string) (m : list (string * V)) : option V :=
  match m with
  | [] => None
  | (k', v) :: m' => if String.eqb k k' then Some v else map_get k m'
  end.

Fixpoint map_set {V} (k : string) (v : V) (m : list (string * V)) : list (string * V) :=
  match m with
  | [] => [(k, v)]
  | (k', v') :: m' =>
      if String.eqb k k' then (k, v) :: m' else (k', v') :: map_set k v m'
  end.

Fixpoint map_delete {V} (k : string) (m : list (string * V)) : list (string * V) :=
  match m with
  | [] => []
  | (k', v) :: m' =>
      if String.eqb k k' then map_delete k m' else (k', v) :: map_delete k m'
  end.

(** [Set<Fn>]: [add] of a member changes nothing, [add] of a new value
    appends it. *)
Definition set_add (h : Fn) (l : list Fn) : list Fn :=
  if decide (h ∈ l) then l else l ++ [h].

Definition set_delete (h : Fn) (l : list Fn) : list Fn :=
  filter (λ x, x ≠ h) l.

Definition set_has (h : Fn) (l : list Fn) : bool := bool_decide (h ∈ l).

(** ** State *)

Inductive Phase := Bootstrap | Runtime.

#[global] Instance Phase_eq_dec : EqDecision Phase.
Proof. solve_decision. Defined.

(** A queue entry [{ specifier, phase }]; [ident] is the object's identity
    ([indexOf] compares entries by identity). *)
Record Entry := mkEntry { specifier : string; phase : Phase; ident : nat }.

Inductive Closure :=
  | OnceWrapper (eventName : string) (handler : Fn) (completed : bool)
  | Unsubscribe (eventName : string) (handler : Fn)
  | CancelModule (entry : nat).

Inductive Event :=
  | Invoked (f : Fn) (args : list Value)
  | WarnListenerLeak (size : nat) (eventName : string)
  | ErrorHandlerFailure (eventName : string) (error : Value)
  | ErrorImportFailed (specifier : string) (error : Value)
  | ErrorPhaseFailures (count : nat) (phase : Phase)
  | ErrorWorldLoad (error : Value)
  | WarnWatchdog
  | ErrorShutdown (error : Value)
  | Import (specifier : string).

Record Bus := mkBus {
  listenersMap : list (string * nat);
  sets : list (list Fn);
  closures : list Closure;
  initialized : bool;
  worldReady : bool;
  moduleQueue : list Entry;
  entries : nat;
  importedModules : list string;
  bootstrapCompleted : bool;
  runtimeCompleted : bool;
  watchdogHooked : bool;
  worldLoadHooked : bool;
  sourcesBound : list string;
  memory : nat → Value;
  trace : list Event
}.

Definition listenerThreshold : nat := 1000.

(** The class as the module is loaded, before its last line runs. *)
Definition fresh : Bus :=
  mkBus [] [] [] false false [] 0 [] false false false false [] (λ _, VUndefined) [].

Definition with_registry (m : list (string * nat)) (st : list (list Fn)) (s : Bus) : Bus :=
  mkBus m st (closures s) (initialized s) (worldReady s) (moduleQueue s)
    (entries s) (importedModules s) (bootstrapCompleted s) (runtimeCompleted s)
    (watchdogHooked s) (worldLoadHooked s) (sourcesBound s) (memory s) (trace s).

Definition with_closures (c : list Closure) (s : Bus) : Bus :=
  mkBus (listenersMap s) (sets s) c (initialized s) (worldReady s) (moduleQueue s)
    (entries s) (importedModules s) (bootstrapCompleted s) (runtimeCompleted s)
    (watchdogHooked s) (worldLoadHooked s) (sourcesBound s) (memory s) (trace s).

Definition with_queue (q : list Entry) (n : nat) (s : Bus) : Bus :=
  mkBus (listenersMap s) (sets s) (closures s) (initialized s) (worldReady s) q
    n (importedModules s) (bootstrapCompleted s) (runtimeCompleted s)
    (watchdogHooked s) (worldLoadHooked s) (sourcesBound s) (memory s) (trace s).

Definition with_imported (l : list string) (s : Bus) : Bus :=
  mkBus (listenersMap s) (sets s) (closures s) (initialized s) (worldReady s)
    (moduleQueue s) (entries s) l (bootstrapCompleted s) (runtimeCompleted s)
    (watchdogHooked s) (worldLoadHooked s) (sourcesBound s) (memory s) (trace s).

Definition with_gates (b r : bool) (s : Bus) : Bus :=
  mkBus (listenersMap s) (sets s) (closures s) (initialized s) (worldReady s)
    (moduleQueue s) (entries s) (importedModules s) b r
    (watchdogHooked s) (worldLoadHooked s) (sourcesBound s) (memory s) (trace s).

Definition with_lifecycle (i w wd wl : bool) (b : list string) (s : Bus) : Bus :=
  mkBus (listenersMap s) (sets s) (closures s) i w (moduleQueue s)
    (entries s) (importedModules s) (bootstrapCompleted s) (runtimeCompleted s)
    wd wl b (memory s) (trace s).

Definition with_trace (t : list Event) (s : Bus) : Bus :=
  mkBus (listenersMap s) (sets s) (closures s) (initialized s) (worldReady s)
    (moduleQueue s) (entries s) (importedModules s) (bootstrapCompleted s)
    (runtimeCompleted s) (watchdogHooked s) (worldLoadHooked s) (sourcesBound s)
    (memory s) t.

Definition with_memory (m : nat → Value) (s : Bus) : Bus :=
  mkBus (listenersMap s) (sets s) (closures s) (initialized s) (worldReady s)
    (moduleQueue s) (entries s) (importedModules s) (bootstrapCompleted s)
    (runtimeCompleted s) (watchdogHooked s) (worldLoadHooked s) (sourcesBound s)
    m (trace s).

(** ** The monad: state, exceptions, and the call-depth bound *)

Inductive Res (A : Type) :=
  | Ret (a : A)
  | Throw (err : Value)
  | OutOfFuel.
Arguments Ret {A} a.
Arguments Throw {A} err.
Arguments OutOfFuel {A}.

Definition M (A : Type) : Type := Bus → Res A * Bus.

Definition ret {A} (a : A) : M A := λ s, (Ret a, s).
Definition throw {A} (err : Value) : M A := λ s, (Throw err, s).
Definition out_of_fuel {A} : M A := λ s, (OutOfFuel, s).

Definition bind {A B} (m : M A) (k : A → M B) : M B :=
  λ s, match m s with
       | (Ret a, s') => k a s'
       | (Throw err, s') => (Throw err, s')
       | (OutOfFuel, s') => (OutOfFuel, s')
       end.

Declare Scope bus_scope.
Delimit Scope bus_scope with bus.
Notation "x <- m ;; k" := (bind m (λ x, k))
  (at level 100, m at next level, right associativity) : bus_scope.
Notation "m ;; k" := (bind m (λ _, k))
  (at level 100, right associativity) : bus_scope.
Open Scope bus_scope.

(** [try { m } catch (error) { h error }] *)
Definition try_catch {A} (m : M A) (h : Value → M A) : M A :=
  λ s, match m s with
       | (Throw err, s') => h err s'
       | other => other
       end.

(** [try { m } finally { f }]: the completion of [m] is kept unless [f]
    itself completes abruptly. *)
Definition try_finally {A} (m : M A) (f : M unit) : M A :=
  λ s, match m s with
       | (OutOfFuel, s') => (OutOfFuel, s')
       | (r, s') =>
           match f s' with
           | (Ret _, s'') => (r, s'')
           | (Throw err, s'') => (Throw err, s'')
           | (OutOfFuel, s'') => (OutOfFuel, s'')
           end
       end.

Definition gets {A} (f : Bus → A) : M A := λ s, (Ret (f s), s).
Definition modify (f : Bus → Bus) : M unit := λ s, (Ret tt, f s).
Definition when (b : bool) (m : M unit) : M unit := if b then m else ret tt.

Fixpoint for_each {A} (l : list A) (body : A → M unit) : M unit :=
  match l with
  | [] => ret tt
  | x :: l' => body x ;; for_each l' body
  end.

Fixpoint map_M {A B} (l : list A) (f : A → M B) : M (list B) :=
  match l with
  | [] => ret []
  | x :: l' => y <- f x ;; ys <- map_M l' f ;; ret (y :: ys)
  end.

(** ** State updates of the bus *)

Definition log (ev : Event) (s : Bus) : Bus := with_trace (trace s ++ [ev]) s.

Definition set_at (r : nat) (s : Bus) : list Fn := default [] (sets s !! r).

(** [new Set()]: a new empty set in the store. *)
Definition new_set (s : Bus) : Bus := with_registry (listenersMap s) (sets s ++ [[]]) s.

(** [handlers.add(h)] and [handlers.delete(h)] on the set object [r]. *)
Definition add_to (r : nat) (h : Fn) (s : Bus) : Bus :=
  with_registry (listenersMap s) (alter (set_add h) r (sets s)) s.

Definition delete_from (r : nat) (h : Fn) (s : Bus) : Bus :=
  with_registry (listenersMap s) (alter (set_delete h) r (sets s)) s.

(** [listenersMap.set(e, r)], [listenersMap.delete(e)], [listenersMap.clear()] *)
Definition bind_event (e : string) (r : nat) (s : Bus) : Bus :=
  with_registry (map_set e r (listenersMap s)) (sets s) s.

Definition drop_event (e : string) (s : Bus) : Bus :=
  with_registry (map_delete e (listenersMap s)) (sets s) s.

Definition clear_all (s : Bus) : Bus := with_registry [] (sets s) s.

Definition alloc (c : Closure) (s : Bus) : Bus := with_closures (closures s ++ [c]) s.

(** [completed = true] in the wrapper at [addr]. *)
Definition latch (addr : nat) (s : Bus) : Bus :=
  with_closures
    (alter (λ c, match c with
                 | OnceWrapper e h _ => OnceWrapper e h true
                 | other => other
                 end) addr (closures s)) s.

(** A user variable is assigned. *)
Definition store (cell : nat) (v : Value) (s : Bus) : Bus :=
  with_memory (λ i, if decide (i = cell) then v else memory s i) s.

(** ** Listener bodies and the host *)

(** [registerModule]'s [options] object; an absent property is [VUndefined]. *)
Record Options := mkOptions { opt_phase : Value; opt_beforeLoad : Value; opt_anchor : Value }.

Definition no_options : Options := mkOptions VUndefined VUndefined VUndefined.

(** What a listener body (or any caller) can do: call the bus, call a
    function value, assign a variable of its own ([CStore], the cells of
    [memory]), catch what a command throws.  A body is a list of commands
    run in order; [CReturn] and [CThrow] end it. *)
Inductive Cmd :=
  | COn (eventName handler : Value)
  | COnce (eventName handler : Value)
  | COff (eventName handler : Value)
  | CClearListeners (eventName : Value)
  | CEmit (eventName payload : Value)
  | CEmitAsync (eventName payload : Value)
  | CRegisterModule (specifier : Value) (options : Options)
  | CInitialize
  | CCall (f : Fn) (args : list Value)
  | CStore (cell : nat) (v : Value)
  | CTry (c : Cmd)
  | CReturn (v : Value)
  | CThrow (err : Value).

(** The embedding environment: the bodies of the user functions (chosen
    from the arguments and from the user variables as they are when the
    function is entered), the
    outcome of the dynamic [import] per specifier ([None]: the module loads,
    [Some err]: the promise rejects with [err]), [new URL(s, anchor).toString()]
    (a value or a thrown error), and which host event sources exist. *)
Record World := mkWorld {
  code : nat → list Value → (nat → Value) → list Cmd;
  importOutcome : string → option Value;
  resolveURL : string → Value → string + Value;
  sourceAvailable : string → bool;
  watchdogAvailable : bool
}.

(** One settled promise of [Promise.allSettled]. *)
Inductive Settlement :=
  | SFulfilled (value : Value)
  | SRejected (reason : Value).

Definition is_rejected (r : Settlement) : bool :=
  match r with SRejected _ => true | SFulfilled _ => false end.

(** The promise an [async] method returns, by its eventual state. *)
Inductive Async (A : Type) :=
  | AResolved (a : A)
  | ARejected (reason : Value)
  | APending.
Arguments AResolved {A} a.
Arguments ARejected {A} reason.
Arguments APending {A}.

(** [Promise.resolve(v)]: a promise is returned as it is. *)
Definition promise_resolve (v : Value) : Value :=
  match v with
  | VPromise _ _ => v
  | _ => VPromise Fulfilled v
  end.

Fixpoint allSettled (tasks : list Value) : Async (list Settlement) :=
  match tasks with
  | [] => AResolved []
  | t :: rest =>
      match t, allSettled rest with
      | VPromise Pending _, _ => APending
      | _, APending => APending
      | _, ARejected e => ARejected e
      | VPromise Rejected e, AResolved l => AResolved (SRejected e :: l)
      | VPromise Fulfilled v, AResolved l => AResolved (SFulfilled v :: l)
      | v, AResolved l => AResolved (SFulfilled v :: l)
      end
  end.

Definition BUS_ANY : string := "*".
Definition BUS_WORLD_LOAD : string := "worldLoad".
Definition BUS_SHUTDOWN : string := "shutdown".

Definition arg (i : nat) (args : list Value) : Value := default VUndefined (args !! i).

(** ** Strings of the loader *)

(** [String.prototype.trim] on one-byte code units: TAB, LF, VT, FF, CR,
    SP and NBSP are stripped. *)
Definition is_space (a : ascii) : bool :=
  let n := nat_of_ascii a in
  ((9 <=? n) && (n <=? 13) || (n =? 32) || (n =? 160))%nat.

Fixpoint trim_start (s : string) : string :=
  match s with
  | String a s' => if is_space a then trim_start s' else s
  | EmptyString => EmptyString
  end.

Definition string_rev (s : string) : string :=
  string_of_list_ascii (rev (list_ascii_of_string s)).

Definition trim (s : string) : string :=
  string_rev (trim_start (string_rev (trim_start s))).

Definition startsWith (s p : string) : bool := String.prefix p s.

Definition is_letter (a : ascii) : bool :=
  let n := nat_of_ascii a in
  ((65 <=? n) && (n <=? 90) || (97 <=? n) && (n <=? 122))%nat.

Fixpoint skip_letters (s : string) : string :=
  match s with
  | String a s' => if is_letter a then skip_letters s' else s
  | EmptyString => EmptyString
  end.

(** [/^([a-zA-Z]+:|\/\/|\/)/.test(s)] *)
Definition isAbsolute (s : string) : bool :=
  match s with
  | String a s' => is_letter a && startsWith (skip_letters s') ":"
  | EmptyString => false
  end
  || startsWith s "//" || startsWith s "/".

(** ** State updates of the loader and of the lifecycle *)

Definition push_entry (spec : string) (ph : Phase) (s : Bus) : Bus :=
  with_queue (moduleQueue s ++ [mkEntry spec ph (entries s)]) (S (entries s)) s.

(** [idx = moduleQueue.indexOf(entry); if (idx >= 0) moduleQueue.splice(idx, 1)] *)
Fixpoint remove_entry (id : nat) (q : list Entry) : list Entry :=
  match q with
  | [] => []
  | en :: q' => if decide (ident en = id) then q' else en :: remove_entry id q'
  end.

Definition cancel_entry (id : nat) (s : Bus) : Bus :=
  with_queue (remove_entry id (moduleQueue s)) (entries s) s.

Definition add_imported (spec : string) (s : Bus) : Bus :=
  with_imported (if decide (spec ∈ importedModules s) then importedModules s
                 else importedModules s ++ [spec]) s.

Definition complete_phase (ph : Phase) (s : Bus) : Bus :=
  match ph with
  | Bootstrap => with_gates true (runtimeCompleted s) s
  | Runtime => with_gates (bootstrapCompleted s) true s
  end.

Definition phase_completed (ph : Phase) (s : Bus) : bool :=
  match ph with
  | Bootstrap => bootstrapCompleted s
  | Runtime => runtimeCompleted s
  end.

Definition set_initialized (s : Bus) : Bus :=
  with_lifecycle true (worldReady s) (watchdogHooked s) (worldLoadHooked s) (sourcesBound s) s.
Definition set_worldReady (s : Bus) : Bus :=
  with_lifecycle (initialized s) true (watchdogHooked s) (worldLoadHooked s) (sourcesBound s) s.
Definition hook_watchdog (s : Bus) : Bus :=
  with_lifecycle (initialized s) (worldReady s) true (worldLoadHooked s) (sourcesBound s) s.
Definition hook_worldLoad (s : Bus) : Bus :=
  with_lifecycle (initialized s) (worldReady s) (watchdogHooked s) true (sourcesBound s) s.
Definition bind_source (e : string) (s : Bus) : Bus :=
  with_lifecycle (initialized s) (worldReady s) (watchdogHooked s) (worldLoadHooked s)
    (sourcesBound s ++ [e]) s.

(** The events [attachMinecraftEvents] binds, in its order. *)
Definition bindings : list string :=
  ["itemUse"; "playerInventoryItemChange"; "playerInteractWithBlock";
   "playerBreakBlock"; "playerJoin"; "playerLeave"; "entitySpawn"; "playerSpawn"].

(** ** The methods of the class *)

Definition validateEventName (eventName : Value) : M string :=
  match eventName with
  | VStr e => ret e
  | _ => throw (VError "TypeError" "Event name must be a string")
  end.

Definition validateHandler (handler : Value) : M Fn :=
  match handler with
  | VFn f => ret f
  | _ => throw (VError "TypeError" "Handler must be a function")
  end.

Definition validateModuleSpecifier (specifier : Value) : M string :=
  match specifier with
  | VStr s =>
      if String.eqb (trim s) "" then
        throw (VError "TypeError" "Module specifier must be a non-empty string")
      else ret s
  | _ => throw (VError "TypeError" "Module specifier must be a non-empty string")
  end.

Definition normalizePhase (ph legacyBeforeLoad : Value) : Phase :=
  let eq s := match ph with VStr p => String.eqb p s | _ => false end in
  if eq "bootstrap" || eq "before" then Bootstrap
  else if eq "runtime" || eq "after" then Runtime
  else if truthy legacyBeforeLoad then Bootstrap else Runtime.

(** An arrow function the bus returns: a new closure object. *)
Definition new_closure (c : Closure) : M Fn :=
  addr <- gets (λ s, length (closures s)) ;;
  modify (alloc c) ;;
  ret (FClosure addr).

Definition on (eventName handler : Value) : M Value :=
  e <- validateEventName eventName ;;
  h <- validateHandler handler ;;
  found <- gets (λ s, map_get e (listenersMap s)) ;;
  handlers <- match found with
              | Some r => ret r
              | None => r <- gets (λ s, length (sets s)) ;; modify new_set ;; ret r
              end ;;
  modify (add_to handlers h) ;;
  modify (bind_event e handlers) ;;
  size <- gets (λ s, length (set_at handlers s)) ;;
  when (bool_decide (listenerThreshold < size))
       (modify (log (WarnListenerLeak size e))) ;;
  unsub <- new_closure (Unsubscribe e h) ;;
  ret (VFn unsub).

Definition once (eventName handler : Value) : M Value :=
  e <- validateEventName eventName ;;
  h <- validateHandler handler ;;
  wrapper <- new_closure (OnceWrapper e h false) ;;
  on (VStr e) (VFn wrapper).

(** [off(eventName = null, handler)] *)
Definition off (eventName handler : Value) : M Value :=
  match eventName with
  | VUndefined | VNull => modify clear_all ;; ret VUndefined
  | _ =>
      e <- validateEventName eventName ;;
      found <- gets (λ s, map_get e (listenersMap s)) ;;
      match found with
      | None => ret VUndefined
      | Some handlers =>
          match handler with
          | VUndefined => modify (drop_event e) ;; ret VUndefined
          | _ =>
              h <- validateHandler handler ;;
              modify (delete_from handlers h) ;;
              size <- gets (λ s, length (set_at handlers s)) ;;
              when (bool_decide (size = 0)) (modify (drop_event e)) ;;
              ret VUndefined
          end
      end
  end.

(** [this.off(eventName ?? null)] *)
Definition clearListeners (eventName : Value) : M Value :=
  off (match eventName with VUndefined | VNull => VNull | v => v end) VUndefined.

Definition listeners (eventName : Value) : M (list Fn) :=
  e <- validateEventName eventName ;;
  gets (λ s, match map_get e (listenersMap s) with
             | Some r => set_at r s
             | None => []
             end).

Definition listenerCount (eventName : Value) : M nat :=
  e <- validateEventName eventName ;;
  gets (λ s, match map_get e (listenersMap s) with
             | Some r => length (set_at r s)
             | None => 0
             end).

Definition eventNames (s : Bus) : list string := (listenersMap s).*1.

(** The getter [listenersSnapshot]: a new [Map] with a copy of every
    listener set, in the order of the map. *)
Definition listenersSnapshot (s : Bus) : list (string * list Fn) :=
  (λ '(name, r), (name, set_at r s)) <$> listenersMap s.

(** [handlers = new Set(); specific.forEach(add); wildcard.forEach(add)],
    taken when [emit] starts. *)
Definition delivery (specific wildcard : option nat) (s : Bus) : list Fn :=
  let members o := match o with Some r => set_at r s | None => [] end in
  foldl (λ acc fn, set_add fn acc) [] (members specific ++ members wildcard).

(** [wildcardHandlers?.has(fn) && (!specificHandlers || !specificHandlers.has(fn))],
    read from the two [Set] objects when [fn] is about to be called. *)
Definition shouldSendEventName (specific wildcard : option nat) (fn : Fn) (s : Bus) : bool :=
  match wildcard with
  | None => false
  | Some w =>
      set_has fn (set_at w s) &&
      match specific with
      | None => true
      | Some r => negb (set_has fn (set_at r s))
      end
  end.

Section Program.
Context (W : World).

Definition importModule (spec : string) : M Value :=
  has <- gets (λ s, bool_decide (spec ∈ importedModules s)) ;;
  if has : bool then ret (VPromise Fulfilled VUndefined) else
  modify (add_imported spec) ;;
  modify (log (Import spec)) ;;
  match importOutcome W spec with
  | None => ret tt
  | Some error => modify (log (ErrorImportFailed spec error))
  end ;;
  ret (VPromise Fulfilled VUndefined).

(** [results.filter((result) => result.status === "rejected")] *)
Definition rejected_only (results : list Settlement) : list Settlement :=
  filter (λ r, is_rejected r = true) results.

Definition importPhase (ph : Phase) : M unit :=
  pending <- gets (λ s, filter (λ en, phase en = ph) (moduleQueue s)) ;;
  modify (complete_phase ph) ;;
  match pending with
  | [] => ret tt
  | _ =>
      tasks <- map_M pending (λ en, importModule (specifier en)) ;;
      match allSettled tasks with
      | AResolved results =>
          let failures := rejected_only results in
          when (bool_decide (0 < length failures))
               (modify (log (ErrorPhaseFailures (length failures) ph)))
      | _ => ret tt
      end
  end.

Definition resolveModuleSpecifier (spec : string) (anchor : Value) : M string :=
  let trimmed := trim spec in
  let isRelative := startsWith trimmed "./" || startsWith trimmed "../" in
  if isAbsolute trimmed then ret trimmed
  else if isRelative then
    if negb (truthy anchor) then
      throw (VError "Error"
        "Relative module specifiers require an anchor (pass { anchor: import.meta.url }).")
    else match resolveURL W trimmed anchor with
         | inl url => ret url
         | inr error => throw error
         end
  else ret trimmed.

Definition registerModule (spec : Value) (options : Options) : M Value :=
  sp <- validateModuleSpecifier spec ;;
  let ph := normalizePhase (opt_phase options) (opt_beforeLoad options) in
  resolvedSpecifier <- resolveModuleSpecifier sp (opt_anchor options) ;;
  id <- gets entries ;;
  modify (push_entry resolvedSpecifier ph) ;;
  ready <- gets (phase_completed ph) ;;
  (if ready : bool then importModule resolvedSpecifier ;; ret tt else ret tt) ;;
  cancel <- new_closure (CancelModule id) ;;
  ret (VFn cancel).

Definition setupWatchdogGuard : M unit :=
  when (watchdogAvailable W) (modify hook_watchdog).

Definition attachMinecraftEvents : M unit :=
  for_each bindings (λ ev, when (sourceAvailable W ev) (modify (bind_source ev))).

Section Dispatch.
(** Calling a function value; tied to the call-depth bound below. *)
Variable invoke : Fn → list Value → M Value.

Definition call_listener (specific wildcard : option nat) (e : string)
    (payload : Value) (fn : Fn) : M Value :=
  send <- gets (shouldSendEventName specific wildcard fn) ;;
  if send : bool then invoke fn [payload; VStr e] else invoke fn [payload].

Definition emit (eventName payload : Value) : M Value :=
  e <- validateEventName eventName ;;
  specificHandlers <- gets (λ s, map_get e (listenersMap s)) ;;
  wildcardHandlers <- gets (λ s, map_get BUS_ANY (listenersMap s)) ;;
  match specificHandlers, wildcardHandlers with
  | None, None => ret VUndefined
  | _, _ =>
      handlers <- gets (delivery specificHandlers wildcardHandlers) ;;
      for_each handlers (λ fn,
        try_catch
          (call_listener specificHandlers wildcardHandlers e payload fn ;; ret tt)
          (λ error, modify (log (ErrorHandlerFailure e error)))) ;;
      ret VUndefined
  end.

(** One element of the [tasks] array of [emitAsync]. *)
Definition launch (specific wildcard : option nat) (e : string)
    (payload : Value) (fn : Fn) : M Value :=
  try_catch
    (result <- call_listener specific wildcard e payload fn ;;
     ret (promise_resolve result))
    (λ error, ret (VPromise Rejected error)).

(** An [async] method: a failed validation rejects the promise. *)
Definition emitAsync (eventName payload : Value) : M (Async (list Settlement)) :=
  match eventName with
  | VStr e =>
      specificHandlers <- gets (λ s, map_get e (listenersMap s)) ;;
      wildcardHandlers <- gets (λ s, map_get BUS_ANY (listenersMap s)) ;;
      match specificHandlers, wildcardHandlers with
      | None, None => ret (AResolved [])
      | _, _ =>
          handlers <- gets (delivery specificHandlers wildcardHandlers) ;;
          tasks <- map_M handlers
                     (launch specificHandlers wildcardHandlers e payload) ;;
          ret (allSettled tasks)
      end
  | _ => ret (ARejected (VError "TypeError" "Event name must be a string"))
  end.

(** The callback [initialize] subscribes to the host's [worldLoad]. *)
Definition onWorldLoad (event : Value) : M unit :=
  ready <- gets worldReady ;;
  if ready : bool then ret tt else
  modify set_worldReady ;;
  try_catch
    (attachMinecraftEvents ;;
     emit (VStr BUS_WORLD_LOAD) event ;;
     importPhase Runtime)
    (λ error, modify (log (ErrorWorldLoad error))).

(** The callback [setupWatchdogGuard] subscribes to the host's
    [watchdogTerminate]; [shutdown] is the object
    [{ data: event, timestamp: Date.now(), isWatchdog: true }] it builds.
    Setting [event.cancel] changes the host's object, not the bus. *)
Definition onWatchdog (shutdown : Value) : M unit :=
  modify (log WarnWatchdog) ;;
  try_catch
    (emit (VStr BUS_SHUTDOWN) shutdown ;; ret tt)
    (λ error, modify (log (ErrorShutdown error))).

Definition initialize : M Value :=
  done <- gets initialized ;;
  if done : bool then ret VUndefined else
  modify set_initialized ;;
  setupWatchdogGuard ;;
  importPhase Bootstrap ;;
  modify hook_worldLoad ;;
  ret VUndefined.

(** A command of a body: [Some v] when the body returns [v] there. *)
Fixpoint exec_cmd (c : Cmd) : M (option Value) :=
  match c with
  | COn e h => on e h ;; ret None
  | COnce e h => once e h ;; ret None
  | COff e h => off e h ;; ret None
  | CClearListeners e => clearListeners e ;; ret None
  | CEmit e p => emit e p ;; ret None
  | CEmitAsync e p => emitAsync e p ;; ret None
  | CRegisterModule spec options => registerModule spec options ;; ret None
  | CInitialize => initialize ;; ret None
  | CCall f args => invoke f args ;; ret None
  | CStore cell v => modify (store cell v) ;; ret None
  | CTry c' => try_catch (exec_cmd c') (λ _, ret None)
  | CReturn v => ret (Some v)
  | CThrow err => throw err
  end.

Fixpoint run (body : list Cmd) : M Value :=
  match body with
  | [] => ret VUndefined
  | c :: rest =>
      r <- exec_cmd c ;;
      match r with
      | Some v => ret v
      | None => run rest
      end
  end.

(** The wrapper [once] builds, at [addr], called with [args]. *)
Definition wrapper_body (addr : nat) (e : string) (handler : Fn)
    (completed : bool) (args : list Value) : M Value :=
  if completed then ret VUndefined else
  modify (latch addr) ;;
  try_finally
    (invoke handler [arg 0 args; arg 1 args] ;; ret tt)
    (off (VStr e) (VFn (FClosure addr)) ;; ret tt) ;;
  ret VUndefined.

(** The body of a function value: a user function runs its script, a
    closure of the bus runs the arrow function it stands for. *)
Definition fn_body (f : Fn) (args : list Value) : M Value :=
  match f with
  | FUser id => mem <- gets memory ;; run (code W id args mem)
  | FClosure addr =>
      c <- gets (λ s, closures s !! addr) ;;
      match c with
      | Some (OnceWrapper e h completed) => wrapper_body addr e h completed args
      | Some (Unsubscribe e h) => off (VStr e) (VFn h)
      | Some (CancelModule id) => modify (cancel_entry id) ;; ret VUndefined
      | None => throw (VError "TypeError" "not a function")
      end
  end.

(** A call: recorded in the trace, then the body runs. *)
Definition apply_fn (f : Fn) (args : list Value) : M Value :=
  modify (log (Invoked f args)) ;;
  fn_body f args.
End Dispatch.

Fixpoint invoke (fuel : nat) (f : Fn) (args : list Value) : M Value :=
  match fuel with
  | 0 => out_of_fuel
  | S n => apply_fn (invoke n) f args
  end.

(** ** Runs: calls from outside the bus and host signals *)

Inductive Op :=
  | Do (c : Cmd)
  | HostWorldLoad (event : Value)
  | HostWatchdog (shutdown : Value)
  | HostEvent (name : string) (payload : Value).

(** One top-level call; an exception it raises ends that call only. *)
Definition step (fuel : nat) (op : Op) (s : Bus) : Bus :=
  match op with
  | Do c => (exec_cmd (invoke fuel) c s).2
  | HostWorldLoad event =>
      if worldLoadHooked s then (onWorldLoad (invoke fuel) event s).2 else s
  | HostWatchdog shutdown =>
      if watchdogHooked s then (onWatchdog (invoke fuel) shutdown s).2 else s
  | HostEvent name payload =>
      if bool_decide (name ∈ sourcesBound s)
      then (emit (invoke fuel) (VStr name) payload s).2 else s
  end.

Definition run_ops (fuel : nat) (ops : list Op) (s : Bus) : Bus :=
  foldl (λ s op, step fuel op s) s ops.
End Program.

(** ** Vocabulary of the properties *)

(** The net effect of [on] on the registry: the set under [e] (a new one
    when [e] has none) gains [h]. *)
Definition listen (e : string) (h : Fn) (s : Bus) : Bus :=
  match map_get e (listenersMap s) with
  | Some r => bind_event e r (add_to r h s)
  | None => bind_event e (length (sets s)) (add_to (length (sets s)) h (new_set s))
  end.

Definition listen_ref (e : string) (s : Bus) : nat :=
  match map_get e (listenersMap s) with Some r => r | None => length (sets s) end.

Definition warn_leak (e : string) (r : nat) (s : Bus) : Bus :=
  if bool_decide (listenerThreshold < length (set_at r s))
  then log (WarnListenerLeak (length (set_at r s)) e) s else s.

(** The net effect of [off(e, h)] on the set [r] found under [e]. *)
Definition unlisten (e : string) (r : nat) (h : Fn) (s : Bus) : Bus :=
  let s1 := delete_from r h s in
  if bool_decide (length (set_at r s1) = 0) then drop_event e s1 else s1.

(** The first load of [spec]: recorded in the loaded set, then imported. *)
Definition load (spec : string) (s : Bus) : Bus := log (Import spec) (add_imported spec s).

Definition is_import (ev : Event) : bool :=
  match ev with Import _ => true | _ => false end.

(** The state changes the methods are made of.  Every run of every method,
    whatever the listeners do, is a sequence of these ([pres_invoke]). *)
Inductive astep : Bus → Bus → Prop :=
  | a_log ev s : is_import ev = false → astep s (log ev s)
  | a_listen e h s : astep s (listen e h s)
  | a_unlisten e r h s :
      map_get e (listenersMap s) = Some r → astep s (unlisten e r h s)
  | a_drop e s : astep s (drop_event e s)
  | a_clear s : astep s (clear_all s)
  | a_alloc c s : astep s (alloc c s)
  | a_latch addr s : astep s (latch addr s)
  | a_push spec ph s : astep s (push_entry spec ph s)
  | a_cancel id s : astep s (cancel_entry id s)
  | a_load spec s : spec ∉ importedModules s → astep s (load spec s)
  | a_gate ph s : astep s (complete_phase ph s)
  | a_life i w wd wl b s : astep s (with_lifecycle i w wd wl b s)
  | a_store cell v s : astep s (store cell v s).

Definition reach : Bus → Bus → Prop := rtc astep.

Definition pres {A} (m : M A) : Prop := ∀ s r s', m s = (r, s') → reach s s'.

(** The listeners registered for [e], in the order of their set. *)
Definition listeners_of (e : string) (s : Bus) : list Fn :=
  match map_get e (listenersMap s) with
  | Some r => set_at r s
  | None => []
  end.

(** The registry is well formed: no two events share a [Set] object, every
    event of the map has a non-empty set, and a set has no duplicates. *)
Definition wf_reg (m : list (string * nat)) (st : list (list Fn)) : Prop :=
  NoDup m.*2 ∧
  (∀ e r, (e, r) ∈ m → ∃ l, st !! r = Some l ∧ l ≠ []) ∧
  Forall NoDup st.

Definition wf (s : Bus) : Prop := wf_reg (listenersMap s) (sets s).

(** The wrapper at [addr] has set its latch. *)
Definition fired (addr : nat) (s : Bus) : Prop :=
  ∃ e h, closures s !! addr = Some (OnceWrapper e h true).

(** The specifiers the dynamic [import] was called with, in order. *)
Definition imports_of (tr : list Event) : list string :=
  omap (λ ev, match ev with Import sp => Some sp | _ => None end) tr.

Definition loads_ok (s : Bus) : Prop :=
  NoDup (imports_of (trace s)) ∧
  ∀ sp, sp ∈ imports_of (trace s) → sp ∈ importedModules s.

(** The functions called, in order. *)
Definition invoked_fns (evs : list Event) : list Fn :=
  omap (λ ev, match ev with Invoked f _ => Some f | _ => None end) evs.

(** A body that does not call the bus: it returns or throws at once. *)
Definition leaf (c : Cmd) : bool :=
  match c with CReturn _ | CThrow _ => true | _ => false end.

Definition outcome (body : list Cmd) : Res Value :=
  match body with
  | CReturn v :: _ => Ret v
  | CThrow err :: _ => Throw err
  | _ => Ret VUndefined
  end.

Definition passive (W : World) (f : Fn) : Prop :=
  match f with
  | FUser id => ∀ args mem, forallb leaf (code W id args mem) = true
  | FClosure _ => False
  end.

Definition result_of (W : World) (f : Fn) (args : list Value) (s : Bus) : Res Value :=
  match f with
  | FUser id => outcome (code W id args (memory s))
  | FClosure _ => Ret VUndefined
  end.

(** What one delivery of [emit] leaves in the trace when [fn] is passive:
    the call, and the logged failure when [fn] throws. *)
Definition call_args (sp wc : option nat) (e : string) (p : Value) (s : Bus) (fn : Fn)
    : list Value :=
  if shouldSendEventName sp wc fn s then [p; VStr e] else [p].

Definition call_events (W : World) (sp wc : option nat) (e : string) (p : Value)
    (s : Bus) (fn : Fn) : list Event :=
  Invoked fn (call_args sp wc e p s fn) ::
  match result_of W fn (call_args sp wc e p s fn) s with
  | Throw err => [ErrorHandlerFailure e err]
  | _ => []
  end.

(** The delivery set [emit(e, _)] builds in state [s]. *)
Definition delivery_of (e : string) (s : Bus) : list Fn :=
  delivery (map_get e (listenersMap s)) (map_get BUS_ANY (listenersMap s)) s.

(** The arguments the spec gives a listener of [emit(e, p)]: the payload
    alone when it is registered for [e], the payload and the event name when
    it is reached through the wildcard only. *)
Definition expected_args (e : string) (p : Value) (s : Bus) (fn : Fn) : list Value :=
  if bool_decide (fn ∈ listeners_of e s) then [p] else [p; VStr e].

(** The argument lists [f] was called with, in order. *)
Definition calls_to (f : Fn) (evs : list Event) : list (list Value) :=
  omap (λ ev, match ev with
              | Invoked g args => if decide (g = f) then Some args else None
              | _ => None
              end) evs.

(** The events after the first [n]. *)
Definition since (n : nat) (s : Bus) : list Event := drop n (trace s).

(** How the result of a listener settles in [emitAsync]; [None] when the
    promise it returned never settles. *)
Definition settlement_of (r : Res Value) : option Settlement :=
  match r with
  | Ret (VPromise Fulfilled v) => Some (SFulfilled v)
  | Ret (VPromise Rejected reason) => Some (SRejected reason)
  | Ret (VPromise Pending _) => None
  | Ret v => Some (SFulfilled v)
  | Throw reason => Some (SRejected reason)
  | OutOfFuel => None
  end.

(** ** Worlds for the examples *)

(** Every user function has an empty body; every module loads. *)
Definition quiet_world : World :=
  mkWorld (λ _ _ _, []) (λ _, None) (λ s _, inl s) (λ _, true) true.

(** User function 0 unsubscribes function 1 and itself from "x", which
    empties the set of "x", then subscribes function 1 to "x" again. *)
Definition resubscribing_world : World :=
  mkWorld (λ id _ _, match id with
                   | 0 => [COff (VStr "x") (VFn (FUser 1));
                           COff (VStr "x") (VFn (FUser 0));
                           COn (VStr "x") (VFn (FUser 1))]
                   | _ => []
                   end)
    (λ _, None) (λ s _, inl s) (λ _, true) true.

(** The module "bad" fails to load; every other module loads. *)
Definition failing_world : World :=
  mkWorld (λ _ _ _, [])
    (λ sp, if String.eqb sp "bad" then Some (VError "Error" "cannot load") else None)
    (λ s _, inl s) (λ _, true) true.

Definition bootstrap_options : Options := mkOptions (VStr "bootstrap") VUndefined VUndefined.
Definition runtime_options : Options := mkOptions (VStr "runtime") VUndefined VUndefined.

(** The state after [importModule] has loaded [spec] for the first time. *)
Definition loaded (W : World) (spec : string) (s : Bus) : Bus :=
  match importOutcome W spec with
  | None => load spec s
  | Some error => log (ErrorImportFailed spec error) (load spec s)
  end.

Definition is_summary (ev : Event) : bool :=
  match ev with ErrorPhaseFailures _ _ => true | _ => false end.

(** The promise [emitAsync] makes of the completion of a listener. *)
Definition task_of (r : Res Value) : Value :=
  match r with
  | Ret v => promise_resolve v
  | Throw reason => VPromise Rejected reason
  | OutOfFuel => VUndefined
  end.

Definition is_promise (v : Value) : bool :=
  match v with VPromise _ _ => true | _ => false end.

(** ** The key-value store [Database] (scripts/core/database.js) *)

(** A [Database] keeps its values in the dynamic properties of the world
    under ids [name ++ separator ++ key] or
    [name ++ separator ++ segment ++ separator ++ key], and mirrors them in a
    [Map] when [useCache] is set.

    Modelling choices.
    - The dynamic properties of the world are an association list from ids
      to values, in the order [getDynamicPropertyIds] lists them; writing
      [undefined] removes the property, and the host may refuse any write,
      a removal too, by throwing ([writeError]).
    - The callbacks of the options ([validateKey], [serialize],
      [deserialize]) and the updater of [update] are functions that return
      or throw and do not touch the database themselves.
    - The options have the types their typedef documents; an absent option
      is [None].  The [segment] of [refreshCache], [entries], [clear] and
      [listIds], which the code does not check, is absent or a string. *)
Module Database.

Inductive Outcome (A : Type) :=
  | Returns (a : A)
  | Throws (err : Value).
Arguments Returns {A} a.
Arguments Throws {A} err.

(** *** Strings *)

(** [s.includes(sep)] *)
Fixpoint includes (sep s : string) : bool :=
  String.prefix sep s ||
  match s with
  | String _ s' => includes sep s'
  | EmptyString => false
  end.

(** [s.split(sep)] for a non-empty [sep]: [cur] is the piece being read and
    [skip] counts the characters of a matched separator still to pass. *)
Fixpoint split_from (sep : string) (skip : nat) (cur s : string) : list string :=
  match s with
  | EmptyString => [cur]
  | String a s' =>
      match skip with
      | S n => split_from sep n cur s'
      | 0 =>
          if String.prefix sep s
          then cur :: split_from sep (String.length sep - 1) "" s'
          else split_from sep 0 (cur ++ String a "") s'
      end
  end.

(** [s.split(sep)]; an empty [sep] splits [s] into its characters. *)
Definition split (sep s : string) : list string :=
  if String.eqb sep "" then (λ a, String a "") <$> list_ascii_of_string s
  else split_from sep 0 "" s.

(** [pieces.join(sep)] *)
Definition join (sep : string) (pieces : list string) : string :=
  String.concat sep pieces.

(** *** The object and the world *)

(** [{ key, segment }] as [parseId] returns it, and [{ key, segment, value }]
    as [entries] and [refreshCache] list it; a [null] segment is [None]. *)
Record Parsed := mkParsed { parsed_key : string; parsed_segment : option string }.

Record Item := mkItem {
  item_key : string;
  item_segment : option string;
  item_value : Value
}.

Record DatabaseOptions := mkDatabaseOptions {
  opt_useCache : option bool;
  opt_eagerLoad : option bool;
  opt_validateKey : option (string → Outcome unit);
  opt_serialize : option (Value → Outcome Value);
  opt_deserialize : option (Value → Outcome Value);
  opt_separator : option string
}.

Definition default_options : DatabaseOptions :=
  mkDatabaseOptions None None None None None None.

(** The fields of a [Database] object; [cache] is [None] for [null]. *)
Record Database := mkDatabase {
  name : string;
  separator : string;
  useCache : bool;
  eagerLoad : bool;
  validateKey : option (string → Outcome unit);
  serialize : Value → Outcome Value;
  deserialize : Value → Outcome Value;
  cache : option (list (string * Value));
  cachePrimed : bool
}.

Definition with_cache (c : option (list (string * Value))) (primed : bool)
    (db : Database) : Database :=
  mkDatabase (name db) (separator db) (useCache db) (eagerLoad db) (validateKey db)
    (serialize db) (deserialize db) c primed.

(** One database object and the dynamic properties of the world. *)
Record State := mkState {
  this : Database;
  dynamicProperties : list (string * Value)
}.

(** The host: the error [setDynamicProperty(id, value)] throws, if any. *)
Record Host := mkHost { writeError : string → Value → option Value }.

(** *** The monad: state and exceptions *)

Definition D (A : Type) : Type := State → Outcome A * State.

Definition ret {A} (a : A) : D A := λ s, (Returns a, s).
Definition throw {A} (err : Value) : D A := λ s, (Throws err, s).

Definition bind {A B} (m : D A) (k : A → D B) : D B :=
  λ s, match m s with
       | (Returns a, s') => k a s'
       | (Throws err, s') => (Throws err, s')
       end.

Declare Scope db_scope.
Delimit Scope db_scope with db.
Notation "x <- m ;; k" := (bind m (λ x, k))
  (at level 100, m at next level, right associativity) : db_scope.
Notation "m ;; k" := (bind m (λ _, k))
  (at level 100, right associativity) : db_scope.
Open Scope db_scope.

Definition gets {A} (f : State → A) : D A := λ s, (Returns (f s), s).
Definition modify (f : State → State) : D unit := λ s, (Returns tt, f s).
Definition when (b : bool) (m : D unit) : D unit := if b then m else ret tt.

(** The completion of a callback or of a method that reads no state. *)
Definition lift {A} (o : Outcome A) : D A := λ s, (o, s).

Fixpoint for_each {A} (l : list A) (body : A → D unit) : D unit :=
  match l with
  | [] => ret tt
  | x :: l' => body x ;; for_each l' body
  end.

(** [array.map(f).filter((x) => x !== null)], and a loop that pushes to a
    result or [continue]s. *)
Fixpoint collect {A B} (l : list A) (f : A → D (option B)) : D (list B) :=
  match l with
  | [] => ret []
  | x :: l' =>
      y <- f x ;;
      ys <- collect l' f ;;
      ret (match y with Some b => b :: ys | None => ys end)
  end.

(** *** The world's dynamic properties *)

Definition getDynamicProperty (id : string) (s : State) : Value :=
  default VUndefined (map_get id (dynamicProperties s)).

Definition getDynamicPropertyIds (s : State) : list string := (dynamicProperties s).*1.

Definition write_property (id : string) (v : Value) (s : State) : State :=
  mkState (this s) (map_set id v (dynamicProperties s)).

Definition remove_property (id : string) (s : State) : State :=
  mkState (this s) (map_delete id (dynamicProperties s)).

Definition setDynamicProperty (H : Host) (id : string) (v : Value) : D unit :=
  match writeError H id v with
  | Some err => throw err
  | None =>
      match v with
      | VUndefined => modify (remove_property id)
      | _ => modify (write_property id v)
      end
  end.

(** *** The cache *)

(** [this.cache?.has(id)] *)
Definition cache_has (id : string) (db : Database) : bool :=
  match cache db with
  | Some c => bool_decide (is_Some (map_get id c))
  | None => false
  end.

(** [this.cache.get(id)] *)
Definition cache_get (id : string) (db : Database) : Value :=
  match cache db with
  | Some c => default VUndefined (map_get id c)
  | None => VUndefined
  end.

(** [if (this.useCache && this.cache) this.cache.set(id, value)] *)
Definition cache_set (id : string) (v : Value) (s : State) : State :=
  match cache (this s) with
  | Some c =>
      if useCache (this s)
      then mkState (with_cache (Some (map_set id v c)) (cachePrimed (this s)) (this s))
                   (dynamicProperties s)
      else s
  | None => s
  end.

(** [if (this.useCache && this.cache) this.cache.delete(id)] *)
Definition cache_delete (id : string) (s : State) : State :=
  match cache (this s) with
  | Some c =>
      if useCache (this s)
      then mkState (with_cache (Some (map_delete id c)) (cachePrimed (this s)) (this s))
                   (dynamicProperties s)
      else s
  | None => s
  end.

Definition prime (s : State) : State :=
  mkState (with_cache (cache (this s)) true (this s)) (dynamicProperties s).

(** *** The methods *)

(** [ensureValidKey(key, label)]; the checked string is handed on. *)
Definition ensureValidKey (db : Database) (key : Value) (label : string) : Outcome string :=
  match key with
  | VStr k =>
      if String.eqb (trim k) "" then
        Throws (VError "TypeError" (label ++ " must be a non-empty string"))
      else if includes (separator db) k then
        Throws (VError "Error"
          (label ++ " cannot contain the separator '" ++ separator db ++ "'"))
      else
        match validateKey db with
        | Some check =>
            match check k with
            | Returns _ => Returns k
            | Throws err => Throws err
            end
        | None => Returns k
        end
  | _ => Throws (VError "TypeError" (label ++ " must be a non-empty string"))
  end.

Definition buildId (db : Database) (key segment : Value) : Outcome string :=
  match ensureValidKey db key "key" with
  | Throws err => Throws err
  | Returns k =>
      match segment with
      | VUndefined => Returns (join (separator db) [name db; k])
      | _ =>
          match ensureValidKey db segment "segment" with
          | Throws err => Throws err
          | Returns g =>
              Returns (join (separator db)
                         (if truthy segment then [name db; g; k] else [name db; k]))
          end
      end
  end.

Definition parseId (db : Database) (id : string) : option Parsed :=
  match split (separator db) id with
  | [] => None
  | first :: rest =>
      if negb (String.eqb first (name db)) then None
      else match rest with
           | [] => None
           | [k] => Some (mkParsed k None)
           | g :: more => Some (mkParsed (join (separator db) more) (Some g))
           end
  end.

(** [(segment ? [name, segment] : [name]).join(separator) + separator] *)
Definition prefix_of (db : Database) (segment : option string) : string :=
  join (separator db)
    (match segment with
     | Some g => if String.eqb g "" then [name db] else [name db; g]
     | None => [name db]
     end) ++ separator db.

Definition listIds (segment : option string) : D (list string) :=
  gets (λ s, filter (λ id, startsWith id (prefix_of (this s) segment) = true)
               (getDynamicPropertyIds s)).

(** One round of the loop of [refreshCache]. *)
Definition refresh_one (pre : string) (id : string) : D (option Item) :=
  if negb (startsWith id pre) then ret None else
  parsed <- gets (λ s, parseId (this s) id) ;;
  match parsed with
  | None => ret None
  | Some p =>
      raw <- gets (getDynamicProperty id) ;;
      value <- (s <- gets this ;; lift (deserialize s raw)) ;;
      modify (cache_set id value) ;;
      ret (Some (mkItem (parsed_key p) (parsed_segment p) value))
  end.

Definition refreshCache (segment : option string) : D (list Item) :=
  db <- gets this ;;
  if negb (useCache db) || negb (bool_decide (is_Some (cache db))) then ret [] else
  ids <- gets getDynamicPropertyIds ;;
  loaded <- collect ids (refresh_one (prefix_of db segment)) ;;
  modify prime ;;
  ret loaded.

Section Methods.
Context (H : Host).

Definition get (key segment : Value) : D Value :=
  id <- (db <- gets this ;; lift (buildId db key segment)) ;;
  db <- gets this ;;
  if useCache db && cache_has id db then ret (cache_get id db) else
  raw <- gets (getDynamicProperty id) ;;
  match raw with
  | VUndefined => ret VUndefined
  | _ =>
      value <- lift (deserialize db raw) ;;
      modify (cache_set id value) ;;
      ret value
  end.

Definition set (key value segment : Value) : D Value :=
  id <- (db <- gets this ;; lift (buildId db key segment)) ;;
  payload <- (db <- gets this ;; lift (serialize db value)) ;;
  setDynamicProperty H id payload ;;
  modify (cache_set id value) ;;
  ret value.

Definition delete (key segment : Value) : D Value :=
  id <- (db <- gets this ;; lift (buildId db key segment)) ;;
  setDynamicProperty H id VUndefined ;;
  modify (cache_delete id) ;;
  ret VUndefined.

Definition has (key segment : Value) : D bool :=
  id <- (db <- gets this ;; lift (buildId db key segment)) ;;
  db <- gets this ;;
  if useCache db && cache_has id db then ret true else
  raw <- gets (getDynamicProperty id) ;;
  ret (match raw with VUndefined => false | _ => true end).

(** [update(key, updater, segment)]; [updater] is [None] for a value that
    is not a function. *)
Definition update (key : Value) (updater : option (Value → Outcome Value))
    (segment : Value) : D Value :=
  match updater with
  | None => throw (VError "TypeError" "Updater must be a function")
  | Some f =>
      current <- get key segment ;;
      next <- lift (f current) ;;
      match next with
      | VUndefined => delete key segment ;; ret next
      | _ => set key next segment
      end
  end.

(** The cached branch of [entries]: one round of the loop over the cache. *)
Definition cached_item (db : Database) (pre : string) (e : string * Value) : option Item :=
  if negb (startsWith e.1 pre) then None else
  match parseId db e.1 with
  | None => None
  | Some p => Some (mkItem (parsed_key p) (parsed_segment p) e.2)
  end.

(** The uncached branch of [entries]: the callback of [ids.map]. *)
Definition read_item (id : string) : D (option Item) :=
  parsed <- gets (λ s, parseId (this s) id) ;;
  raw <- gets (getDynamicProperty id) ;;
  value <- (s <- gets this ;; lift (deserialize s raw)) ;;
  ret (match parsed with
       | Some p => Some (mkItem (parsed_key p) (parsed_segment p) value)
       | None => None
       end).

Definition entries (segment : option string) : D (list Item) :=
  db <- gets this ;;
  cached <- (if useCache db then
               refreshCache segment ;;
               db' <- gets this ;;
               match cache db' with
               | Some c => ret (Some (omap (cached_item db' (prefix_of db' segment)) c))
               | None => ret None
               end
             else ret None) ;;
  match cached with
  | Some result => ret result
  | None =>
      ids <- listIds segment ;;
      collect ids read_item
  end.

Definition clear (segment : option string) : D Value :=
  ids <- listIds segment ;;
  for_each ids (λ id,
    setDynamicProperty H id VUndefined ;;
    modify (cache_delete id)) ;;
  ret VUndefined.

End Methods.

(** [new Database(name, options)] in a world with the dynamic properties
    [world]. *)
Definition constructor (name : Value) (options : DatabaseOptions)
    (world : list (string * Value)) : Outcome State :=
  match name with
  | VStr n =>
      if String.eqb (trim n) "" then
        Throws (VError "TypeError" "Database name must be a non-empty string")
      else
        let uc := default true (opt_useCache options) in
        let el := default true (opt_eagerLoad options) in
        let db := mkDatabase n (default ":" (opt_separator options)) uc el
                    (opt_validateKey options)
                    (default (λ value, Returns value) (opt_serialize options))
                    (default (λ raw, Returns raw) (opt_deserialize options))
                    (if uc then Some [] else None) false in
        if uc && el then
          match refreshCache None (mkState db world) with
          | (Returns _, s) => Returns s
          | (Throws err, _) => Throws err
          end
        else Returns (mkState db world)
  | _ => Throws (VError "TypeError" "Database name must be a non-empty string")
  end.

(** A call of a method from outside, for the properties of every run. *)
Inductive Call :=
  | CallGet (key segment : Value)
  | CallSet (key value segment : Value)
  | CallDelete (key segment : Value)
  | CallHas (key segment : Value)
  | CallUpdate (key : Value) (updater : option (Value → Outcome Value)) (segment : Value)
  | CallEntries (segment : option string)
  | CallClear (segment : option string)
  | CallRefreshCache (segment : option string)
  | CallListIds (segment : option string).

(** The state a call leaves, whether it returns or throws. *)
Definition perform (H : Host) (c : Call) (s : State) : State :=
  match c with
  | CallGet k g => (get k g s).2
  | CallSet k v g => (set H k v g s).2
  | CallDelete k g => (delete H k g s).2
  | CallHas k g => (has k g s).2
  | CallUpdate k f g => (update H k f g s).2
  | CallEntries g => (entries g s).2
  | CallClear g => (clear H g s).2
  | CallRefreshCache g => (refreshCache g s).2
  | CallListIds g => (listIds g s).2
  end.

Definition perform_all (H : Host) (calls : list Call) (s : State) : State :=
  foldl (λ s c, perform H c s) s calls.

End Database.

(** ** Vocabulary of the properties of the store *)

(** The segment of a call, as [parseId] gives it back. *)
Definition segment_of (segment : Value) : option string :=
  match segment with VStr g => Some g | _ => None end.

(** The world after [setDynamicProperty(id, payload)] has returned. *)
Definition stored (id : string) (payload : Value) (s : Database.State) : Database.State :=
  match payload with
  | VUndefined => Database.remove_property id s
  | _ => Database.write_property id payload s
  end.

(** What a read of [id] that goes to the world gives: [undefined] when the
    property is not there, the deserialized property otherwise. *)
Definition read_world (id : string) (s : Database.State) : Database.Outcome Value :=
  match Database.getDynamicProperty id s with
  | VUndefined => Database.Returns VUndefined
  | raw => Database.deserialize (Database.this s) raw
  end.

(** The cache is in use: [useCache] is set and [cache] is a [Map]. *)
Definition caching (s : Database.State) : Prop :=
  Database.useCache (Database.this s) = true ∧ is_Some (Database.cache (Database.this s)).

(** The cached value of [id], if the cache is in use and has one. *)
Definition cached (id : string) (s : Database.State) : option Value :=
  if Database.useCache (Database.this s)
  then c ← Database.cache (Database.this s); map_get id c
  else None.

(** A host that takes every write. *)
Definition lenient : Database.Host := Database.mkHost (λ _ _, None).

(** A host that takes strings, numbers and booleans only, and removes
    what it is asked to. *)
Definition strict : Database.Host :=
  Database.mkHost (λ _ v,
    match v with
    | VStr _ | VNum _ | VBool _ | VUndefined => None
    | _ => Some (VError "TypeError" "unsupported dynamic property value")
    end).

(** The database "plots" with the default options, without and with the
    cache. *)
Definition plots_uncached : Database.Database :=
  Database.mkDatabase "plots" ":" false false None
    Database.Returns Database.Returns None false.

Definition plots_cached : Database.Database :=
  Database.mkDatabase "plots" ":" true true None
    Database.Returns Database.Returns (Some []) true.

(** [id] is under the prefix of the database: it starts with the name and
    the separator. *)
Definition under (id : string) (s : Database.State) : Prop :=
  startsWith id (Database.prefix_of (Database.this s) None) = true.

(** The state changes the methods of the store are made of: a value read
    from the world is cached, a payload is written and its value cached, a
    property is removed from the world and from the cache, the cache is
    marked as primed.  Every one is about an id under the prefix. *)
Inductive change : Database.State → Database.State → Prop :=
  | ch_load id value s :
      under id s →
      is_Some (map_get id (Database.dynamicProperties s)) →
      Database.deserialize (Database.this s) (Database.getDynamicProperty id s) =
        Database.Returns value →
      change s (Database.cache_set id value s)
  | ch_store id value payload s :
      under id s →
      Database.serialize (Database.this s) value = Database.Returns payload →
      change s (Database.cache_set id value (stored id payload s))
  | ch_remove id s :
      under id s →
      change s (Database.cache_delete id (Database.remove_property id s))
  | ch_prime s : change s (Database.prime s).

Definition evolves : Database.State → Database.State → Prop := rtc change.

Definition keeps {A} (m : Database.D A) : Prop :=
  ∀ s r s', m s = (r, s') → evolves s s'.

(** No property of the world is [undefined]. *)
Definition world_ok (s : Database.State) : Prop :=
  ∀ id v, map_get id (Database.dynamicProperties s) = Some v → v ≠ VUndefined.

(** [deserialize] undoes [serialize], and only [undefined] has the payload
    [undefined]. *)
Definition codec (db : Database.Database) : Prop :=
  ∀ v payload,
    Database.serialize db v = Database.Returns payload →
    match payload with
    | VUndefined => v = VUndefined
    | _ => Database.deserialize db payload = Database.Returns v
    end.

(** Every cached value is what a read of the world gives. *)
Definition coherent (s : Database.State) : Prop :=
  ∀ id v, cached id s = Some v → read_world id s = Database.Returns v.

(** The options are the same in both objects. *)
Definition same_options (db db' : Database.Database) : Prop :=
  ∃ c primed, db' = Database.with_cache c primed db.

(** The error a call throws, if it throws. *)
Definition error_of {A} (o : Database.Outcome A) : option Value :=
  match o with
  | Database.Throws err => Some err
  | Database.Returns _ => None
  end.

Definition thrown (H : Database.Host) (c : Database.Call) (s : Database.State) : option Value :=
  match c with
  | Database.CallGet k g => error_of (Database.get k g s).1
  | Database.CallSet k v g => error_of (Database.set H k v g s).1
  | Database.CallDelete k g => error_of (Database.delete H k g s).1
  | Database.CallHas k g => error_of (Database.has k g s).1
  | Database.CallUpdate k f g => error_of (Database.update H k f g s).1
  | Database.CallEntries g => error_of (Database.entries g s).1
  | Database.CallClear g => error_of (Database.clear H g s).1
  | Database.CallRefreshCache g => error_of (Database.refreshCache g s).1
  | Database.CallListIds g => error_of (Database.listIds g s).1
  end.

(** The calls on one key, and the calls that only read. *)
Definition keyed (c : Database.Call) : bool :=
  match c with
  | Database.CallGet _ _ | Database.CallSet _ _ _
  | Database.CallDelete _ _ | Database.CallHas _ _ => true
  | _ => false
  end.

Definition reading (c : Database.Call) : bool :=
  match c with
  | Database.CallGet _ _ | Database.CallHas _ _ | Database.CallEntries _
  | Database.CallRefreshCache _ | Database.CallListIds _ => true
  | _ => false
  end.

(** The database "my:plots", whose name contains the separator. *)
Definition my_plots : Database.Database :=
  Database.mkDatabase "my:plots" ":" true true None
    Database.Returns Database.Returns (Some []) true.

(** ** Vocabulary of the lifecycle *)

(** The stages the bus has passed. *)
Definition flags (s : Bus) : bool * bool * bool * bool * list string :=
  (initialized s, worldReady s, bootstrapCompleted s, runtimeCompleted s, sourcesBound s).

(** The stages are in order: the runtime phase is completed only once the
    world is ready, the bootstrap phase is completed exactly when the bus
    is initialized, and no event source of the host is bound before the
    world is ready.  With [w] set the world is ready. *)
Definition staged (w : bool) (s : Bus) : Prop :=
  (runtimeCompleted s = true → worldReady s = true) ∧
  bootstrapCompleted s = initialized s ∧
  (worldReady s = false → sourcesBound s = []) ∧
  (w = true → worldReady s = true).

(** [m] keeps the invariant [I], however it completes. *)
Definition holds (I : Bus → Prop) {A} (m : M A) : Prop :=
  ∀ s r s', I s → m s = (r, s') → I s'.

(** Every entry of the queue is older than the next identity. *)
Definition queue_ok (s : Bus) : Prop :=
  Forall (λ en, ident en < entries s) (moduleQueue s).

(** ** Vocabulary of the delivery loops *)

(** One call a delivery loop has made: the listener, the arguments it was
    called with, how the call completed, and the events the call left in the
    trace after the record of the call itself. *)
Record Delivery := mkDelivery {
  d_fn : Fn;
  d_args : list Value;
  d_result : Res Value;
  d_events : list Event
}.

(** What [emit] does when a call has completed: a thrown error is logged. *)
Definition caught (e : string) (r : Res Value) (s : Bus) : Bus :=
  match r with
  | Throw err => log (ErrorHandlerFailure e err) s
  | _ => s
  end.

(** [emitAsync] makes a promise of the completion and logs nothing. *)
Definition kept (r : Res Value) (s : Bus) : Bus := s.

(** What one delivery of [emit(e, _)] leaves in the trace. *)
Definition delivery_events (e : string) (d : Delivery) : list Event :=
  Invoked (d_fn d) (d_args d) :: d_events d ++
  match d_result d with
  | Throw err => [ErrorHandlerFailure e err]
  | _ => []
  end.

(** What one delivery of [emitAsync] leaves in the trace. *)
Definition launch_events (d : Delivery) : list Event :=
  Invoked (d_fn d) (d_args d) :: d_events d.

(** [delivered W fuel sp wc e p after ds s s']: from [s], a loop over the
    listeners of [ds], with the [Set] objects [sp] and [wc], has called them
    one after the other and ended in [s'].  Each call is made in the state
    the calls before it have left, with the arguments that
    [shouldSendEventName] chooses in that state; it returns or throws;
    [after] is what the loop does with that completion. *)
Inductive delivered (W : World) (fuel : nat) (sp wc : option nat) (e : string) (p : Value)
    (after : Res Value → Bus → Bus) : list Delivery → Bus → Bus → Prop :=
  | delivered_nil s : delivered W fuel sp wc e p after [] s s
  | delivered_cons d ds s s1 s' :
      d_args d = call_args sp wc e p s (d_fn d) →
      invoke W fuel (d_fn d) (d_args d) s = (d_result d, s1) →
      d_result d ≠ OutOfFuel →
      trace s1 = trace s ++ Invoked (d_fn d) (d_args d) :: d_events d →
      delivered W fuel sp wc e p after ds (after (d_result d) s1) s' →
      delivered W fuel sp wc e p after (d :: ds) s s'.

(** The deliveries of [emit(e, p)] and of [emitAsync(e, p)] from [s]: the
    [Set] objects are those registered for [e] and for the wildcard in [s]. *)
Definition emitted (W : World) (fuel : nat) (e : string) (p : Value)
    (ds : list Delivery) (s s' : Bus) : Prop :=
  delivered W fuel (map_get e (listenersMap s)) (map_get BUS_ANY (listenersMap s)) e p
    (caught e) ds s s'.

Definition launched (W : World) (fuel : nat) (e : string) (p : Value)
    (ds : list Delivery) (s s' : Bus) : Prop :=
  delivered W fuel (map_get e (listenersMap s)) (map_get BUS_ANY (listenersMap s)) e p
    kept ds s s'.

(** The loop of [emit]. *)
Definition deliver (invoke : Fn → list Value → M Value) (sp wc : option nat)
    (e : string) (p : Value) (fns : list Fn) : M unit :=
  for_each fns (λ fn,
    try_catch (call_listener invoke sp wc e p fn ;; ret tt)
              (λ error, modify (log (ErrorHandlerFailure e error)))).

(** The order of delivery the spec gives: the listeners of [e], then the
    listeners of the wildcard that are not listeners of [e]. *)
Definition delivery_order (e : string) (s : Bus) : list Fn :=
  listeners_of e s ++ filter (λ f, f ∉ listeners_of e s) (listeners_of BUS_ANY s).

(** Function 0 emits "x" again; function 1 throws; function 2 calls the bus
    and assigns a variable; function 3 returns a promise that rejects;
    function 4 returns 4; the others return nothing. *)
Definition lively_world : World :=
  mkWorld (λ id _ _, match id with
                   | 0 => [CEmit (VStr "x") (VNum 99)]
                   | 1 => [CThrow (VError "Error" "boom")]
                   | 2 => [COn (VStr "z") (VFn (FUser 5)); CStore 0 (VNum 1)]
                   | 3 => [CReturn (VPromise Rejected (VError "Error" "rejected"))]
                   | 4 => [CReturn (VNum 4)]
                   | _ => []
                   end)
    (λ _, None) (λ s _, inl s) (λ _, true) true.

(** Function 1 emits "x" again, with 99, the first time it runs (it notes
    that in its variable 0); function 2 calls function 0 itself; the others
    return nothing. *)
Definition echoing_world : World :=
  mkWorld (λ id _ mem, match id with
                   | 1 => match mem 0 with
                          | VUndefined => [CStore 0 (VNum 1); CEmit (VStr "x") (VNum 99)]
                          | _ => []
                          end
                   | 2 => [CCall (FUser 0) [VStr "direct"]]
                   | _ => []
                   end)
    (λ _, None) (λ s _, inl s) (λ _, true) true.

(** ** Vocabulary of [once] *)

(** What the wrapper of [once] hands to its handler: [(payload, invokedEvent)]. *)
Definition handed (args : list Value) : list Value := [arg 0 args; arg 1 args].

(** [c] neither registers [L] nor calls it directly. *)
Fixpoint avoids (L : Fn) (c : Cmd) : bool :=
  match c with
  | COn _ h | COnce _ h =>
      match h with VFn f => bool_decide (f ≠ L) | _ => true end
  | CCall f _ => bool_decide (f ≠ L)
  | CTry c' => avoids L c'
  | _ => true
  end.

(** No function of the program registers [L] or calls it directly: [L] is
    called through its wrapper only. *)
Definition reserved (W : World) (L : Fn) : Prop :=
  ∀ id args mem, forallb (avoids L) (code W id args mem) = true.

(** [L] is a listener of no event, and no wrapper of [once] holds it. *)
Definition unregistered (L : Fn) (s : Bus) : bool :=
  forallb (λ er : string * nat, negb (set_has L (set_at er.2 s))) (listenersMap s) &&
  forallb (λ c, match c with
                | OnceWrapper _ h _ => bool_decide (h ≠ L)
                | _ => true
                end) (closures s).

(** The listeners of [l] before [w]. *)
Fixpoint before (w : Fn) (l : list Fn) : list Fn :=
  match l with
  | [] => []
  | f :: l' => if decide (f = w) then [] else f :: before w l'
  end.

(** [m] keeps the invariant [I] when it completes: it returns or throws. *)
Definition upholds (I : Bus → Prop) {A} (m : M A) : Prop :=
  ∀ s r s', I s → m s = (r, s') → r ≠ OutOfFuel → I s'.

(** The registry part of the invariant of [once(e0, L)] with its wrapper at
    [a]: [L] is a listener of no event and the wrapper at [a] is the only one
    that holds it. *)
Definition once_guard (L : Fn) (a : nat) (n0 : nat) (s : Bus) : Prop :=
  wf s ∧ n0 ≤ length (trace s) ∧
  (∀ e', L ∉ listeners_of e' s) ∧
  (∀ b e' c, closures s !! b = Some (OnceWrapper e' L c) → b = a).

(** The invariant of [once(e0, L)], over the events after the first [n0]:
    until the wrapper has set its latch neither it nor [L] has been called;
    from then on [L] has been called once, with what the first call of the
    wrapper was given. *)
Definition once_inv (L : Fn) (a : nat) (e0 : string) (n0 : nat) (s : Bus) : Prop :=
  once_guard L a n0 s ∧
  ∃ c, closures s !! a = Some (OnceWrapper e0 L c) ∧
       if c : bool
       then ∃ args rest, calls_to (FClosure a) (since n0 s) = args :: rest ∧
                         calls_to L (since n0 s) = [handed args]
       else calls_to (FClosure a) (since n0 s) = [] ∧ calls_to L (since n0 s) = [].

(** The wrapper has been called with [args] for the first time and has set
    its latch; [L] is about to be called. *)
Definition once_pending (L : Fn) (a : nat) (e0 : string) (n0 : nat) (args : list Value)
    (s : Bus) : Prop :=
  once_guard L a n0 s ∧
  closures s !! a = Some (OnceWrapper e0 L true) ∧
  calls_to (FClosure a) (since n0 s) = [args] ∧ calls_to L (since n0 s) = [].

(** ** Vocabulary of the loader *)

(** The phase [options] asks for: by its name ("before" and "after" are the
    legacy names) or, when [phase] is none of the four names, by the legacy
    flag [beforeLoad]. *)
Definition requests (P : Phase) (o : Options) : Prop :=
  let named n := opt_phase o = VStr n in
  let unnamed :=
    ¬ named "bootstrap" ∧ ¬ named "before" ∧ ¬ named "runtime" ∧ ¬ named "after" in
  match P with
  | Bootstrap => named "bootstrap" ∨ named "before" ∨
                 (unnamed ∧ truthy (opt_beforeLoad o) = true)
  | Runtime => named "runtime" ∨ named "after" ∨
               (unnamed ∧ truthy (opt_beforeLoad o) = false)
  end.

(** * Properties *)

(** ** Runs are sequences of the state changes *)

Lemma pres_ret {A} (a : A) : pres (ret a).
Proof. intros s r s' [= _ <-]. apply rtc_refl. Qed.

Lemma pres_throw {A} err : pres (@throw A err).
Proof. intros s r s' [= _ <-]. apply rtc_refl. Qed.

Lemma pres_out_of_fuel {A} : pres (@out_of_fuel A).
Proof. intros s r s' [= _ <-]. apply rtc_refl. Qed.

Lemma pres_gets {A} (f : Bus → A) : pres (gets f).
Proof. intros s r s' [= _ <-]. apply rtc_refl. Qed.

Lemma pres_modify f : (∀ s, reach s (f s)) → pres (modify f).
Proof. intros H s r s' [= _ <-]. apply H. Qed.

Lemma pres_bind {A B} (m : M A) (k : A → M B) :
  pres m → (∀ a, pres (k a)) → pres (bind m k).
Proof.
  intros Hm Hk s r s'. unfold bind.
  destruct (m s) as [[a|err|] s1] eqn:E; intros H.
  - eapply rtc_trans; [eapply Hm, E | eapply Hk, H].
  - injection H as _ <-. eapply Hm, E.
  - injection H as _ <-. eapply Hm, E.
Qed.

Lemma pres_try_catch {A} (m : M A) h :
  pres m → (∀ err, pres (h err)) → pres (try_catch m h).
Proof.
  intros Hm Hh s r s'. unfold try_catch.
  destruct (m s) as [[a|err|] s1] eqn:E; intros H.
  - injection H as _ <-. eapply Hm, E.
  - eapply rtc_trans; [eapply Hm, E | eapply Hh, H].
  - injection H as _ <-. eapply Hm, E.
Qed.

Lemma pres_try_finally {A} (m : M A) f :
  pres m → pres f → pres (try_finally m f).
Proof.
  intros Hm Hf s r s'. unfold try_finally.
  destruct (m s) as [[a|err|] s1] eqn:E.
  1,2: destruct (f s1) as [[[]|err'|] s2] eqn:E'; intros [= _ <-];
       (eapply rtc_trans; [eapply Hm, E | eapply Hf, E']).
  intros [= _ <-]. eapply Hm, E.
Qed.

Lemma pres_when b m : pres m → pres (when b m).
Proof. destruct b; [done | intros; apply pres_ret]. Qed.

Lemma pres_for_each {A} (l : list A) body :
  (∀ x, pres (body x)) → pres (for_each l body).
Proof.
  intros H. induction l as [|x l IH]; simpl; [apply pres_ret|].
  apply pres_bind; auto.
Qed.

Lemma pres_map_M {A B} (l : list A) (f : A → M B) :
  (∀ x, pres (f x)) → pres (map_M l f).
Proof.
  intros H. induction l as [|x l IH]; simpl; [apply pres_ret|].
  apply pres_bind; [auto|]. intros y. apply pres_bind; [auto|]. intros; apply pres_ret.
Qed.

Lemma reach_step s s' : astep s s' → reach s s'.
Proof. apply rtc_once. Qed.

Lemma pres_step f : (∀ s, astep s (f s)) → pres (modify f).
Proof. intros H. apply pres_modify. intros; apply rtc_once, H. Qed.

Create HintDb pres discriminated.
#[local] Hint Resolve pres_ret pres_throw pres_out_of_fuel pres_gets pres_when
  pres_for_each pres_map_M  : pres.
#[local] Hint Extern 1 (pres (bind _ _)) => apply pres_bind; [|intros] : pres.
#[local] Hint Extern 1 (pres (try_catch _ _)) => apply pres_try_catch; [|intros] : pres.
#[local] Hint Extern 1 (pres (try_finally _ _)) => apply pres_try_finally : pres.
#[local] Hint Extern 1 (pres (modify _)) => apply pres_step; intros; constructor; done : pres.
#[local] Hint Extern 2 (pres (match ?x with _ => _ end)) => destruct x : pres.

Lemma pres_validateEventName v : pres (validateEventName v).
Proof. destruct v; simpl; auto with pres. Qed.
Lemma pres_validateHandler v : pres (validateHandler v).
Proof. destruct v; simpl; auto with pres. Qed.
#[local] Hint Resolve pres_validateEventName pres_validateHandler : pres.

Lemma pres_new_closure c : pres (new_closure c).
Proof. unfold new_closure. auto 10 with pres. Qed.
#[local] Hint Resolve pres_new_closure : pres.


Ltac run_monad :=
  cbv [bind gets modify ret throw when new_closure validateEventName validateHandler].

Lemma on_run e h s :
  on (VStr e) (VFn h) s =
  (Ret (VFn (FClosure (length (closures (warn_leak e (listen_ref e s) (listen e h s)))))),
   alloc (Unsubscribe e h) (warn_leak e (listen_ref e s) (listen e h s))).
Proof.
  unfold on, listen, listen_ref, warn_leak. run_monad.
  destruct (map_get e (listenersMap s)); run_monad;
    destruct (bool_decide _); reflexivity.
Qed.

Lemma pres_on e h : pres (on e h).
Proof.
  destruct e; try (intros s r s' [= _ <-]; apply rtc_refl).
  destruct h; try (intros s' r s'' [= _ <-]; apply rtc_refl).
  intros st r st'. rewrite on_run. intros [= _ <-].
  eapply rtc_l; [apply a_listen|]. eapply rtc_r; [|apply a_alloc].
  unfold warn_leak. destruct (bool_decide _); [apply rtc_once, a_log; done | apply rtc_refl].
Qed.
#[local] Hint Resolve pres_on : pres.

Lemma pres_once e h : pres (once e h).
Proof. unfold once. auto 10 with pres. Qed.

Lemma off_run_fn e r h s :
  map_get e (listenersMap s) = Some r →
  off (VStr e) (VFn h) s = (Ret VUndefined, unlisten e r h s).
Proof.
  intros E. unfold off, unlisten. run_monad. rewrite E.
  by destruct (bool_decide _).
Qed.

Lemma pres_off e h : pres (off e h).
Proof.
  intros s r s'.
  destruct e as [| | | |e| | | |];
    try (intros [= _ <-]; first [apply rtc_refl | apply rtc_once; constructor]).
  destruct (map_get e (listenersMap s)) as [x|] eqn:E.
  - destruct h; try (rewrite (off_run_fn _ _ _ _ E));
      unfold off; run_monad; rewrite ?E; intros [= _ <-];
      first [apply rtc_refl | apply rtc_once; by constructor].
  - unfold off; run_monad; rewrite E. intros [= _ <-]; apply rtc_refl.
Qed.

Lemma pres_clearListeners e : pres (clearListeners e).
Proof. apply pres_off. Qed.
#[local] Hint Resolve pres_once pres_off pres_clearListeners : pres.

Section WithWorld.
Context (W : World).

Lemma pres_importModule spec : pres (importModule W spec).
Proof.
  intros s r s'. unfold importModule. run_monad.
  case_bool_decide as Hin; [intros [= _ <-]; apply rtc_refl|].
  destruct (importOutcome W spec); intros [= _ <-].
  - eapply rtc_l; [by apply (a_load spec)|]. apply rtc_once. by constructor.
  - apply rtc_once. by apply (a_load spec).
Qed.
Hint Resolve pres_importModule : pres.

Lemma pres_importPhase ph : pres (importPhase W ph).
Proof.
  unfold importPhase. apply pres_bind; [auto with pres|]. intros pending.
  apply pres_bind; [auto with pres|]. intros _.
  destruct pending; [auto with pres|].
  apply pres_bind; [auto with pres|]. intros tasks.
  destruct (allSettled tasks); auto with pres.
Qed.
Hint Resolve pres_importPhase : pres.

Lemma pres_resolveModuleSpecifier sp a : pres (resolveModuleSpecifier W sp a).
Proof.
  unfold resolveModuleSpecifier. 
  repeat match goal with |- pres (if ?b then _ else _) => destruct b 
                       | |- pres (match ?b with _ => _ end) => destruct b end; auto with pres.
Qed.

Lemma pres_validateModuleSpecifier v : pres (validateModuleSpecifier v).
Proof. destruct v; simpl; auto with pres. Qed.
Hint Resolve pres_resolveModuleSpecifier pres_validateModuleSpecifier : pres.

Lemma pres_registerModule spec o : pres (registerModule W spec o).
Proof.
  unfold registerModule.
  repeat (apply pres_bind; [auto with pres|]; intros).
  auto with pres.
Qed.

Lemma pres_setupWatchdogGuard : pres (setupWatchdogGuard W).
Proof. unfold setupWatchdogGuard. apply pres_when, pres_step. intros; apply a_life. Qed.

Lemma pres_attachMinecraftEvents : pres (attachMinecraftEvents W).
Proof.
  unfold attachMinecraftEvents. apply pres_for_each. intros.
  apply pres_when, pres_step. intros; apply a_life.
Qed.
Hint Resolve pres_registerModule pres_setupWatchdogGuard pres_attachMinecraftEvents : pres.

Section Open.
Variable invoke : Fn → list Value → M Value.
Hypothesis pres_invoke : ∀ f args, pres (invoke f args).
Hint Resolve pres_invoke : pres.

Lemma pres_call_listener sp wc e p fn : pres (call_listener invoke sp wc e p fn).
Proof. unfold call_listener. apply pres_bind; [auto with pres|]. intros []; auto with pres. Qed.
Hint Resolve pres_call_listener : pres.

Lemma pres_emit e p : pres (emit invoke e p).
Proof.
  unfold emit. apply pres_bind; [auto with pres|]. intros e'.
  apply pres_bind; [auto with pres|]. intros sp.
  apply pres_bind; [auto with pres|]. intros wc.
  assert (pres (handlers <- gets (delivery sp wc);;
    for_each handlers (λ fn, try_catch (call_listener invoke sp wc e' p fn;; ret tt)
      (λ error, modify (log (ErrorHandlerFailure e' error))));; ret VUndefined)).
  { auto 10 with pres. }
  destruct sp, wc; auto with pres.
Qed.

Lemma pres_emitAsync e p : pres (emitAsync invoke e p).
Proof.
  unfold emitAsync. destruct e; auto with pres.
  apply pres_bind; [auto with pres|]. intros sp.
  apply pres_bind; [auto with pres|]. intros wc.
  assert (pres (handlers <- gets (delivery sp wc);;
                tasks <- map_M handlers (launch invoke sp wc s p);; ret (allSettled tasks))).
  { apply pres_bind; [auto with pres|]. intros hs.
    apply pres_bind; [|auto with pres]. apply pres_map_M. intros fn.
    unfold launch. auto 10 with pres. }
  destruct sp, wc; auto with pres.
Qed.
Hint Resolve pres_emit pres_emitAsync : pres.

Lemma pres_onWorldLoad ev : pres (onWorldLoad W invoke ev).
Proof.
  unfold onWorldLoad. apply pres_bind; [auto with pres|]. intros [|]; [auto with pres|].
  apply pres_bind; [apply pres_step; intros; apply a_life|]. intros _.
  auto 10 with pres.
Qed.

Lemma pres_onWatchdog shutdown : pres (onWatchdog invoke shutdown).
Proof. unfold onWatchdog. auto 10 with pres. Qed.

Lemma pres_initialize : pres (initialize W).
Proof.
  unfold initialize. apply pres_bind; [auto with pres|]. intros [|]; [auto with pres|].
  apply pres_bind; [apply pres_step; intros; apply a_life|]. intros _.
  apply pres_bind; [auto with pres|]. intros _.
  apply pres_bind; [auto with pres|]. intros _.
  apply pres_bind; [apply pres_step; intros; apply a_life|]. intros _.
  auto with pres.
Qed.
Hint Resolve pres_initialize : pres.

Lemma pres_exec_cmd c : pres (exec_cmd W invoke c).
Proof. induction c; simpl; auto 10 with pres. Qed.
Hint Resolve pres_exec_cmd : pres.

Lemma pres_run body : pres (run W invoke body).
Proof.
  induction body as [|c rest IH]; simpl; [auto with pres|].
  apply pres_bind; [auto with pres|]. intros [v|]; auto with pres.
Qed.
Hint Resolve pres_run : pres.

Lemma pres_fn_body f args : pres (fn_body W invoke f args).
Proof.
  destruct f as [id|addr]; unfold fn_body; [auto with pres|].
  apply pres_bind; [auto with pres|].
  intros [[e h [|]|e h|id]|]; unfold wrapper_body; auto 10 with pres.
Qed.
Hint Resolve pres_fn_body : pres.

Lemma pres_apply_fn f args : pres (apply_fn W invoke f args).
Proof. unfold apply_fn. auto with pres. Qed.
End Open.

Lemma pres_invoke fuel f args : pres (invoke W fuel f args).
Proof.
  revert f args. induction fuel as [|n IH]; intros; simpl; [apply pres_out_of_fuel|].
  by apply pres_apply_fn.
Qed.

Lemma reach_step_op fuel op s : reach s (step W fuel op s).
Proof.
  destruct op as [c|ev|sd|name p]; simpl.
  - eapply (pres_exec_cmd _ (pres_invoke fuel)), surjective_pairing.
  - destruct (worldLoadHooked s); [|apply rtc_refl].
    eapply (pres_onWorldLoad _ (pres_invoke fuel)), surjective_pairing.
  - destruct (watchdogHooked s); [|apply rtc_refl].
    eapply (pres_onWatchdog _ (pres_invoke fuel)), surjective_pairing.
  - destruct (bool_decide _); [|apply rtc_refl].
    eapply (pres_emit _ (pres_invoke fuel)), surjective_pairing.
Qed.

Lemma reach_run_ops fuel ops s : reach s (run_ops W fuel ops s).
Proof.
  revert s. induction ops as [|op ops IH]; intros s; simpl; [apply rtc_refl|].
  eapply rtc_trans; [apply reach_step_op | apply IH].
Qed.
End WithWorld.

Lemma map_get_elem {V} e (r : V) (m : list (string * V)) : map_get e m = Some r → (e, r) ∈ m.
Proof.
  induction m as [|[k v] m IH]; simpl; [done|].
  destruct (String.eqb_spec e k) as [->|]; [intros [= ->]; left | right; auto].
Qed.

Lemma map_get_none {V} e (m : list (string * V)) : map_get e m = None → e ∉ m.*1.
Proof.
  induction m as [|[k v] m IH]; simpl; [intros _; apply not_elem_of_nil|].
  destruct (String.eqb_spec e k) as [->|]; [done|].
  intros H. apply not_elem_of_cons. auto.
Qed.

Lemma map_get_is_some {V} e (m : list (string * V)) : e ∈ m.*1 → is_Some (map_get e m).
Proof.
  destruct (map_get e m) eqn:E; [eauto|]. intros H. by apply map_get_none in E.
Qed.

Lemma map_set_present {V} e (r : V) (m : list (string * V)) : map_get e m = Some r → map_set e r m = m.
Proof.
  induction m as [|[k v] m IH]; simpl; [done|].
  destruct (String.eqb_spec e k) as [->|]; [by intros [= ->]|].
  intros H. by rewrite IH.
Qed.

Lemma map_set_absent {V} e (r : V) (m : list (string * V)) : map_get e m = None → map_set e r m = m ++ [(e, r)].
Proof.
  induction m as [|[k v] m IH]; simpl; [done|].
  destruct (String.eqb_spec e k) as [->|]; [done|].
  intros H. by rewrite IH.
Qed.

Lemma map_get_set {V} e (r : V) (m : list (string * V)) : map_get e (map_set e r m) = Some r.
Proof.
  induction m as [|[k v] m IH]; simpl.
  - by rewrite String.eqb_refl.
  - destruct (String.eqb_spec e k) as [->|Hne]; simpl.
    + by rewrite String.eqb_refl.
    + destruct (String.eqb_spec e k); [done|]. exact IH.
Qed.

Lemma map_delete_sublist {V} e (m : list (string * V)) : map_delete e m `sublist_of` m.
Proof.
  induction m as [|[k v] m IH]; simpl; [done|].
  destruct (String.eqb e k); by constructor.
Qed.

Lemma map_delete_key {V} e e' (r : V) (m : list (string * V)) : (e', r) ∈ map_delete e m → e' ≠ e.
Proof.
  induction m as [|[k v] m IH]; simpl; [by intros ?%elem_of_nil|].
  destruct (String.eqb_spec e k) as [->|Hne]; [done|].
  intros [[= -> ->]|H]%elem_of_cons; [done | auto].
Qed.

Lemma set_add_NoDup h l : NoDup l → NoDup (set_add h l).
Proof.
  unfold set_add. destruct (decide (h ∈ l)); [done|]. intros H.
  apply NoDup_app. split_and!; [done| |apply NoDup_singleton].
  intros x Hx ->%list_elem_of_singleton. done.
Qed.

Lemma set_add_nonempty h l : set_add h l ≠ [].
Proof.
  unfold set_add. destruct (decide (h ∈ l)) as [Hin|].
  - intros ->. by apply elem_of_nil in Hin.
  - by destruct l.
Qed.

Lemma set_delete_NoDup h l : NoDup l → NoDup (set_delete h l).
Proof. apply NoDup_filter. Qed.

Lemma refs_unique (m : list (string * nat)) a b r :
  NoDup m.*2 → (a, r) ∈ m → (b, r) ∈ m → a = b.
Proof.
  induction m as [|[k v] m IH]; simpl; [by intros _ ?%elem_of_nil|].
  intros [Hn Hd]%NoDup_cons [[= -> ->]|Ha]%elem_of_cons [[= ->]|Hb]%elem_of_cons; auto.
  - destruct Hn. apply list_elem_of_fmap. by exists (b, v).
  - subst. destruct Hn. apply list_elem_of_fmap. by exists (a, v).
Qed.

Lemma wf_fresh : wf fresh.
Proof. split_and!; simpl; [constructor | by intros ?? ?%elem_of_nil | constructor]. Qed.

Lemma wf_reg_add m st e r h :
  wf_reg m st → map_get e m = Some r →
  wf_reg (map_set e r m) (alter (set_add h) r st).
Proof.
  intros (Hrefs & Hlive & Hsets) E. rewrite (map_set_present _ _ _ E).
  split_and!; [done| |apply Forall_alter; [done|intros; by apply set_add_NoDup]].
  intros e' r' Hin. destruct (Hlive _ _ Hin) as (l & Hl & Hne).
  destruct (decide (r = r')) as [->|Hr].
  - rewrite list_lookup_alter_eq, Hl. eexists; split; [done|]. apply set_add_nonempty.
  - rewrite list_lookup_alter_ne by done. eauto.
Qed.

Lemma wf_reg_new m st e h :
  wf_reg m st → map_get e m = None →
  wf_reg (map_set e (length st) m) (alter (set_add h) (length st) (st ++ [[]])).
Proof.
  intros (Hrefs & Hlive & Hsets) E. rewrite (map_set_absent _ _ _ E).
  assert (Hlt : ∀ e' r', (e', r') ∈ m → r' < length st).
  { intros e' r' (l & Hl & _)%Hlive. by eapply lookup_lt_Some. }
  split_and!.
  - rewrite fmap_app. apply NoDup_app. split_and!; [done| |apply NoDup_singleton].
    intros x ([e' r'] & -> & Hin)%list_elem_of_fmap Hx%list_elem_of_singleton.
    apply Hlt in Hin. simpl in Hx. lia.
  - intros e' r' [Hin|[= -> ->]%list_elem_of_singleton]%elem_of_app.
    + pose proof (Hlt _ _ Hin). destruct (Hlive _ _ Hin) as (l & Hl & Hne).
      rewrite list_lookup_alter_ne by lia. rewrite lookup_app_l by done. eauto.
    + rewrite list_lookup_alter_eq. rewrite lookup_app_r by done.
      rewrite Nat.sub_diag. simpl. eexists; split; [done|]. apply set_add_nonempty.
  - apply Forall_alter; [|intros; by apply set_add_NoDup].
    apply Forall_app. split; [done|]. repeat constructor.
Qed.

Lemma wf_reg_sub m m' st :
  wf_reg m st → m' `sublist_of` m → wf_reg m' st.
Proof.
  intros (Hrefs & Hlive & Hsets) Hsub. split_and!; [| |done].
  - eapply sublist_NoDup; [done|]. by apply fmap_sublist.
  - intros e r Hin. eapply Hlive, elem_of_sublist; eauto.
Qed.

Lemma wf_reg_delete m st e r h :
  wf_reg m st → map_get e m = Some r →
  wf_reg (if bool_decide (length (default [] (alter (set_delete h) r st !! r)) = 0)
          then map_delete e m else m) (alter (set_delete h) r st).
Proof.
  intros (Hrefs & Hlive & Hsets) E. set (st' := alter (set_delete h) r st).
  assert (Hsets' : Forall NoDup st').
  { apply Forall_alter; [done|intros; by apply set_delete_NoDup]. }
  apply map_get_elem in E.
  assert (Hother : ∀ e' r', (e', r') ∈ m → e' ≠ e → ∃ l, st' !! r' = Some l ∧ l ≠ []).
  { intros e' r' Hin Hne. destruct (Hlive _ _ Hin) as (l & Hl & Hnil).
    unfold st'. rewrite list_lookup_alter_ne; [eauto|].
    intros <-. apply Hne. by eapply refs_unique. }
  case_bool_decide as Hlen; split_and!; try done.
  - eapply sublist_NoDup; [done|]. apply fmap_sublist, map_delete_sublist.
  - intros e' r' Hin. apply (Hother e').
    + eapply elem_of_sublist; [done|]. apply map_delete_sublist.
    + by eapply map_delete_key.
  - intros e' r' Hin. destruct (decide (r' = r)) as [->|Hne].
    + destruct (st' !! r) as [l|] eqn:El; simpl in Hlen.
      * exists l. split; [done|]. by destruct l.
      * destruct (Hlive _ _ E) as (l & Hl & _). unfold st' in El.
        rewrite list_lookup_alter_eq, Hl in El. done.
    + destruct (Hlive _ _ Hin) as (l & Hl & Hnil).
      unfold st'. rewrite list_lookup_alter_ne; eauto.
Qed.

Lemma wf_astep s s' : astep s s' → wf s → wf s'.
Proof.
  destruct 1 as [ev s _|e h s|e r h s E|e s|s|c s|addr s|sp ph s|id s|sp s _|ph s|i w wd wl b s|cell v s];
    intros Hwf; try exact Hwf.
  - unfold listen. destruct (map_get e (listenersMap s)) as [r|] eqn:E.
    + by apply wf_reg_add.
    + by apply wf_reg_new.
  - pose proof (wf_reg_delete _ _ _ _ h Hwf E) as H. revert H.
    unfold unlisten, wf, set_at. cbn [sets delete_from with_registry].
    by destruct (bool_decide _).
  - eapply wf_reg_sub; [exact Hwf|]. apply map_delete_sublist.
  - destruct Hwf as (_ & _ & ?). split_and!; [constructor|by intros ?? ?%elem_of_nil|done].
  - by destruct ph.
Qed.

Lemma wf_reach s s' : reach s s' → wf s → wf s'.
Proof. induction 1; eauto using wf_astep. Qed.

(** trace only grows *)
Lemma trace_astep s s' : astep s s' → trace s `prefix_of` trace s'.
Proof.
  destruct 1; try done; try by apply prefix_app_r.
  - unfold listen. by destruct (map_get _ _).
  - unfold unlisten. by destruct (bool_decide _).
  - by destruct ph.
Qed.

Lemma trace_reach s s' : reach s s' → trace s `prefix_of` trace s'.
Proof. induction 1; [done|]. etrans; [by apply trace_astep|done]. Qed.

Lemma fired_astep a s s' : astep s s' → fired a s → fired a s'.
Proof.
  destruct 1; try done.
  - unfold listen. by destruct (map_get _ _).
  - unfold unlisten. by destruct (bool_decide _).
  - intros (e & h & H). exists e, h. simpl. by apply lookup_app_l_Some.
  - intros (e & h & H). exists e, h. simpl.
    destruct (decide (addr = a)) as [->|].
    + by rewrite list_lookup_alter_eq, H.
    + by rewrite list_lookup_alter_ne.
  - by destruct ph.
Qed.

Lemma fired_reach a s s' : reach s s' → fired a s → fired a s'.
Proof. induction 1; eauto using fired_astep. Qed.

Lemma imports_of_log ev s :
  is_import ev = false → imports_of (trace (log ev s)) = imports_of (trace s).
Proof.
  intros H. unfold imports_of. simpl. rewrite omap_app. simpl.
  destruct ev; try done; by rewrite app_nil_r.
Qed.

Lemma loads_astep s s' : astep s s' → loads_ok s → loads_ok s'.
Proof.
  destruct 1 as [ev s Hev|e h s|e r h s E|e s|s|c s|addr s|sp ph s|id s|sp s Hsp|ph s|i w wd wl b s|cell v s];
    intros [Hnd Hsub]; try (split; assumption).
  - split; rewrite imports_of_log by done; done.
  - unfold listen. by destruct (map_get _ _).
  - unfold unlisten. by destruct (bool_decide _).
  - unfold load, loads_ok, imports_of. simpl. rewrite omap_app. simpl.
    unfold add_imported. simpl. rewrite decide_False by done. split.
    + apply NoDup_app. split_and!; [done| |apply NoDup_singleton].
      intros x Hx ->%list_elem_of_singleton. by apply Hsp, Hsub.
    + intros x [Hx| ->%list_elem_of_singleton]%elem_of_app; apply elem_of_app; auto.
      right. by apply list_elem_of_singleton.
  - by destruct ph.
Qed.

Lemma loads_reach s s' : reach s s' → loads_ok s → loads_ok s'.
Proof. induction 1; eauto using loads_astep. Qed.

(** ** [off] and its arguments *)

(** The validators test [typeof]: a value passes when it is a string,
    respectively a function. *)
Lemma typeof_string v : typeof v = "string" ↔ ∃ e, v = VStr e.
Proof. split; [destruct v; try done; eauto | by intros [e ->]]. Qed.

Lemma typeof_function v : typeof v = "function" ↔ ∃ f, v = VFn f.
Proof. split; [destruct v; try done; eauto | by intros [f ->]]. Qed.

Lemma validateEventName_throws v s :
  typeof v ≠ "string" →
  validateEventName v s = (Throw (VError "TypeError" "Event name must be a string"), s).
Proof. by destruct v. Qed.

Lemma validateHandler_throws v s :
  typeof v ≠ "function" →
  validateHandler v s = (Throw (VError "TypeError" "Handler must be a function"), s).
Proof. by destruct v. Qed.

Lemma eventNames_get e s : e ∈ eventNames s ↔ is_Some (map_get e (listenersMap s)).
Proof.
  split; [apply map_get_is_some|]. intros [r Hr]. apply map_get_elem in Hr.
  apply list_elem_of_fmap. by exists (e, r).
Qed.

Lemma off_unknown_event e h s :
  e ∉ eventNames s → off (VStr e) h s = (Ret VUndefined, s).
Proof.
  intros H. unfold off. run_monad.
  destruct (map_get e (listenersMap s)) eqn:E; [|done].
  destruct H. apply eventNames_get. eauto.
Qed.

(** C10, as stated, fails: "x" has no listener, and [off("x", 42)] returns
    without a [TypeError]: the set of the event is looked up, and its absence
    ends the call, before the listener argument is validated. *)
Lemma off_not_a_function_cex :
  VNum 42 ≠ VUndefined ∧ typeof (VNum 42) ≠ "function" ∧
  off (VStr "x") (VNum 42) fresh = (Ret VUndefined, fresh).
Proof. done. Qed.

(** C10, amended: for a string event name [e] and a value [h] that is
    neither [undefined] nor a function, [off(e, h)] throws a [TypeError] and
    changes nothing when [e] has listeners, and returns without an error and
    changes nothing when [e] has none. *)
Theorem off_validates_known_event e h s :
  h ≠ VUndefined → typeof h ≠ "function" →
  (e ∈ eventNames s →
   off (VStr e) h s = (Throw (VError "TypeError" "Handler must be a function"), s)) ∧
  (e ∉ eventNames s → off (VStr e) h s = (Ret VUndefined, s)).
Proof.
  intros Hu Hf. split; [|apply off_unknown_event].
  intros [r Hr]%eventNames_get. unfold off. run_monad. rewrite Hr.
  by destruct h.
Qed.

Lemma off_validates_known_event_witness :
  let s := run_ops quiet_world 1 [Do (COn (VStr "x") (VFn (FUser 0)))] fresh in
  off (VStr "x") (VNum 42) s =
  (Throw (VError "TypeError" "Handler must be a function"), s).
Proof.
  intros s. apply (off_validates_known_event "x" (VNum 42) s).
  - done.
  - done.
  - vm_compute. by left.
Defined.

(** ** The delivery set *)
Lemma foldl_add_NoDup acc l :
  NoDup acc → NoDup (foldl (λ acc fn, set_add fn acc) acc l).
Proof. revert acc. induction l as [|x l IH]; simpl; auto using set_add_NoDup. Qed.

Lemma foldl_add_elem acc l x :
  x ∈ foldl (λ acc fn, set_add fn acc) acc l ↔ x ∈ acc ∨ x ∈ l.
Proof.
  revert acc. induction l as [|y l IH]; intros acc; simpl.
  - rewrite elem_of_nil. tauto.
  - rewrite IH, elem_of_cons. unfold set_add. destruct (decide (y ∈ acc)).
    + split; [tauto|]. intros [?|[->|?]]; auto.
    + rewrite elem_of_app, list_elem_of_singleton. tauto.
Qed.

Lemma filter_fn_ext (P Q : Fn → Prop) `{∀ x, Decision (P x)} `{∀ x, Decision (Q x)}
    (l : list Fn) :
  (∀ x, x ∈ l → P x ↔ Q x) → filter P l = filter Q l.
Proof.
  induction l as [|x l IH]; intros HPQ; [done|].
  rewrite !filter_cons. rewrite IH by (intros; apply HPQ; by right).
  assert (P x ↔ Q x) by (apply HPQ; by left).
  destruct (decide (P x)), (decide (Q x)); tauto || done.
Qed.

Lemma foldl_add_filter acc l :
  NoDup l →
  foldl (λ acc fn, set_add fn acc) acc l = acc ++ filter (λ x, x ∉ acc) l.
Proof.
  revert acc. induction l as [|x l IH]; intros acc Hnd; simpl.
  - by rewrite app_nil_r.
  - apply NoDup_cons in Hnd as [Hx Hnd]. rewrite IH by done.
    unfold set_add. rewrite filter_cons. destruct (decide (x ∈ acc)) as [Hin|Hin].
    + by rewrite decide_False by tauto.
    + rewrite decide_True by done. rewrite <- app_assoc. simpl. do 2 f_equal.
      apply filter_fn_ext. intros y Hy. rewrite elem_of_app, list_elem_of_singleton.
      split; [tauto|]. intros ? [?| ->]; done.
Qed.

Lemma set_at_NoDup r s : wf s → NoDup (set_at r s).
Proof.
  intros (_ & _ & Hsets). unfold set_at. destruct (sets s !! r) as [l|] eqn:E; simpl.
  - eapply Forall_lookup_1 in Hsets; eauto.
  - constructor.
Qed.

Lemma listeners_of_NoDup e s : wf s → NoDup (listeners_of e s).
Proof.
  intros Hwf. unfold listeners_of. destruct (map_get _ _); [by apply set_at_NoDup|constructor].
Qed.

Lemma delivery_of_NoDup e s : NoDup (delivery_of e s).
Proof. apply foldl_add_NoDup. constructor. Qed.

Lemma delivery_of_elem e s f :
  f ∈ delivery_of e s ↔ f ∈ listeners_of e s ∨ f ∈ listeners_of BUS_ANY s.
Proof.
  unfold delivery_of, delivery. rewrite foldl_add_elem, elem_of_nil, elem_of_app.
  unfold listeners_of. tauto.
Qed.

Lemma delivery_of_order e s :
  wf s →
  delivery_of e s =
  listeners_of e s ++ filter (λ f, f ∉ listeners_of e s) (listeners_of BUS_ANY s).
Proof.
  intros Hwf. unfold delivery_of, delivery. rewrite foldl_app.
  fold (listeners_of e s). fold (listeners_of BUS_ANY s).
  rewrite (foldl_add_filter [] (listeners_of e s)) by by apply listeners_of_NoDup.
  simpl. rewrite foldl_add_filter by by apply listeners_of_NoDup.
  assert (Hid : ∀ l : list Fn, filter (λ x, x ∉ []) l = l).
  { induction l as [|x l IH]; [done|].
    rewrite filter_cons_True by apply not_elem_of_nil. by f_equal. }
  by rewrite Hid.
Qed.

(** ** [on] and the order of a set *)
Lemma listeners_of_same e s s' :
  listenersMap s' = listenersMap s → sets s' = sets s →
  listeners_of e s' = listeners_of e s.
Proof. unfold listeners_of, set_at. by intros -> ->. Qed.

Lemma listeners_of_listen e h s :
  wf s → listeners_of e (listen e h s) = set_add h (listeners_of e s).
Proof.
  intros (_ & Hlive & _). unfold listeners_of, listen.
  destruct (map_get e (listenersMap s)) as [r|] eqn:E; simpl; rewrite map_get_set;
    unfold set_at; simpl; rewrite list_lookup_alter_eq.
  - destruct (Hlive e r) as (l & Hl & _); [by apply map_get_elem|]. by rewrite Hl.
  - by rewrite lookup_app_r, Nat.sub_diag.
Qed.

Lemma listeners_of_on e h s :
  wf s →
  listeners_of e (on (VStr e) (VFn h) s).2 = set_add h (listeners_of e s).
Proof.
  intros Hwf. rewrite on_run. cbn [snd]. rewrite <- listeners_of_listen by done.
  apply listeners_of_same; unfold warn_leak; by destruct (bool_decide _).
Qed.

(** ** Listeners that do not call the bus *)

Lemma with_trace_same s : with_trace (trace s ++ []) s = s.
Proof. destruct s. unfold with_trace. simpl. by rewrite app_nil_r. Qed.

Lemma bind_ret {A B} (a : A) (k : A → M B) s : bind (ret a) k s = k a s.
Proof. done. Qed.
Lemma bind_throw {A B} err (k : A → M B) s : bind (throw err) k s = (Throw err, s).
Proof. done. Qed.
Lemma bind_gets {A B} (f : Bus → A) (k : A → M B) s : bind (gets f) k s = k (f s) s.
Proof. done. Qed.
Lemma bind_modify {B} f (k : unit → M B) s : bind (modify f) k s = k tt (f s).
Proof. done. Qed.
Lemma bind_run {A B} (m : M A) (k : A → M B) s r s1 :
  m s = (r, s1) →
  bind m k s = match r with
               | Ret a => k a s1
               | Throw err => (Throw err, s1)
               | OutOfFuel => (OutOfFuel, s1)
               end.
Proof. unfold bind. by intros ->. Qed.

(** Runs a method to its first call of another method. *)
Ltac mrun :=
  repeat first
    [ rewrite bind_ret | rewrite bind_gets | rewrite bind_modify
    | rewrite bind_throw
    | progress cbn [validateEventName validateHandler] ].

Section Passive.
Context (W : World).

Lemma run_leaf invoke body s :
  forallb leaf body = true → run W invoke body s = (outcome body, s).
Proof. destruct body as [|[] rest]; done. Qed.

Lemma invoke_passive n f args s :
  passive W f →
  invoke W (S n) f args s = (result_of W f args s, log (Invoked f args) s).
Proof.
  destruct f as [id|]; [|done]. intros H. simpl. unfold apply_fn, bind, modify.
  apply run_leaf, H.
Qed.

Lemma for_each_passive n sp wc e p fns s :
  Forall (passive W) fns →
  for_each fns (λ fn,
    try_catch (call_listener (invoke W (S n)) sp wc e p fn ;; ret tt)
              (λ error, modify (log (ErrorHandlerFailure e error)))) s =
  (Ret tt, with_trace (trace s ++ flat_map (call_events W sp wc e p s) fns) s).
Proof.
  intros Hp. revert s. induction Hp as [|fn fns Hfn _ IH]; intros s.
  - simpl. unfold ret. by rewrite with_trace_same.
  - cbn [for_each flat_map]. unfold bind at 1. unfold try_catch, bind at 1.
    unfold call_listener, bind at 1, gets.
    assert (Hcall : (if shouldSendEventName sp wc fn s
                     then invoke W (S n) fn [p; VStr e]
                     else invoke W (S n) fn [p]) s =
                    (result_of W fn (call_args sp wc e p s fn) s,
                     log (Invoked fn (call_args sp wc e p s fn)) s)).
    { unfold call_args. destruct (shouldSendEventName _ _ _ _); by apply invoke_passive. }
    rewrite Hcall. unfold call_events.
    destruct (result_of W fn (call_args sp wc e p s fn) s) as [v|err|] eqn:Hr.
    + unfold ret, modify. rewrite IH. f_equal. unfold log, with_trace. simpl.
      by rewrite <- app_assoc.
    + unfold ret, modify. rewrite IH. f_equal. unfold log, with_trace. simpl.
      by rewrite <- !app_assoc.
    + destruct fn as [id|]; [|done]. simpl in Hr. specialize (Hfn [p]).
      exfalso. revert Hr. unfold outcome. by repeat case_match.
Qed.

Lemma emit_passive n e p s :
  Forall (passive W) (delivery_of e s) →
  emit (invoke W (S n)) (VStr e) p s =
  (Ret VUndefined,
   with_trace (trace s ++
     flat_map (call_events W (map_get e (listenersMap s))
                 (map_get BUS_ANY (listenersMap s)) e p s) (delivery_of e s)) s).
Proof.
  intros Hp. unfold emit. mrun. unfold delivery_of in *.
  destruct (map_get e (listenersMap s)) as [r|] eqn:Es,
           (map_get BUS_ANY (listenersMap s)) as [w|] eqn:Ew; mrun;
    try (erewrite bind_run by (by apply for_each_passive); done).
  change (delivery None None s) with (@nil Fn). cbn [flat_map].
  by rewrite with_trace_same.
Qed.

Lemma call_args_delivery e p s fn :
  fn ∈ delivery_of e s →
  call_args (map_get e (listenersMap s)) (map_get BUS_ANY (listenersMap s)) e p s fn =
  expected_args e p s fn.
Proof.
  intros [Hin|Hin]%delivery_of_elem; unfold call_args, expected_args, shouldSendEventName,
    listeners_of, set_has in *.
  - rewrite (bool_decide_eq_true_2 _ Hin).
    destruct (map_get e (listenersMap s)); [|by apply elem_of_nil in Hin].
    rewrite (bool_decide_eq_true_2 _ Hin). simpl.
    destruct (map_get BUS_ANY (listenersMap s)); [|done]. by rewrite andb_false_r.
  - destruct (map_get BUS_ANY (listenersMap s)); [|by apply elem_of_nil in Hin].
    rewrite (bool_decide_eq_true_2 _ Hin). simpl.
    destruct (map_get e (listenersMap s)).
    + by destruct (bool_decide _).
    + by rewrite bool_decide_eq_false_2 by apply not_elem_of_nil.
Qed.

Lemma invoked_fns_app a b : invoked_fns (a ++ b) = invoked_fns a ++ invoked_fns b.
Proof. apply omap_app. Qed.

Lemma invoked_fns_call_events sp wc e p s fns :
  invoked_fns (flat_map (call_events W sp wc e p s) fns) = fns.
Proof.
  induction fns as [|fn fns IH]; [done|]. cbn [flat_map].
  rewrite invoked_fns_app, IH. unfold call_events.
  by destruct (result_of _ _ _ _).
Qed.

End Passive.

(** ** What every run of [emit] does *)

Section Emit.
Context (W : World).

Lemma invoke_records fuel f args s r s' :
  invoke W fuel f args s = (r, s') → r ≠ OutOfFuel →
  ∃ evs, trace s' = trace s ++ Invoked f args :: evs.
Proof.
  destruct fuel as [|n]; simpl; [by intros [= <- _]|].
  unfold apply_fn. rewrite bind_modify. intros H _.
  apply (pres_fn_body W _ (pres_invoke W n)), trace_reach in H as [k Hk].
  exists k. rewrite Hk. simpl. by rewrite <- app_assoc.
Qed.

Lemma call_listener_records fuel sp wc e p fn s r s' :
  call_listener (invoke W fuel) sp wc e p fn s = (r, s') → r ≠ OutOfFuel →
  ∃ args evs, trace s' = trace s ++ Invoked fn args :: evs.
Proof.
  unfold call_listener. rewrite bind_gets.
  destruct (shouldSendEventName sp wc fn s); intros H Hr;
    destruct (invoke_records _ _ _ _ _ _ H Hr) as [evs Hevs]; eauto.
Qed.

Lemma for_each_delivers fuel sp wc e p fns s r s' :
  for_each fns (λ fn,
    try_catch (call_listener (invoke W fuel) sp wc e p fn ;; ret tt)
              (λ error, modify (log (ErrorHandlerFailure e error)))) s = (r, s') →
  (r = Ret tt ∨ r = OutOfFuel) ∧
  (r = Ret tt →
   ∃ evs, trace s' = trace s ++ evs ∧ ∀ f, f ∈ fns → f ∈ invoked_fns evs).
Proof.
  revert s. induction fns as [|fn fns IH]; intros s.
  - intros [= <- <-]. split; [by left|]. intros _. exists []. split; [by rewrite app_nil_r|].
    by intros f ?%elem_of_nil.
  - cbn [for_each]. unfold bind at 1, try_catch, bind at 1.
    destruct (call_listener _ sp wc e p fn s) as [rc sc] eqn:Hc.
    assert (Hrec : rc ≠ OutOfFuel → ∃ args evs, trace sc = trace s ++ Invoked fn args :: evs).
    { intros Hrc. by eapply call_listener_records. }
    assert (Hnext : ∀ s1 k, trace s1 = trace sc ++ k → rc ≠ OutOfFuel →
      for_each fns (λ fn,
        try_catch (call_listener (invoke W fuel) sp wc e p fn ;; ret tt)
                  (λ error, modify (log (ErrorHandlerFailure e error)))) s1 = (r, s') →
      (r = Ret tt ∨ r = OutOfFuel) ∧
      (r = Ret tt →
       ∃ evs, trace s' = trace s ++ evs ∧ ∀ f, f ∈ fn :: fns → f ∈ invoked_fns evs)).
    { intros s1 k Hk Hrc Hrest. destruct (IH _ Hrest) as [Hr Hall]. split; [done|].
      intros Hret. destruct (Hall Hret) as (evs & Hevs & Hin).
      destruct (Hrec Hrc) as (args & evs0 & Hevs0).
      exists ((Invoked fn args :: evs0) ++ k ++ evs). split.
      - rewrite Hevs, Hk, Hevs0. by rewrite <- !app_assoc.
      - intros f [->|Hf]%elem_of_cons.
        + rewrite invoked_fns_app. apply elem_of_app. left. by left.
        + rewrite !invoked_fns_app. do 2 (apply elem_of_app; right). by apply Hin. }
    destruct rc as [v|err|]; cbn [ret modify].
    + apply (Hnext sc []); [by rewrite app_nil_r|done].
    + apply (Hnext (log (ErrorHandlerFailure e err) sc) [ErrorHandlerFailure e err]); done.
    + intros [= <- <-]. split; [by right|done].
Qed.

Lemma emit_delivers fuel e p s r s' :
  emit (invoke W fuel) (VStr e) p s = (r, s') →
  (r = Ret VUndefined ∨ r = OutOfFuel) ∧
  (r = Ret VUndefined →
   ∃ evs, trace s' = trace s ++ evs ∧ ∀ f, f ∈ delivery_of e s → f ∈ invoked_fns evs).
Proof.
  unfold emit, delivery_of. mrun.
  assert (Hempty : (Ret VUndefined, s) = (r, s') →
    (r = Ret VUndefined ∨ r = OutOfFuel) ∧
    (r = Ret VUndefined →
     ∃ evs, trace s' = trace s ++ evs ∧ ∀ f, f ∈ delivery None None s → f ∈ invoked_fns evs)).
  { intros [= <- <-]. split; [by left|]. intros _. exists []. split; [by rewrite app_nil_r|].
    by intros f ?%elem_of_nil. }
  destruct (map_get e (listenersMap s)) as [sp|], (map_get BUS_ANY (listenersMap s)) as [wc|];
    try done; mrun; unfold bind;
    match goal with |- context [for_each ?l ?b s] =>
      destruct (for_each l b s) as [r1 s1] eqn:Hfe end;
    apply for_each_delivers in Hfe as [Hr Hall];
    (destruct r1 as [[]|err|]; intros [= <- <-];
      [split; [by left|]; intros _; by apply Hall
      |by destruct Hr
      |split; [by right|done]]).
Qed.

Lemma calls_to_app f a b : calls_to f (a ++ b) = calls_to f a ++ calls_to f b.
Proof. apply omap_app. Qed.

Lemma calls_to_call_event sp wc e p s g f :
  calls_to f (call_events W sp wc e p s g) =
  if decide (g = f) then [call_args sp wc e p s g] else [].
Proof.
  unfold call_events, calls_to. destruct (result_of _ _ _ _); simpl;
    by destruct (decide (g = f)).
Qed.

Lemma calls_to_call_events sp wc e p s fns f :
  NoDup fns → f ∈ fns →
  calls_to f (flat_map (call_events W sp wc e p s) fns) = [call_args sp wc e p s f].
Proof.
  assert (Hnot : ∀ l, f ∉ l → calls_to f (flat_map (call_events W sp wc e p s) l) = []).
  { induction l as [|g l IH]; [done|]. intros [Hg Hl]%not_elem_of_cons.
    cbn [flat_map]. rewrite calls_to_app, IH, calls_to_call_event by done.
    by rewrite decide_False by done. }
  induction fns as [|g fns IH]; [by intros _ ?%elem_of_nil|].
  intros [Hg Hnd]%NoDup_cons Hin. cbn [flat_map].
  rewrite calls_to_app, calls_to_call_event.
  destruct (decide (g = f)) as [->|Hne].
  - by rewrite Hnot by done.
  - apply elem_of_cons in Hin as [->|Hin]; [done|]. by rewrite IH by done.
Qed.
End Emit.

(** ** The registry never holds an empty set *)

(** C9: after any sequence of calls and host signals, whatever the
    listeners do, every name of [eventNames()] has at least one listener,
    and [off()] and [off(null)] leave no event name. *)
Theorem no_empty_listener_sets W fuel ops :
  let s := run_ops W fuel ops fresh in
  (∀ name, name ∈ eventNames s →
     ∃ n, listenerCount (VStr name) s = (Ret n, s) ∧ 1 ≤ n) ∧
  eventNames (off VNull VUndefined s).2 = [] ∧
  eventNames (off VUndefined VUndefined s).2 = [].
Proof.
  intros s. split; [|done].
  assert (Hwf : wf s) by (eapply wf_reach; [apply reach_run_ops | apply wf_fresh]).
  intros name [r Hr]%eventNames_get. destruct Hwf as (_ & Hlive & _).
  destruct (Hlive name r) as (l & Hl & Hne); [by apply map_get_elem|].
  exists (length l). unfold listenerCount. mrun. unfold gets. rewrite Hr. unfold set_at. rewrite Hl.
  split; [done|]. destruct l; [done | simpl; lia].
Qed.

(** ** The loader *)

Section Loader.
Context (W : World).

Lemma importModule_run spec s :
  importModule W spec s =
  (Ret (VPromise Fulfilled VUndefined),
   if decide (spec ∈ importedModules s) then s else loaded W spec s).
Proof.
  unfold importModule, loaded, load. mrun. case_bool_decide as Hin.
  - by rewrite decide_True.
  - rewrite decide_False by done. mrun. by destruct (importOutcome W spec).
Qed.

Lemma resolveModuleSpecifier_state sp anchor s r s' :
  resolveModuleSpecifier W sp anchor s = (r, s') → s' = s.
Proof.
  unfold resolveModuleSpecifier.
  repeat case_match; by intros [= _ <-].
Qed.

Lemma imports_of_app a b : imports_of (a ++ b) = imports_of a ++ imports_of b.
Proof. apply omap_app. Qed.

Lemma imports_of_loaded spec s :
  imports_of (trace (loaded W spec s)) = imports_of (trace s) ++ [spec].
Proof.
  unfold loaded, load. destruct (importOutcome W spec); simpl;
    rewrite ?imports_of_app; simpl; by rewrite ?app_nil_r.
Qed.

Lemma importedModules_loaded spec s :
  spec ∈ importedModules (loaded W spec s).
Proof.
  unfold loaded, load, add_imported. destruct (importOutcome W spec); simpl;
    case_decide; try done; apply elem_of_app; right; by left.
Qed.

End Loader.

Lemma NoDup_count_le (sp : string) (l : list string) :
  NoDup l → length (filter (λ x, x = sp) l) ≤ 1.
Proof.
  induction 1 as [|x l Hx _ IH]; [simpl; lia|].
  rewrite filter_cons. destruct (decide (x = sp)) as [->|]; [|done].
  replace (filter (λ x, x = sp) l) with (@nil string); [simpl; lia|].
  symmetry. clear IH. induction l as [|y l IH]; [done|].
  apply not_elem_of_cons in Hx as [Hy Hl]. rewrite filter_cons_False by done. auto.
Qed.

Lemma loads_ok_fresh : loads_ok fresh.
Proof. split; [constructor | by intros sp ?%elem_of_nil]. Qed.

(** C5: over any sequence of calls ([registerModule], [initialize] and every
    other method, from outside or from listeners) and host signals, the
    dynamic import is called at most once for a specifier; and once the
    specifier is in the loaded set, loading it again changes nothing and
    imports nothing. *)
Theorem load_at_most_once W fuel ops sp :
  let s := run_ops W fuel ops fresh in
  length (filter (λ x, x = sp) (imports_of (trace s))) ≤ 1 ∧
  (sp ∈ importedModules s →
   importModule W sp s = (Ret (VPromise Fulfilled VUndefined), s)).
Proof.
  intros s. split.
  - apply NoDup_count_le.
    by apply (loads_reach fresh s (reach_run_ops W fuel ops fresh) loads_ok_fresh).
  - intros Hin. rewrite importModule_run. by rewrite decide_True.
Qed.

Lemma load_at_most_once_witness :
  let s := run_ops quiet_world 1
             [Do (CRegisterModule (VStr "a") bootstrap_options); Do CInitialize;
              Do (CRegisterModule (VStr "a") bootstrap_options)] fresh in
  imports_of (trace s) = ["a"] ∧
  length (filter (λ x, x = "a") (imports_of (trace s))) ≤ 1 ∧
  importModule quiet_world "a" s = (Ret (VPromise Fulfilled VUndefined), s).
Proof.
  intros s. split; [by vm_compute|].
  destruct (load_at_most_once quiet_world 1
             [Do (CRegisterModule (VStr "a") bootstrap_options); Do CInitialize;
              Do (CRegisterModule (VStr "a") bootstrap_options)] "a") as [Hcount Hagain].
  split; [exact Hcount|]. apply Hagain. vm_compute. by left.
Defined.

(** ** The summary of a phase *)

Section Summary.
Context (W : World).

Lemma importModule_quiet spec s :
  ∃ evs, trace (importModule W spec s).2 = trace s ++ evs ∧
         Forall (λ ev, is_summary ev = false) evs.
Proof.
  rewrite importModule_run. cbn [snd]. case_decide.
  - exists []. by rewrite app_nil_r.
  - unfold loaded, load. destruct (importOutcome W spec) as [err|].
    + exists [Import spec; ErrorImportFailed spec err]. simpl. rewrite <- app_assoc.
      by repeat constructor.
    + exists [Import spec]. by repeat constructor.
Qed.

Lemma import_batch pending s :
  ∃ s' evs,
    map_M pending (λ en, importModule W (specifier en)) s =
      (Ret (replicate (length pending) (VPromise Fulfilled VUndefined)), s') ∧
    trace s' = trace s ++ evs ∧
    Forall (λ ev, is_summary ev = false) evs.
Proof.
  revert s. induction pending as [|en pending IH]; intros s.
  - exists s, []. by rewrite app_nil_r.
  - destruct (importModule_quiet (specifier en) s) as (evs1 & Ht1 & Hq1).
    destruct (IH (importModule W (specifier en) s).2) as (s' & evs2 & Hrun & Ht2 & Hq2).
    exists s', (evs1 ++ evs2). split_and!.
    + cbn [map_M]. erewrite bind_run by (rewrite importModule_run; done).
      rewrite importModule_run in Hrun. cbn [snd] in Hrun. cbv beta iota.
      erewrite bind_run by exact Hrun. done.
    + by rewrite Ht2, Ht1, app_assoc.
    + by apply Forall_app.
Qed.

Lemma allSettled_fulfilled n :
  allSettled (replicate n (VPromise Fulfilled VUndefined)) =
  AResolved (replicate n (SFulfilled VUndefined)).
Proof. induction n as [|n IH]; [done|]. simpl. by rewrite IH. Qed.

Lemma rejected_only_fulfilled n :
  rejected_only (replicate n (SFulfilled VUndefined)) = [].
Proof. induction n as [|n IH]; [done|]. unfold rejected_only in *. simpl.
  by rewrite filter_cons_False. Qed.

(** The summary of [importPhase] is never written: [importModule] catches
    the failure of the import itself, so no task of the batch is rejected. *)
Lemma importPhase_never_summarises ph s :
  ∃ evs, trace (importPhase W ph s).2 = trace s ++ evs ∧
         Forall (λ ev, is_summary ev = false) evs.
Proof.
  unfold importPhase. mrun.
  destruct (filter (λ en, phase en = ph) (moduleQueue s)) as [|en pending] eqn:Hpending.
  - exists []. rewrite app_nil_r. by destruct ph.
  - destruct (import_batch (en :: pending) (complete_phase ph s)) as (s' & evs & Hrun & Ht & Hq).
    erewrite bind_run by exact Hrun. cbv beta iota.
    rewrite allSettled_fulfilled, rejected_only_fulfilled.
    exists evs. split; [|done]. rewrite bool_decide_eq_false_2 by (simpl; lia).
    cbn [when ret snd]. rewrite Ht. by destruct ph.
Qed.
End Summary.

Section Batch.
Context (W : World).

Lemma importModule_loads spec s :
  spec ∈ importedModules (importModule W spec s).2 ∧
  ∀ sp, sp ∈ importedModules s → sp ∈ importedModules (importModule W spec s).2.
Proof.
  rewrite importModule_run. cbn [snd]. case_decide as Hin; [done|]. split.
  - apply importedModules_loaded.
  - intros sp Hsp. unfold loaded, load, add_imported.
    destruct (importOutcome W spec); cbn; rewrite decide_False by done;
      apply elem_of_app; by left.
Qed.

Lemma import_batch_loads pending s :
  let s' := (map_M pending (λ en, importModule W (specifier en)) s).2 in
  (∀ sp, sp ∈ importedModules s → sp ∈ importedModules s') ∧
  Forall (λ en, specifier en ∈ importedModules s') pending.
Proof.
  revert s. induction pending as [|en pending IH]; intros s; [done|].
  cbn [map_M]. destruct (importModule_loads (specifier en) s) as [Hen Hmono].
  rewrite (bind_run _ _ _ _ _ (importModule_run W (specifier en) s)). cbv beta iota.
  rewrite importModule_run in Hen, Hmono. cbn [snd] in Hen, Hmono.
  set (s1 := if decide (specifier en ∈ importedModules s) then s
             else loaded W (specifier en) s) in *.
  destruct (IH s1) as [Hmono' Hall].
  destruct (import_batch W pending s1) as (s2 & evs & Hrun & _).
  rewrite Hrun in Hmono', Hall. cbn [snd] in Hmono', Hall.
  rewrite (bind_run _ _ _ _ _ Hrun). cbn. split; [auto|]. constructor; auto.
Qed.

(** The half of C7 that holds: a phase batch attempts every pending entry,
    whatever the imports do. *)
Lemma importPhase_attempts_all ph s :
  Forall (λ en, phase en = ph → specifier en ∈ importedModules (importPhase W ph s).2)
         (moduleQueue s).
Proof.
  unfold importPhase. mrun.
  destruct (filter (λ en, phase en = ph) (moduleQueue s)) as [|en pending] eqn:Hpending.
  - apply Forall_forall. intros en Hen Hph.
    assert (en ∈ filter (λ en, phase en = ph) (moduleQueue s))
      by by apply list_elem_of_filter.
    rewrite Hpending in *. by apply elem_of_nil in H.
  - destruct (import_batch W (en :: pending) (complete_phase ph s)) as (s' & evs & Hrun & _).
    destruct (import_batch_loads (en :: pending) (complete_phase ph s)) as [_ Hall].
    rewrite Hrun in Hall. cbn [snd] in Hall.
    rewrite (bind_run _ _ _ _ _ Hrun). cbv beta iota.
    rewrite allSettled_fulfilled, rejected_only_fulfilled.
    rewrite bool_decide_eq_false_2 by (simpl; lia). cbn [when ret snd].
    apply Forall_forall. intros en' Hen' Hph. rewrite Forall_forall in Hall.
    apply Hall. rewrite <- Hpending. by apply list_elem_of_filter.
Qed.
End Batch.

(** ** [emitAsync] *)

Lemma allSettled_promises tasks :
  Forall (λ t, is_promise t = true) tasks →
  allSettled tasks = APending ∨
  ∃ outs, allSettled tasks = AResolved outs ∧ length outs = length tasks.
Proof.
  induction 1 as [|t tasks Ht _ IH]; [right; by exists []|].
  destruct t as [| | | | | | | |st v]; try done. simpl.
  destruct st; [| |by left]; destruct IH as [->|(outs & -> & Hlen)]; try (by left);
    right; eexists; (split; [done|]); simpl; by rewrite Hlen.
Qed.

Lemma allSettled_settlements results outs :
  Forall2 (λ r out, settlement_of r = Some out) results outs →
  allSettled (task_of <$> results) = AResolved outs.
Proof.
  induction 1 as [|r out results outs Hr _ IH]; [done|].
  cbn [fmap list_fmap allSettled]. fold (fmap (M:=list) task_of results). rewrite IH.
  destruct r as [v|reason|]; [| |done].
  - destruct v as [| | | | | | | |[] v]; simpl in *; by simplify_eq.
  - simpl in *. by simplify_eq.
Qed.

Lemma new_closure_run c s :
  new_closure c s = (Ret (FClosure (length (closures s))), alloc c s).
Proof. done. Qed.

Lemma calls_to_cons L g args evs :
  calls_to L (Invoked g args :: evs) =
  (if decide (g = L) then [args] else []) ++ calls_to L evs.
Proof. unfold calls_to. cbn. by destruct (decide (g = L)). Qed.

Lemma calls_to_others L evs :
  (∀ f, f ∈ invoked_fns evs → f ≠ L) → calls_to L evs = [].
Proof.
  induction evs as [|ev evs IH]; [done|]. intros H.
  assert (IH' : calls_to L evs = []).
  { apply IH. intros f Hf. apply H. change (ev :: evs) with ([ev] ++ evs).
    rewrite invoked_fns_app. apply elem_of_app. by right. }
  change (ev :: evs) with ([ev] ++ evs). rewrite calls_to_app, IH'.
  destruct ev as [g args| | | | | | | |]; try done. unfold calls_to. cbn.
  rewrite decide_False; [done|]. apply H. by left.
Qed.

Lemma map_get_delete {V} e (m : list (string * V)) : map_get e (map_delete e m) = None.
Proof.
  induction m as [|[k v] m IH]; [done|]. simpl.
  destruct (String.eqb_spec e k) as [->|Hne]; [done|]. simpl.
  by destruct (String.eqb_spec e k).
Qed.

Section Once.
Context (W : World) (L : Fn) (a : nat).

Lemma invoke_fired k args s :
  fired a s →
  invoke W (S k) (FClosure a) args s =
  (Ret VUndefined, log (Invoked (FClosure a) args) s).
Proof.
  intros (e & h & Hc). simpl. unfold apply_fn. rewrite bind_modify. unfold fn_body.
  rewrite bind_gets. cbn [closures log with_trace]. by rewrite Hc.
Qed.

End Once.

Lemma set_add_Forall (P : Fn → Prop) h l : P h → Forall P l → Forall P (set_add h l).
Proof.
  intros Hh Hl. unfold set_add. case_decide; [done|]. apply Forall_app. by repeat constructor.
Qed.

Lemma set_add_elem h l : h ∈ set_add h l.
Proof. unfold set_add. case_decide; [done|]. apply elem_of_app. right. by left. Qed.

Lemma set_delete_elem h l : h ∉ set_delete h l.
Proof. unfold set_delete. by intros [? _]%list_elem_of_filter. Qed.

(** [once(e, h)]: a new wrapper, unlatched, is now a listener of [e]; the
    sets only gain the wrapper. *)
Lemma once_effect e h s :
  wf s →
  ∃ v s1 evs,
    once (VStr e) (VFn h) s = (Ret v, s1) ∧
    trace s1 = trace s ++ evs ∧ invoked_fns evs = [] ∧
    closures s1 !! length (closures s) = Some (OnceWrapper e h false) ∧
    FClosure (length (closures s)) ∈ listeners_of e s1 ∧
    (∀ P : Fn → Prop, P (FClosure (length (closures s))) →
       Forall (Forall P) (sets s) → Forall (Forall P) (sets s1)).
Proof.
  intros Hwf. unfold once. mrun.
  rewrite (bind_run _ _ _ _ _ (new_closure_run _ _)). cbv beta iota.
  set (w := FClosure (length (closures s))).
  set (s0 := alloc (OnceWrapper e h false) s).
  assert (Hwf0 : wf s0) by done.
  pose proof (listeners_of_on e w s0 Hwf0) as Hon. rewrite on_run in *. cbn [snd] in Hon.
  eexists _, _, _. split; [done|].
  set (s1 := warn_leak e (listen_ref e s0) (listen e w s0)) in *.
  assert (Hsets : sets s1 = sets (listen e w s0))
    by (unfold s1, warn_leak; by destruct (bool_decide _)).
  assert (Hcl : closures s1 = closures s ++ [OnceWrapper e h false]).
  { unfold s1, warn_leak, listen. destruct (bool_decide _), (map_get _ _); done. }
  split_and!.
  - instantiate (1 := if bool_decide (listenerThreshold < length (set_at (listen_ref e s0) (listen e w s0)))
                      then [WarnListenerLeak (length (set_at (listen_ref e s0) (listen e w s0))) e]
                      else []).
    unfold s1, warn_leak. destruct (bool_decide _); cbn.
    + unfold listen. by destruct (map_get _ _).
    + rewrite app_nil_r. unfold listen. by destruct (map_get _ _).
  - by destruct (bool_decide _).
  - cbn [closures alloc with_closures]. rewrite Hcl, <- app_assoc.
    by rewrite lookup_app_r, Nat.sub_diag.
  - rewrite Hon. apply set_add_elem.
  - intros P Hw HP. cbn [sets alloc with_closures]. rewrite Hsets. unfold listen.
    destruct (map_get e (listenersMap s0)); cbn.
    + apply Forall_alter; [done|]. intros l _ Hl. by apply set_add_Forall.
    + apply Forall_alter; [|intros l _ Hl; by apply set_add_Forall].
      apply Forall_app. split; [done|]. by repeat constructor.
Qed.

(** * The key-value store *)

(** ** Strings of the store *)

Lemma prefix_char c a s : String.prefix (String c "") (String a s) = bool_decide (c = a).
Proof.
  simpl. destruct (ascii_dec c a); [|by rewrite bool_decide_eq_false_2].
  rewrite bool_decide_eq_true_2 by done. by destruct s.
Qed.

Lemma includes_char c a s :
  Database.includes (String c "") (String a s) =
  bool_decide (c = a) || Database.includes (String c "") s.
Proof. cbn [Database.includes]. by rewrite prefix_char. Qed.

Lemma append_nil_l (s : string) : ("" ++ s = s)%string.
Proof. reflexivity. Qed.

Lemma append_cons a (s t : string) : (String a s ++ t = String a (s ++ t))%string.
Proof. reflexivity. Qed.

Lemma includes_app_char c a b : Database.includes (String c "") (a ++ String c b) = true.
Proof.
  induction a as [|x a IH].
  - rewrite ?append_nil_l, ?append_cons. rewrite includes_char. by rewrite bool_decide_eq_true_2.
  - rewrite ?append_nil_l, ?append_cons. rewrite includes_char, IH. by destruct (bool_decide _).
Qed.

Lemma includes_app_free c a b :
  Database.includes (String c "") (a ++ b) = false →
  Database.includes (String c "") a = false ∧ Database.includes (String c "") b = false.
Proof.
  induction a as [|x a IH]; rewrite ?append_nil_l, ?append_cons.
  - done.
  - rewrite !includes_char. intros [Hx Ha]%orb_false_iff.
    destruct (IH Ha) as [-> ->]. by rewrite Hx.
Qed.

Lemma append_nil_r (s : string) : (s ++ "" = s)%string.
Proof. induction s; rewrite ?append_nil_l, ?append_cons; by f_equal. Qed.

Lemma append_assoc (a b c : string) : ((a ++ b) ++ c = a ++ b ++ c)%string.
Proof. induction a; rewrite ?append_nil_l, ?append_cons; by f_equal. Qed.

Section SplitChar.
Context (c : ascii).
Let sep := String c "".

Lemma split_from_char cur a s :
  Database.split_from sep 0 cur (String a s) =
  if bool_decide (c = a) then cur :: Database.split_from sep 0 "" s
  else Database.split_from sep 0 (cur ++ String a "") s.
Proof. unfold sep. cbn [Database.split_from]. by rewrite prefix_char. Qed.

Lemma split_from_sep cur s :
  Database.split_from sep 0 cur (String c s) = cur :: Database.split_from sep 0 "" s.
Proof. by rewrite split_from_char, bool_decide_eq_true_2. Qed.

Lemma split_from_free cur s :
  Database.includes sep s = false → Database.split_from sep 0 cur s = [(cur ++ s)%string].
Proof.
  revert cur. induction s as [|a s IH]; intros cur.
  - intros _. simpl. by rewrite append_nil_r.
  - unfold sep in *. rewrite includes_char. intros [Ha Hs]%orb_false_iff.
    rewrite split_from_char, Ha, IH by done. by rewrite append_assoc.
Qed.

Lemma split_from_app cur a b :
  Database.split_from sep 0 cur (a ++ String c b) =
  Database.split_from sep 0 cur a ++ Database.split_from sep 0 "" b.
Proof.
  revert cur. induction a as [|x a IH]; intros cur; rewrite ?append_nil_l, ?append_cons.
  - rewrite split_from_char, bool_decide_eq_true_2 by done. done.
  - rewrite !split_from_char. case_bool_decide; by rewrite IH.
Qed.

Lemma split_from_pieces cur s p :
  Database.includes sep cur = false →
  p ∈ Database.split_from sep 0 cur s → Database.includes sep p = false.
Proof.
  revert cur. induction s as [|a s IH]; intros cur Hcur.
  - simpl. by intros ->%list_elem_of_singleton.
  - rewrite split_from_char. case_bool_decide as Ha.
    + intros [->|Hp]%elem_of_cons; [done|]. by apply (IH "").
    + apply IH. clear IH. induction cur as [|y cur IHc]; rewrite ?append_nil_l, ?append_cons.
      * unfold sep. rewrite includes_char, bool_decide_eq_false_2 by done. done.
      * unfold sep in *. rewrite includes_char in *.
        apply orb_false_iff in Hcur as [-> Hc]. by apply IHc.
Qed.

Lemma split_from_head cur s :
  ∃ first rest, Database.split_from sep 0 cur s = first :: rest.
Proof.
  revert cur. induction s as [|a s IH]; intros cur; [by eexists _, _|].
  rewrite split_from_char. case_bool_decide; [by eexists _, _ | apply IH].
Qed.

Lemma split_char s : Database.split sep s = Database.split_from sep 0 "" s.
Proof. done. Qed.
End SplitChar.

(** ** Ids of the store: [buildId] and [parseId] *)

Lemma trim_blank : trim "" = "".
Proof. done. Qed.

Lemma ensureValidKey_returns db v label k :
  Database.ensureValidKey db v label = Database.Returns k →
  v = VStr k ∧ k ≠ "" ∧ Database.includes (Database.separator db) k = false.
Proof.
  unfold Database.ensureValidKey. destruct v as [| | | |k'| | | |]; try done.
  destruct (String.eqb (trim k') "") eqn:Hblank; [done|].
  destruct (Database.includes _ k') eqn:Hinc; [done|].
  intros Hk. assert (k' = k) as ->.
  { destruct (Database.validateKey db) as [check|]; [|by injection Hk].
    destruct (check k'); [by injection Hk | done]. }
  split_and!; [done| |done]. intros ->. by rewrite trim_blank in Hblank.
Qed.

Lemma ensureValidKey_label db v l1 l2 k :
  Database.ensureValidKey db v l1 = Database.Returns k →
  Database.ensureValidKey db v l2 = Database.Returns k.
Proof.
  unfold Database.ensureValidKey. destruct v as [| | | |k'| | | |]; try done.
  destruct (String.eqb (trim k') ""); [done|].
  by destruct (Database.includes _ k').
Qed.

(** The ids [buildId] makes: the name, the separator, the segment if there
    is one, and the key. *)
Lemma buildId_returns db key segment id :
  Database.buildId db key segment = Database.Returns id →
  ∃ k, key = VStr k ∧ k ≠ "" ∧ Database.includes (Database.separator db) k = false ∧
    ((segment = VUndefined ∧
      id = (Database.name db ++ Database.separator db ++ k)%string) ∨
     (∃ g, segment = VStr g ∧ g ≠ "" ∧
        Database.includes (Database.separator db) g = false ∧
        id = (Database.name db ++ Database.separator db ++ g ++
              Database.separator db ++ k)%string)).
Proof.
  unfold Database.buildId.
  destruct (Database.ensureValidKey db key "key") as [k|err] eqn:Hk; [|done].
  apply ensureValidKey_returns in Hk as (-> & Hk & Hfree).
  intros Hid. exists k. split_and!; [done..|].
  destruct segment as [| | | |g| | | |]; try done.
  - left. split; [done|]. by injection Hid as <-.
  - right. destruct (Database.ensureValidKey db (VStr g) "segment") as [g'|err] eqn:Hg; [|done].
    apply ensureValidKey_returns in Hg as ([= <-] & Hg & Hgfree).
    exists g. split_and!; [done..|].
    assert (truthy (VStr g) = true) as Ht.
    { simpl. by destruct (String.eqb_spec g ""). }
    rewrite Ht in Hid. by injection Hid as <-.
Qed.

Lemma join_two sep a b : Database.join sep [a; b] = (a ++ sep ++ b)%string.
Proof. done. Qed.

Lemma join_three sep a b c :
  Database.join sep [a; b; c] = (a ++ sep ++ b ++ sep ++ c)%string.
Proof. done. Qed.

Lemma char_append c (s : string) : (String c "" ++ s)%string = String c s.
Proof. done. Qed.

Lemma eqb_refl_string (s : string) : String.eqb s s = true.
Proof. by apply String.eqb_eq. Qed.

(** The round trip of an id, in the form the proofs about [entries] use. *)
Lemma parse_after_build db c key segment id :
  Database.separator db = String c "" →
  Database.includes (Database.separator db) (Database.name db) = false →
  Database.buildId db key segment = Database.Returns id →
  ∃ k, key = VStr k ∧
       Database.parseId db id = Some (Database.mkParsed k (segment_of segment)).
Proof.
  intros Hsep Hname Hid.
  apply buildId_returns in Hid as (k & -> & Hk & Hfree & Hshape).
  exists k. split; [done|]. unfold Database.parseId.
  rewrite Hsep in *. rewrite split_char.
  destruct Hshape as [[-> ->] | (g & -> & Hg & Hgfree & ->)]; rewrite !char_append.
  - rewrite split_from_app, !split_from_free by done.
    rewrite !append_nil_l. cbn [app]. by rewrite eqb_refl_string.
  - rewrite !split_from_app, !split_from_free by done.
    rewrite !append_nil_l. cbn [app]. by rewrite eqb_refl_string.
Qed.

(** X1: decode after encode.  When the separator is one character and the
    name of the database does not contain it, [parseId] gives back the key
    and the segment of every id [buildId] makes. *)
Theorem parseId_buildId db c key segment id :
  Database.separator db = String c "" →
  Database.includes (Database.separator db) (Database.name db) = false →
  Database.buildId db key segment = Database.Returns id →
  ∃ k, key = VStr k ∧
       Database.parseId db id = Some (Database.mkParsed k (segment_of segment)).
Proof. apply parse_after_build. Qed.

Lemma parseId_buildId_witness :
  ∃ k, VStr "owner" = VStr k ∧
       Database.parseId plots_uncached "plots:north:owner" =
       Some (Database.mkParsed k (segment_of (VStr "north"))).
Proof.
  apply (parseId_buildId plots_uncached ":" (VStr "owner") (VStr "north") "plots:north:owner");
    reflexivity.
Defined.

(** X2: no two pairs of a key and a segment share an id, whatever the name
    of the database, when the separator is one character. *)
Theorem buildId_injective db c key1 segment1 key2 segment2 id :
  Database.separator db = String c "" →
  Database.buildId db key1 segment1 = Database.Returns id →
  Database.buildId db key2 segment2 = Database.Returns id →
  key1 = key2 ∧ segment1 = segment2.
Proof.
  intros Hsep H1 H2.
  apply buildId_returns in H1 as (k1 & -> & _ & Hf1 & Hs1).
  apply buildId_returns in H2 as (k2 & -> & _ & Hf2 & Hs2).
  rewrite Hsep in *.
  assert (Hsplit : ∀ a b : string, (Database.name db ++ a)%string = (Database.name db ++ b)%string →
    Database.split_from (String c "") 0 "" a = Database.split_from (String c "") 0 "" b).
  { intros a b. generalize (Database.name db). intros n Hab. f_equal.
    induction n as [|x n IH]; [done|].
    rewrite !append_cons in Hab. injection Hab as Hab. by apply IH. }
  destruct Hs1 as [[-> ->] | (g1 & -> & _ & Hg1 & ->)],
           Hs2 as [[-> Hid] | (g2 & -> & _ & Hg2 & Hid)];
    apply Hsplit in Hid; revert Hid; rewrite !char_append, !split_from_sep;
    rewrite ?split_from_app, ?split_from_free by done;
    rewrite ?append_nil_l; cbn [app]; intros ?; by simplify_eq.
Qed.

Lemma buildId_injective_witness :
  VStr "owner" = VStr "owner" ∧ VStr "north" = VStr "north".
Proof.
  apply (buildId_injective plots_uncached ":" (VStr "owner") (VStr "north") (VStr "owner") (VStr "north")
           "plots:north:owner"); reflexivity.
Defined.

(** No id parses in a database whose name contains the separator. *)
Lemma parseId_name_with_separator db c id :
  Database.separator db = String c "" →
  Database.includes (Database.separator db) (Database.name db) = true →
  Database.parseId db id = None.
Proof.
  intros Hsep Hname. unfold Database.parseId. rewrite Hsep in *. rewrite split_char.
  destruct (split_from_head c "" id) as (first & rest & Hsplit). rewrite Hsplit.
  assert (Hfirst : Database.includes (String c "") first = false).
  { apply (split_from_pieces c "" id); [done|]. rewrite Hsplit. by left. }
  destruct (String.eqb_spec first (Database.name db)) as [->|]; [|done].
  by rewrite Hname in Hfirst.
Qed.

(** With an empty separator every key is refused. *)
Lemma buildId_empty_separator db key segment :
  Database.separator db = "" →
  ∃ err, Database.buildId db key segment = Database.Throws err.
Proof.
  intros Hsep. unfold Database.buildId, Database.ensureValidKey at 1. rewrite Hsep.
  destruct key as [| | | |k| | | |]; try by eexists.
  destruct (String.eqb (trim k) ""); [by eexists|].
  assert (Database.includes "" k = true) as -> by by destruct k.
  by eexists.
Qed.

(** ** Reads and writes of the store *)

Ltac drun :=
  cbv beta iota delta [Database.bind Database.gets Database.lift Database.ret
                       Database.throw Database.modify Database.when].

Lemma buildId_with_cache db c p key segment :
  Database.buildId (Database.with_cache c p db) key segment = Database.buildId db key segment.
Proof. done. Qed.

Lemma map_get_set_ne {V} e e' (r : V) (m : list (string * V)) :
  e' ≠ e → map_get e' (map_set e r m) = map_get e' m.
Proof.
  intros Hne. induction m as [|[k v] m IH]; simpl.
  - destruct (String.eqb_spec e' e); done.
  - destruct (String.eqb_spec e k) as [->|]; simpl.
    + destruct (String.eqb_spec e' k); done.
    + destruct (String.eqb_spec e' k); done.
Qed.

Lemma map_get_delete_ne {V} e e' (m : list (string * V)) :
  e' ≠ e → map_get e' (map_delete e m) = map_get e' m.
Proof.
  intros Hne. induction m as [|[k v] m IH]; simpl; [done|].
  destruct (String.eqb_spec e k) as [->|]; simpl.
  - destruct (String.eqb_spec e' k); done.
  - destruct (String.eqb_spec e' k); done.
Qed.

Section Store.
Context (H : Database.Host).

(** A call of [set] that returns has written the payload and cached the
    value; one that throws has changed nothing. *)
Lemma set_inv key value segment s r s1 :
  Database.set H key value segment s = (r, s1) →
  (∃ err, r = Database.Throws err ∧ s1 = s) ∨
  (∃ id payload,
     Database.buildId (Database.this s) key segment = Database.Returns id ∧
     Database.serialize (Database.this s) value = Database.Returns payload ∧
     r = Database.Returns value ∧
     s1 = Database.cache_set id value (stored id payload s)).
Proof.
  unfold Database.set. drun.
  destruct (Database.buildId _ key segment) as [id|err];
    [|intros [= <- <-]; left; by eexists].
  destruct (Database.serialize _ value) as [payload|err];
    [|intros [= <- <-]; left; by eexists].
  unfold Database.setDynamicProperty. drun.
  destruct (Database.writeError H id payload);
    [intros [= <- <-]; left; by eexists|].
  destruct payload; intros [= <- <-]; right; by eexists _, _.
Qed.

Lemma delete_inv key segment s r s1 :
  Database.delete H key segment s = (r, s1) →
  (∃ err, r = Database.Throws err ∧ s1 = s) ∨
  (∃ id,
     Database.buildId (Database.this s) key segment = Database.Returns id ∧
     r = Database.Returns VUndefined ∧
     s1 = Database.cache_delete id (Database.remove_property id s)).
Proof.
  unfold Database.delete. drun.
  destruct (Database.buildId _ key segment) as [id|err];
    [|intros [= <- <-]; left; by eexists].
  unfold Database.setDynamicProperty. drun.
  destruct (Database.writeError H id VUndefined);
    [intros [= <- <-]; left; by eexists|].
  intros [= <- <-]. right. by eexists.
Qed.

(** [get] and [has], by cases, for an id that [buildId] makes. *)
Lemma get_run key segment s id :
  Database.buildId (Database.this s) key segment = Database.Returns id →
  Database.get key segment s =
  if Database.useCache (Database.this s) && Database.cache_has id (Database.this s)
  then (Database.Returns (Database.cache_get id (Database.this s)), s)
  else match read_world id s with
       | Database.Returns VUndefined =>
           match Database.getDynamicProperty id s with
           | VUndefined => (Database.Returns VUndefined, s)
           | _ => (Database.Returns VUndefined, Database.cache_set id VUndefined s)
           end
       | Database.Returns value => (Database.Returns value, Database.cache_set id value s)
       | Database.Throws err => (Database.Throws err, s)
       end.
Proof.
  intros Hid. unfold Database.get, read_world. drun. rewrite Hid.
  destruct (_ && _); [done|].
  destruct (Database.getDynamicProperty id s) eqn:Hraw; try done;
    by destruct (Database.deserialize _ _) as [[]|].
Qed.

Lemma has_run key segment s id :
  Database.buildId (Database.this s) key segment = Database.Returns id →
  Database.has key segment s =
  (Database.Returns
     (Database.useCache (Database.this s) && Database.cache_has id (Database.this s) ||
      match Database.getDynamicProperty id s with VUndefined => false | _ => true end), s).
Proof.
  intros Hid. unfold Database.has. drun. rewrite Hid.
  by destruct (_ && _).
Qed.
End Store.

Section StoreReads.
Context (H : Database.Host).

Lemma cache_set_this id v s :
  Database.buildId (Database.this (Database.cache_set id v s)) =
  Database.buildId (Database.this s).
Proof. unfold Database.cache_set. destruct (Database.cache (Database.this s)), (Database.useCache (Database.this s)); done. Qed.

Lemma cache_delete_this id s :
  Database.buildId (Database.this (Database.cache_delete id s)) =
  Database.buildId (Database.this s).
Proof. unfold Database.cache_delete. destruct (Database.cache (Database.this s)), (Database.useCache (Database.this s)); done. Qed.

Lemma stored_this id payload s : Database.this (stored id payload s) = Database.this s.
Proof. by destruct payload. Qed.

Lemma getDynamicProperty_cache_set id id' v s :
  Database.getDynamicProperty id' (Database.cache_set id v s) =
  Database.getDynamicProperty id' s.
Proof. unfold Database.cache_set. destruct (Database.cache (Database.this s)), (Database.useCache (Database.this s)); done. Qed.

Lemma getDynamicProperty_cache_delete id id' s :
  Database.getDynamicProperty id' (Database.cache_delete id s) =
  Database.getDynamicProperty id' s.
Proof. unfold Database.cache_delete. destruct (Database.cache (Database.this s)), (Database.useCache (Database.this s)); done. Qed.

Lemma getDynamicProperty_stored id payload s :
  Database.getDynamicProperty id (stored id payload s) = payload.
Proof.
  unfold Database.getDynamicProperty.
  destruct payload; simpl; by rewrite ?map_get_delete, ?map_get_set.
Qed.

Lemma getDynamicProperty_removed id s :
  Database.getDynamicProperty id (Database.remove_property id s) = VUndefined.
Proof. unfold Database.getDynamicProperty. simpl. by rewrite map_get_delete. Qed.

Lemma cached_cache_set id v s : caching s → cached id (Database.cache_set id v s) = Some v.
Proof.
  intros [Huse [c Hc]]. unfold cached, Database.cache_set. rewrite Hc, Huse. simpl.
  rewrite Huse. apply map_get_set.
Qed.

Lemma caching_stored id payload s : caching (stored id payload s) ↔ caching s.
Proof. unfold caching. by rewrite stored_this. Qed.

Lemma caching_cache_set id v s : caching s → caching (Database.cache_set id v s).
Proof.
  intros [Huse [c Hc]]. unfold caching, Database.cache_set. rewrite Hc, Huse. simpl.
  split; [done | by eexists].
Qed.

Lemma cache_hit id s v :
  caching s → cached id s = Some v →
  Database.useCache (Database.this s) && Database.cache_has id (Database.this s) = true ∧
  Database.cache_get id (Database.this s) = v.
Proof.
  intros [Huse [c Hc]]. unfold cached, Database.cache_has, Database.cache_get.
  rewrite Hc, Huse. simpl. intros ->. split; [|done].
  by rewrite bool_decide_eq_true_2.
Qed.

Lemma cache_miss id s :
  cached id s = None →
  Database.useCache (Database.this s) && Database.cache_has id (Database.this s) = false.
Proof.
  unfold cached, Database.cache_has. destruct (Database.useCache _); [|done].
  destruct (Database.cache _) as [c|]; simpl; [|done].
  intros ->. by rewrite bool_decide_eq_false_2 by by intros [? ?].
Qed.

Lemma cache_hit_inv id s :
  Database.useCache (Database.this s) && Database.cache_has id (Database.this s) = true →
  cached id s = Some (Database.cache_get id (Database.this s)).
Proof.
  unfold cached, Database.cache_has, Database.cache_get.
  destruct (Database.useCache _); [|done].
  destruct (Database.cache _) as [c|]; simpl; [|done].
  intros [v Hv]%bool_decide_eq_true. by rewrite Hv.
Qed.

(** Without the cache a read goes to the world and changes nothing. *)
Lemma get_uncached key segment s id :
  Database.useCache (Database.this s) = false →
  Database.buildId (Database.this s) key segment = Database.Returns id →
  Database.get key segment s = (read_world id s, s).
Proof.
  intros Huse Hid. rewrite (get_run _ _ _ _ Hid), Huse. cbn [andb].
  assert (Hset : ∀ v, Database.cache_set id v s = s).
  { intros v. unfold Database.cache_set. rewrite Huse. by destruct (Database.cache _). }
  unfold read_world. destruct (Database.getDynamicProperty id s);
    try done; destruct (Database.deserialize _ _) as [[]|]; by rewrite ?Hset.
Qed.

(** What [get] returns after [set], shared with the proofs about [update]. *)
Lemma read_after_write key value segment s s1 :
  Database.set H key value segment s = (Database.Returns value, s1) →
  (caching s → Database.get key segment s1 = (Database.Returns value, s1)) ∧
  (Database.useCache (Database.this s) = false →
   ∃ payload,
     Database.serialize (Database.this s) value = Database.Returns payload ∧
     Database.get key segment s1 =
     (match payload with
      | VUndefined => Database.Returns VUndefined
      | _ => Database.deserialize (Database.this s) payload
      end, s1)).
Proof.
  intros Hset. apply set_inv in Hset as [(err & [= ] & _) | (id & payload & Hid & Hser & _ & ->)].
  assert (Hid1 : Database.buildId
            (Database.this (Database.cache_set id value (stored id payload s))) key segment =
          Database.Returns id) by by rewrite cache_set_this, stored_this.
  split.
  - intros Hc. rewrite (get_run _ _ _ _ Hid1).
    assert (Hc' : caching (stored id payload s)) by by apply caching_stored.
    destruct (cache_hit id _ value (caching_cache_set id value _ Hc')
                (cached_cache_set id value _ Hc')) as [-> ->]. done.
  - intros Huse. exists payload. split; [done|].
    assert (Hsame : Database.cache_set id value (stored id payload s) = stored id payload s).
    { unfold Database.cache_set. rewrite stored_this, Huse. by destruct (Database.cache _). }
    rewrite Hsame in *. rewrite (get_uncached _ _ _ id); [|by rewrite stored_this|done].
    unfold read_world. rewrite getDynamicProperty_stored, stored_this. by destruct payload.
Qed.

(** X3: read after write.  After [set(key, value, segment)] has returned,
    [get(key, segment)] returns [value] itself when the cache is in use, and
    what [deserialize] makes of the payload, or [undefined] when the payload
    was [undefined], when it is not; the read changes nothing. *)
Theorem get_after_set key value segment s s1 :
  Database.set H key value segment s = (Database.Returns value, s1) →
  (caching s → Database.get key segment s1 = (Database.Returns value, s1)) ∧
  (Database.useCache (Database.this s) = false →
   ∃ payload,
     Database.serialize (Database.this s) value = Database.Returns payload ∧
     Database.get key segment s1 =
     (match payload with
      | VUndefined => Database.Returns VUndefined
      | _ => Database.deserialize (Database.this s) payload
      end, s1)).
Proof. apply read_after_write. Qed.

(** What [get] and [has] return after [delete], shared with the proofs
    about [update]. *)
Lemma read_after_delete key segment s r s1 :
  Database.delete H key segment s = (Database.Returns r, s1) →
  Database.get key segment s1 = (Database.Returns VUndefined, s1) ∧
  Database.has key segment s1 = (Database.Returns false, s1).
Proof.
  intros Hdel. apply delete_inv in Hdel as [(err & [= ] & _) | (id & Hid & _ & ->)].
  set (s1 := Database.cache_delete id (Database.remove_property id s)).
  assert (Hid1 : Database.buildId (Database.this s1) key segment = Database.Returns id)
    by by (unfold s1; rewrite cache_delete_this).
  assert (Hraw : Database.getDynamicProperty id s1 = VUndefined).
  { unfold s1. by rewrite getDynamicProperty_cache_delete, getDynamicProperty_removed. }
  assert (Hmiss : Database.useCache (Database.this s1) &&
                  Database.cache_has id (Database.this s1) = false).
  { unfold s1, Database.cache_delete, Database.cache_has. cbn [Database.this Database.remove_property].
    destruct (Database.cache (Database.this s)) as [c|] eqn:Hc.
    - destruct (Database.useCache (Database.this s)) eqn:Huse; cbn; [|by rewrite Huse].
      rewrite map_get_delete, bool_decide_eq_false_2 by by intros [? ?]. apply andb_false_r.
    - cbn. rewrite Hc. apply andb_false_r. }
  split.
  - rewrite (get_run _ _ _ _ Hid1), Hmiss. unfold read_world. by rewrite Hraw.
  - rewrite (has_run _ _ _ _ Hid1), Hmiss, Hraw. done.
Qed.

(** X4: after [delete(key, segment)] has returned, [get] returns [undefined]
    and [has] returns [false], with and without the cache. *)
Theorem absent_after_delete key segment s r s1 :
  Database.delete H key segment s = (Database.Returns r, s1) →
  Database.get key segment s1 = (Database.Returns VUndefined, s1) ∧
  Database.has key segment s1 = (Database.Returns false, s1).
Proof. apply read_after_delete. Qed.

(** X5: with the cache in use, a key set to a value whose payload is
    [undefined] has no property in the world, and [has] still returns
    [true] for it. *)
Theorem has_after_set_without_payload key value segment s s1 id :
  caching s →
  Database.buildId (Database.this s) key segment = Database.Returns id →
  Database.serialize (Database.this s) value = Database.Returns VUndefined →
  Database.set H key value segment s = (Database.Returns value, s1) →
  Database.has key segment s1 = (Database.Returns true, s1) ∧
  id ∉ Database.getDynamicPropertyIds s1.
Proof.
  intros Hc Hid Hser Hset.
  apply set_inv in Hset as [(err & [= ] & _) | (id' & payload & Hid' & Hser' & _ & ->)].
  rewrite Hid in Hid'. injection Hid' as <-. rewrite Hser in Hser'. injection Hser' as <-.
  assert (Hc' : caching (stored id VUndefined s)) by by apply caching_stored.
  split.
  - rewrite (has_run _ _ _ id) by by rewrite cache_set_this, stored_this.
    by destruct (cache_hit id _ value (caching_cache_set id value _ Hc')
                   (cached_cache_set id value _ Hc')) as [-> _].
  - unfold Database.getDynamicPropertyIds, Database.cache_set.
    destruct Hc' as [-> [c ->]]. cbn.
    apply map_get_none, map_get_delete.
Qed.
End StoreReads.

(** ** Runs of the store are sequences of its state changes *)

Lemma prefix_app (p r : string) : String.prefix p (p ++ r) = true.
Proof.
  induction p as [|a p IH]; [by destruct r|].
  rewrite append_cons. simpl. by destruct (ascii_dec a a).
Qed.

Lemma prefix_inv (p s : string) : String.prefix p s = true → ∃ r, s = (p ++ r)%string.
Proof.
  revert s. induction p as [|a p IH]; intros s; [by exists s|].
  destruct s as [|b s]; [done|]. simpl. destruct (ascii_dec a b) as [->|]; [|done].
  intros [r ->]%IH. by exists r.
Qed.

Lemma prefix_trans (p q s : string) :
  String.prefix p q = true → String.prefix q s = true → String.prefix p s = true.
Proof.
  intros [r ->]%prefix_inv [r' ->]%prefix_inv. rewrite append_assoc. apply prefix_app.
Qed.

Lemma prefix_of_none db :
  Database.prefix_of db None = (Database.name db ++ Database.separator db)%string.
Proof. done. Qed.

Lemma prefix_of_under db segment :
  String.prefix (Database.prefix_of db None) (Database.prefix_of db segment) = true.
Proof.
  destruct segment as [g|]; [|apply prefix_app with (r := "") || idtac].
  - unfold Database.prefix_of. destruct (String.eqb g "").
    + rewrite <- (append_nil_r (_ ++ _)) at 2. apply prefix_app.
    + change (Database.join (Database.separator db) [Database.name db])
        with (Database.name db).
      rewrite join_two, !append_assoc. rewrite <- append_assoc. apply prefix_app.
  - rewrite <- (append_nil_r (Database.prefix_of db None)) at 2. apply prefix_app.
Qed.

Lemma buildId_under db key segment id :
  Database.buildId db key segment = Database.Returns id →
  String.prefix (Database.prefix_of db None) id = true.
Proof.
  intros (k & _ & _ & _ & [[_ ->] | (g & _ & _ & _ & ->)])%buildId_returns;
    rewrite prefix_of_none, <- append_assoc; apply prefix_app.
Qed.

Lemma keeps_ret {A} (a : A) : keeps (Database.ret a).
Proof. intros s r s' [= _ <-]. apply rtc_refl. Qed.

Lemma keeps_throw {A} err : keeps (@Database.throw A err).
Proof. intros s r s' [= _ <-]. apply rtc_refl. Qed.

Lemma keeps_lift {A} (o : Database.Outcome A) : keeps (Database.lift o).
Proof. intros s r s' [= _ <-]. apply rtc_refl. Qed.

Lemma keeps_gets {A} (f : Database.State → A) : keeps (Database.gets f).
Proof. intros s r s' [= _ <-]. apply rtc_refl. Qed.

Lemma keeps_bind {A B} (m : Database.D A) (k : A → Database.D B) :
  keeps m → (∀ a, keeps (k a)) → keeps (Database.bind m k).
Proof.
  intros Hm Hk s r s'. unfold Database.bind.
  destruct (m s) as [[a|err] s1] eqn:Hms.
  - intros Hka. eapply rtc_trans; [by eapply Hm | by eapply Hk].
  - intros [= _ <-]. by eapply Hm.
Qed.

Lemma same_options_refl db : same_options db db.
Proof. exists (Database.cache db), (Database.cachePrimed db). by destruct db. Qed.

Lemma same_options_trans a b c : same_options a b → same_options b c → same_options a c.
Proof. intros (c1 & p1 & ->) (c2 & p2 & ->). by exists c2, p2. Qed.

Lemma change_options s s' : change s s' → same_options (Database.this s) (Database.this s').
Proof.
  intros [id value s0 _ _ _ | id value payload s0 _ _ | id s0 _ | s0].
  - unfold Database.cache_set.
    destruct (Database.cache (Database.this s0)), (Database.useCache (Database.this s0));
      try apply same_options_refl. by eexists _, _.
  - unfold Database.cache_set. rewrite stored_this.
    destruct (Database.cache (Database.this s0)), (Database.useCache (Database.this s0));
      cbn [Database.this]; rewrite ?stored_this; try apply same_options_refl. by eexists _, _.
  - unfold Database.cache_delete. cbn [Database.this Database.remove_property].
    destruct (Database.cache (Database.this s0)), (Database.useCache (Database.this s0));
      cbn [Database.this]; try apply same_options_refl. by eexists _, _.
  - by eexists _, _.
Qed.

Lemma evolves_options s s' : evolves s s' → same_options (Database.this s) (Database.this s').
Proof.
  induction 1 as [|s s1 s2 Hstep _ IH]; [apply same_options_refl|].
  eapply same_options_trans; [by apply change_options | done].
Qed.

Lemma prefix_of_same_options db db' segment :
  same_options db db' → Database.prefix_of db' segment = Database.prefix_of db segment.
Proof. by intros (c & p & ->). Qed.

Lemma under_evolves id s s' : evolves s s' → under id s → under id s'.
Proof.
  intros Hev%evolves_options. unfold under. by rewrite (prefix_of_same_options _ _ _ Hev).
Qed.

Lemma keeps_for_each {A} (l : list A) (body : A → Database.D unit) :
  (∀ x, keeps (body x)) → keeps (Database.for_each l body).
Proof.
  intros Hbody. induction l as [|x l IH]; [apply keeps_ret|].
  apply keeps_bind; [apply Hbody | by intros _].
Qed.

Lemma keeps_collect {A B} (l : list A) (f : A → Database.D (option B)) :
  (∀ x, keeps (f x)) → keeps (Database.collect l f).
Proof.
  intros Hf. induction l as [|x l IH]; [apply keeps_ret|].
  cbn [Database.collect]. apply keeps_bind; [apply Hf|]. intros y.
  apply keeps_bind; [apply IH|]. intros ys. apply keeps_ret.
Qed.

Lemma keeps_listIds segment : keeps (Database.listIds segment).
Proof. apply keeps_gets. Qed.

Lemma keeps_has key segment : keeps (Database.has key segment).
Proof.
  unfold Database.has. apply keeps_bind.
  { apply keeps_bind; [apply keeps_gets | intros; apply keeps_lift]. }
  intros id. apply keeps_bind; [apply keeps_gets|]. intros db.
  destruct (_ && _); [apply keeps_ret|].
  apply keeps_bind; [apply keeps_gets | intros; apply keeps_ret].
Qed.

Lemma keeps_read_item id : keeps (Database.read_item id).
Proof.
  unfold Database.read_item.
  repeat (first [apply keeps_gets | apply keeps_lift | apply keeps_ret
                | apply keeps_bind | intros ?]).
Qed.

Lemma getDynamicProperty_some id s :
  Database.getDynamicProperty id s ≠ VUndefined →
  is_Some (map_get id (Database.dynamicProperties s)).
Proof.
  unfold Database.getDynamicProperty.
  destruct (map_get id _); [by eexists | done].
Qed.

Lemma keeps_get key segment : keeps (Database.get key segment).
Proof.
  intros s r s'. unfold Database.get. drun.
  destruct (Database.buildId (Database.this s) key segment) as [id|err] eqn:Hid;
    [|intros [= _ <-]; apply rtc_refl].
  destruct (_ && _); [intros [= _ <-]; apply rtc_refl|].
  destruct (Database.getDynamicProperty id s) eqn:Hraw;
    try (intros [= _ <-]; apply rtc_refl);
    (destruct (Database.deserialize _ _) as [value|err] eqn:Hde;
      intros [= _ <-]; [|apply rtc_refl];
     apply rtc_once, ch_load;
      [by eapply buildId_under
      |apply getDynamicProperty_some; by rewrite Hraw
      |by rewrite Hraw]).
Qed.

Section StoreRuns.
Context (H : Database.Host).

Lemma keeps_set key value segment : keeps (Database.set H key value segment).
Proof.
  intros s r s' [(err & _ & ->) | (id & payload & Hid & Hser & _ & ->)]%set_inv;
    [apply rtc_refl|].
  apply rtc_once, ch_store; [by eapply buildId_under | done].
Qed.

Lemma keeps_delete key segment : keeps (Database.delete H key segment).
Proof.
  intros s r s' [(err & _ & ->) | (id & Hid & _ & ->)]%delete_inv; [apply rtc_refl|].
  apply rtc_once, ch_remove. by eapply buildId_under.
Qed.

Lemma keeps_update key updater segment : keeps (Database.update H key updater segment).
Proof.
  unfold Database.update. destruct updater as [f|]; [|apply keeps_throw].
  apply keeps_bind; [apply keeps_get|]. intros current.
  apply keeps_bind; [apply keeps_lift|]. intros next.
  destruct next; try apply keeps_set.
  apply keeps_bind; [apply keeps_delete | intros; apply keeps_ret].
Qed.

Lemma clear_loop db ids s r s' :
  same_options db (Database.this s) →
  Forall (λ id, String.prefix (Database.prefix_of db None) id = true) ids →
  Database.for_each ids (λ id,
    Database.bind (Database.setDynamicProperty H id VUndefined)
      (λ _, Database.modify (Database.cache_delete id))) s = (r, s') →
  evolves s s' ∧
  (r = Database.Returns tt →
   s' = foldl (λ s id, Database.cache_delete id (Database.remove_property id s)) s ids) ∧
  ((∀ id, Database.writeError H id VUndefined = None) → r = Database.Returns tt).
Proof.
  intros Hdb Hids. revert s Hdb. induction Hids as [|id ids Hid _ IH]; intros s Hdb.
  - intros [= <- <-]. split_and!; [apply rtc_refl | done..].
  - cbn [Database.for_each foldl]. unfold Database.bind at 1.
    unfold Database.setDynamicProperty, Database.bind at 1.
    destruct (Database.writeError H id VUndefined) eqn:Hrefused.
    { intros [= <- <-]. split_and!; [apply rtc_refl | done |].
      intros Hok. by rewrite Hok in Hrefused. }
    cbn.
    assert (Hstep : change s (Database.cache_delete id (Database.remove_property id s))).
    { apply ch_remove. unfold under, startsWith.
      by rewrite (prefix_of_same_options _ _ _ Hdb). }
    intros Hrest. apply IH in Hrest as (Hev & Hret & Hok).
    + split_and!; [|done..]. eapply rtc_l; done.
    + eapply same_options_trans; [done | by apply change_options].
Qed.

Lemma listIds_under segment s :
  Forall (λ id, String.prefix (Database.prefix_of (Database.this s) None) id = true)
    (filter (λ id, startsWith id (Database.prefix_of (Database.this s) segment) = true)
       (Database.getDynamicPropertyIds s)).
Proof.
  apply Forall_forall. intros id [Hid _]%list_elem_of_filter.
  eapply prefix_trans; [apply prefix_of_under | exact Hid].
Qed.

Lemma keeps_clear segment : keeps (Database.clear H segment).
Proof.
  intros s r s'. unfold Database.clear, Database.listIds.
  unfold Database.bind at 1, Database.gets at 1. cbv beta iota.
  unfold Database.bind at 1.
  destruct (Database.for_each _ _ s) as [r1 s1] eqn:Hloop.
  apply (clear_loop (Database.this s)) in Hloop as (Hev & _ & _);
    [|apply same_options_refl | apply listIds_under].
  destruct r1; by intros [= _ <-].
Qed.
End StoreRuns.

Lemma refresh_one_inv pre id s r s' :
  Database.refresh_one pre id s = (r, s') →
  s' = s ∨
  ∃ value, String.prefix pre id = true ∧
    Database.deserialize (Database.this s) (Database.getDynamicProperty id s) =
      Database.Returns value ∧
    s' = Database.cache_set id value s ∧
    ∃ p, Database.parseId (Database.this s) id = Some p ∧
         r = Database.Returns
               (Some (Database.mkItem (Database.parsed_key p) (Database.parsed_segment p) value)).
Proof.
  unfold Database.refresh_one, startsWith.
  destruct (String.prefix pre id) eqn:Hpre; cbn [negb]; [|intros [= _ <-]; by left].
  drun. destruct (Database.parseId (Database.this s) id) as [p|]; [|intros [= _ <-]; by left].
  destruct (Database.deserialize _ _) as [value|err] eqn:Hde; [|intros [= _ <-]; by left].
  intros [= <- <-]. right. exists value. split_and!; [done..|]. by exists p.
Qed.

Lemma dynamicProperties_cache_set id v s :
  Database.dynamicProperties (Database.cache_set id v s) = Database.dynamicProperties s.
Proof.
  unfold Database.cache_set.
  by destruct (Database.cache (Database.this s)), (Database.useCache (Database.this s)).
Qed.

Lemma refresh_loop db segment ids s r s' :
  same_options db (Database.this s) →
  ids ⊆ Database.getDynamicPropertyIds s →
  Database.collect ids (Database.refresh_one (Database.prefix_of db segment)) s = (r, s') →
  evolves s s' ∧ Database.dynamicProperties s' = Database.dynamicProperties s.
Proof.
  revert s r s'. induction ids as [|id ids IH]; intros s r s' Hdb Hids.
  - intros [= _ <-]. split; [apply rtc_refl | done].
  - cbn [Database.collect]. unfold Database.bind at 1.
    destruct (Database.refresh_one _ id s) as [r1 s1] eqn:Hone.
    assert (Hs1 : evolves s s1 ∧ Database.dynamicProperties s1 = Database.dynamicProperties s).
    { apply refresh_one_inv in Hone as [-> | (value & Hpre & Hde & -> & _)];
        [split; [apply rtc_refl | done]|].
      split; [|apply dynamicProperties_cache_set].
      apply rtc_once, ch_load; [| |done].
      - unfold under, startsWith. rewrite (prefix_of_same_options _ _ None Hdb).
        eapply prefix_trans; [apply prefix_of_under | exact Hpre].
      - apply map_get_is_some, Hids. by left. }
    destruct Hs1 as [Hev1 Hw1].
    destruct r1 as [y|err]; [|intros [= _ <-]; done].
    unfold Database.bind at 1.
    destruct (Database.collect ids _ s1) as [r2 s2] eqn:Hrest.
    apply IH in Hrest as [Hev2 Hw2].
    + destruct r2; intros [= _ <-]; (split; [by eapply rtc_trans | by rewrite Hw2]).
    + eapply same_options_trans; [done | by apply evolves_options].
    + unfold Database.getDynamicPropertyIds. rewrite Hw1. intros x Hx. apply Hids. by right.
Qed.

Lemma keeps_refreshCache segment : keeps (Database.refreshCache segment).
Proof.
  intros s r s'. unfold Database.refreshCache.
  unfold Database.bind at 1, Database.gets at 1. cbv beta iota.
  destruct (_ || _); [intros [= _ <-]; apply rtc_refl|].
  unfold Database.bind at 1, Database.gets at 1. cbv beta iota.
  unfold Database.bind at 1.
  destruct (Database.collect _ _ s) as [r1 s1] eqn:Hloop.
  apply refresh_loop in Hloop as [Hev _]; [|apply same_options_refl | done].
  destruct r1; [|by intros [= _ <-]].
  drun. intros [= _ <-]. eapply rtc_r; [done | apply ch_prime].
Qed.

Lemma keeps_entries segment : keeps (Database.entries segment).
Proof.
  unfold Database.entries. apply keeps_bind; [apply keeps_gets|]. intros db.
  apply keeps_bind.
  - destruct (Database.useCache db); [|apply keeps_ret].
    apply keeps_bind; [apply keeps_refreshCache|]. intros _.
    apply keeps_bind; [apply keeps_gets|]. intros db'.
    destruct (Database.cache db'); apply keeps_ret.
  - intros [result|]; [apply keeps_ret|].
    apply keeps_bind; [apply keeps_listIds|]. intros ids.
    apply keeps_collect. apply keeps_read_item.
Qed.

Lemma perform_evolves H c s : evolves s (Database.perform H c s).
Proof.
  destruct c; cbn [Database.perform];
    match goal with |- evolves _ (?m s).2 =>
      destruct (m s) as [r s'] eqn:Hrun; cbn [snd] end.
  - by eapply keeps_get.
  - by eapply keeps_set.
  - by eapply keeps_delete.
  - by eapply keeps_has.
  - by eapply keeps_update.
  - by eapply keeps_entries.
  - by eapply keeps_clear.
  - by eapply keeps_refreshCache.
  - by eapply keeps_listIds.
Qed.

Lemma perform_all_evolves H calls s : evolves s (Database.perform_all H calls s).
Proof.
  revert s. induction calls as [|c calls IH]; intros s; [apply rtc_refl|].
  cbn. eapply rtc_trans; [apply perform_evolves | apply IH].
Qed.

(** ** What the store writes, and where *)

Lemma under_not_eq id id' s : under id' s → ¬ under id s → id ≠ id'.
Proof. by intros Hid' Hid ->. Qed.

Lemma map_get_stored id id' payload s :
  id' ≠ id →
  map_get id' (Database.dynamicProperties (stored id payload s)) =
  map_get id' (Database.dynamicProperties s).
Proof.
  intros Hne. destruct payload; cbn; by rewrite ?map_get_delete_ne, ?map_get_set_ne.
Qed.

Lemma dynamicProperties_cache_delete id s :
  Database.dynamicProperties (Database.cache_delete id s) = Database.dynamicProperties s.
Proof.
  unfold Database.cache_delete.
  by destruct (Database.cache (Database.this s)), (Database.useCache (Database.this s)).
Qed.

Lemma change_frame s s' id :
  change s s' → ¬ under id s →
  map_get id (Database.dynamicProperties s') = map_get id (Database.dynamicProperties s).
Proof.
  intros [id' value s0 _ _ _ | id' value payload s0 Hu _ | id' s0 Hu | s0] Hid.
  - by rewrite dynamicProperties_cache_set.
  - rewrite dynamicProperties_cache_set. apply map_get_stored. by eapply under_not_eq.
  - rewrite dynamicProperties_cache_delete. cbn. apply map_get_delete_ne.
    by eapply under_not_eq.
  - done.
Qed.

Lemma evolves_frame s s' id :
  evolves s s' → ¬ under id s →
  map_get id (Database.dynamicProperties s') = map_get id (Database.dynamicProperties s).
Proof.
  induction 1 as [|s s1 s2 Hstep Hrest IH]; intros Hid; [done|].
  rewrite IH; [by apply change_frame|].
  intros Hu. apply Hid. revert Hu. unfold under.
  by rewrite (prefix_of_same_options _ _ _ (change_options _ _ Hstep)).
Qed.

(** The frame of a database: what lies outside its prefix is not written. *)
Lemma frame_outside_prefix H calls s id :
  startsWith id (Database.name (Database.this s) ++ Database.separator (Database.this s))
    = false →
  map_get id (Database.dynamicProperties (Database.perform_all H calls s)) =
  map_get id (Database.dynamicProperties s).
Proof.
  intros Hid. apply evolves_frame; [apply perform_all_evolves|].
  unfold under. rewrite prefix_of_none. by rewrite Hid.
Qed.

(** X6: whatever is called on a database, in any order, a property of the
    world whose id does not start with the name and the separator of the
    database is left as it is. *)
Theorem writes_stay_under_prefix H calls s id :
  startsWith id (Database.name (Database.this s) ++ Database.separator (Database.this s))
    = false →
  map_get id (Database.dynamicProperties (Database.perform_all H calls s)) =
  map_get id (Database.dynamicProperties s).
Proof. apply frame_outside_prefix. Qed.

Lemma writes_stay_under_prefix_witness :
  let s := Database.mkState plots_cached [("towns:spawn", VNum 7)] in
  let calls := [Database.CallSet (VStr "owner") (VStr "ann") VUndefined;
                Database.CallClear None] in
  map_get "towns:spawn" (Database.dynamicProperties (Database.perform_all lenient calls s)) =
  map_get "towns:spawn" (Database.dynamicProperties s).
Proof.
  intros s calls. apply (writes_stay_under_prefix lenient calls s "towns:spawn").
  reflexivity.
Defined.

(** The prefixes of two databases with one one-character separator and
    different names that do not contain it: no id is under both. *)
Lemma prefixes_disjoint c (n1 n2 r1 r2 : string) :
  Database.includes (String c "") n1 = false →
  Database.includes (String c "") n2 = false →
  (n1 ++ String c r1)%string = (n2 ++ String c r2)%string → n1 = n2.
Proof.
  revert n2. induction n1 as [|a n1 IH]; intros n2 H1 H2.
  - destruct n2 as [|b n2]; [done|]. rewrite append_nil_l, append_cons. intros [= <- _].
    rewrite includes_char, bool_decide_eq_true_2 in H2; done.
  - destruct n2 as [|b n2].
    + rewrite append_nil_l, append_cons. intros [= -> _].
      rewrite includes_char, bool_decide_eq_true_2 in H1; done.
    + rewrite !append_cons. intros [= -> Hrest]. f_equal.
      rewrite includes_char in H1, H2.
      apply orb_false_iff in H1 as [_ H1]. apply orb_false_iff in H2 as [_ H2].
      by apply IH.
Qed.

(** X7: two databases do not interfere.  With the same one-character
    separator and different names that do not contain it, whatever is called
    on the first leaves the property of every key of the second as it is. *)
Theorem databases_do_not_interfere H calls s db2 c key segment id :
  Database.separator (Database.this s) = String c "" →
  Database.separator db2 = String c "" →
  Database.includes (String c "") (Database.name (Database.this s)) = false →
  Database.includes (String c "") (Database.name db2) = false →
  Database.name (Database.this s) ≠ Database.name db2 →
  Database.buildId db2 key segment = Database.Returns id →
  map_get id (Database.dynamicProperties (Database.perform_all H calls s)) =
  map_get id (Database.dynamicProperties s).
Proof.
  intros Hsep1 Hsep2 Hn1 Hn2 Hne Hid. apply frame_outside_prefix.
  destruct (startsWith id _) eqn:Hpre; [|done]. exfalso. apply Hne.
  apply prefix_inv in Hpre as [r1 Hr1].
  apply buildId_under, prefix_inv in Hid as [r2 Hr2].
  rewrite prefix_of_none, Hsep2 in Hr2. rewrite Hsep1 in Hr1.
  rewrite append_assoc, char_append in Hr1, Hr2.
  eapply prefixes_disjoint; [done..|]. by rewrite <- Hr1, <- Hr2.
Qed.

Lemma databases_do_not_interfere_witness :
  let s := Database.mkState plots_cached [("towns:spawn", VNum 7)] in
  let towns := Database.mkDatabase "towns" ":" false false None
                 Database.Returns Database.Returns None false in
  let calls := [Database.CallSet (VStr "spawn") (VStr "here") VUndefined;
                Database.CallClear None] in
  map_get "towns:spawn" (Database.dynamicProperties (Database.perform_all lenient calls s)) =
  map_get "towns:spawn" (Database.dynamicProperties s).
Proof.
  intros s towns calls.
  apply (databases_do_not_interfere lenient calls s towns ":" (VStr "spawn") VUndefined
           "towns:spawn"); try reflexivity.
  vm_compute. discriminate.
Defined.

(** ** The cache and the world agree *)

Lemma change_world_ok s s' : change s s' → world_ok s → world_ok s'.
Proof.
  intros [id value s0 _ _ _ | id value payload s0 _ _ | id s0 _ | s0] Hok id' v.
  - rewrite dynamicProperties_cache_set. apply Hok.
  - rewrite dynamicProperties_cache_set.
    destruct (decide (id' = id)) as [->|Hne].
    + destruct payload; cbn; rewrite ?map_get_delete, ?map_get_set; by intros [= <-].
    + rewrite map_get_stored by done. apply Hok.
  - rewrite dynamicProperties_cache_delete. cbn.
    destruct (decide (id' = id)) as [->|Hne].
    + by rewrite map_get_delete.
    + rewrite map_get_delete_ne by done. apply Hok.
  - apply Hok.
Qed.

Lemma cached_cache_set_ne id id' v s :
  id' ≠ id → cached id' (Database.cache_set id v s) = cached id' s.
Proof.
  intros Hne. unfold cached, Database.cache_set.
  destruct (Database.cache (Database.this s)) as [c|] eqn:Hc; [|by rewrite Hc].
  destruct (Database.useCache (Database.this s)) eqn:Huse; cbn; rewrite ?Huse, ?Hc; [|done].
  cbn. by rewrite map_get_set_ne.
Qed.

Lemma cached_cache_set_eq id v s w :
  cached id (Database.cache_set id v s) = Some w → w = v.
Proof.
  unfold cached, Database.cache_set.
  destruct (Database.cache (Database.this s)) as [c|] eqn:Hc.
  - destruct (Database.useCache (Database.this s)) eqn:Huse; cbn; rewrite ?Huse; [|done].
    cbn. rewrite map_get_set. by intros [= <-].
  - rewrite Hc. by destruct (Database.useCache _).
Qed.

Lemma cached_cache_delete id id' s :
  cached id' (Database.cache_delete id s) =
  if decide (id' = id) then None else cached id' s.
Proof.
  unfold cached, Database.cache_delete.
  destruct (Database.cache (Database.this s)) as [c|] eqn:Hc.
  - destruct (Database.useCache (Database.this s)) eqn:Huse; cbn; rewrite ?Huse, ?Hc.
    + cbn. destruct (decide (id' = id)) as [->|Hne];
        [apply map_get_delete | by apply map_get_delete_ne].
    + by destruct (decide _).
  - rewrite Hc. destruct (Database.useCache _); by destruct (decide _).
Qed.

Lemma read_world_ext id s' s :
  Database.deserialize (Database.this s') = Database.deserialize (Database.this s) →
  map_get id (Database.dynamicProperties s') = map_get id (Database.dynamicProperties s) →
  read_world id s' = read_world id s.
Proof.
  intros Hde Hw. unfold read_world, Database.getDynamicProperty. by rewrite Hde, Hw.
Qed.

Lemma cache_set_deserialize id v s :
  Database.deserialize (Database.this (Database.cache_set id v s)) =
  Database.deserialize (Database.this s).
Proof.
  unfold Database.cache_set.
  by destruct (Database.cache (Database.this s)), (Database.useCache (Database.this s)).
Qed.

Lemma cache_delete_deserialize id s :
  Database.deserialize (Database.this (Database.cache_delete id s)) =
  Database.deserialize (Database.this s).
Proof.
  unfold Database.cache_delete.
  by destruct (Database.cache (Database.this s)), (Database.useCache (Database.this s)).
Qed.

Lemma cached_stored id id' payload s : cached id' (stored id payload s) = cached id' s.
Proof. by destruct payload. Qed.

Lemma change_coherent s s' :
  codec (Database.this s) → change s s' → world_ok s → coherent s → coherent s'.
Proof.
  intros Hcodec Hch Hok Hco id' v.
  destruct Hch as [id value s0 _ Hin Hde | id value payload s0 _ Hser | id s0 _ | s0].
  - rewrite (read_world_ext id' (Database.cache_set id value s0) s0);
      [|apply cache_set_deserialize | by rewrite dynamicProperties_cache_set].
    destruct (decide (id' = id)) as [->|Hne].
    + intros ->%cached_cache_set_eq. unfold read_world.
      destruct Hin as [raw Hraw]. specialize (Hok _ _ Hraw).
      revert Hde. unfold Database.getDynamicProperty. rewrite Hraw. cbn.
      by destruct raw.
    + rewrite cached_cache_set_ne by done. apply Hco.
  - destruct (decide (id' = id)) as [->|Hne].
    + intros ->%cached_cache_set_eq. unfold read_world.
      rewrite getDynamicProperty_cache_set, getDynamicProperty_stored.
      rewrite cache_set_deserialize, stored_this.
      specialize (Hcodec _ _ Hser). destruct payload; by rewrite ?Hcodec.
    + rewrite cached_cache_set_ne, cached_stored by done.
      rewrite (read_world_ext id' (Database.cache_set id value (stored id payload s0)) s0);
        [apply Hco | |].
      * by rewrite cache_set_deserialize, stored_this.
      * rewrite dynamicProperties_cache_set. by apply map_get_stored.
  - rewrite cached_cache_delete. destruct (decide (id' = id)) as [->|Hne]; [done|].
    change (cached id' (Database.remove_property id s0)) with (cached id' s0).
    rewrite (read_world_ext id' (Database.cache_delete id (Database.remove_property id s0)) s0);
      [apply Hco | |].
    + by rewrite cache_delete_deserialize.
    + rewrite dynamicProperties_cache_delete. cbn. by apply map_get_delete_ne.
  - apply Hco.
Qed.

Lemma codec_same_options db db' : same_options db db' → codec db → codec db'.
Proof. by intros (c & p & ->). Qed.

Lemma evolves_coherent s s' :
  codec (Database.this s) → evolves s s' →
  world_ok s → coherent s → world_ok s' ∧ coherent s'.
Proof.
  intros Hcodec Hev. induction Hev as [|s s1 s2 Hstep _ IH]; [done|]. intros Hok Hco.
  apply IH.
  - eapply codec_same_options; [by apply change_options | done].
  - by eapply change_world_ok.
  - by eapply change_coherent.
Qed.

(** The result of [get] when the cache agrees with the world. *)
Lemma get_coherent key segment s id :
  coherent s →
  Database.buildId (Database.this s) key segment = Database.Returns id →
  (Database.get key segment s).1 = read_world id s.
Proof.
  intros Hco Hid. rewrite (get_run _ _ _ _ Hid).
  destruct (_ && _) eqn:Hhit.
  - cbn. symmetry. by apply Hco, cache_hit_inv.
  - destruct (read_world id s) as [[]|] eqn:Hread; try done.
    by destruct (Database.getDynamicProperty id s).
Qed.

Lemma constructor_inv name options world s :
  Database.constructor name options world = Database.Returns s →
  ∃ n db,
    name = VStr n ∧
    db = Database.mkDatabase n (default ":" (Database.opt_separator options))
           (default true (Database.opt_useCache options))
           (default true (Database.opt_eagerLoad options))
           (Database.opt_validateKey options)
           (default (λ value, Database.Returns value) (Database.opt_serialize options))
           (default (λ raw, Database.Returns raw) (Database.opt_deserialize options))
           (if default true (Database.opt_useCache options) then Some [] else None) false ∧
    if Database.useCache db && Database.eagerLoad db
    then ∃ loaded, Database.refreshCache None (Database.mkState db world) =
                   (Database.Returns loaded, s)
    else s = Database.mkState db world.
Proof.
  unfold Database.constructor. destruct name as [| | | |n| | | |]; try done.
  destruct (String.eqb (trim n) ""); [done|].
  intros Hs. eexists n, _. split_and!; [done..|]. cbn [Database.useCache Database.eagerLoad].
  destruct (_ && _); [|by injection Hs as <-].
  destruct (Database.refreshCache None _) as [[loaded|err] s1]; [|done].
  injection Hs as <-. by exists loaded.
Qed.

Lemma constructor_coherent name options world s :
  Database.constructor name options world = Database.Returns s →
  (∀ id v, map_get id world = Some v → v ≠ VUndefined) →
  codec (Database.this s) →
  world_ok s ∧ coherent s.
Proof.
  intros (n & db & -> & Hdb & Hs)%constructor_inv Hworld Hcodec.
  assert (Hco0 : coherent (Database.mkState db world)).
  { intros id v. unfold cached. cbn. rewrite Hdb. cbn.
    destruct (default true (Database.opt_useCache options)); done. }
  destruct (Database.useCache db && Database.eagerLoad db); [|by subst s].
  destruct Hs as [loaded Hs]. apply keeps_refreshCache in Hs.
  eapply evolves_coherent; [|done..].
  apply evolves_options in Hs as (c & p & Heq). rewrite Heq in Hcodec. exact Hcodec.
Qed.

(** X8: the cache never serves a stale value.  Take a database made by the
    constructor in a world that holds no [undefined] property, whose
    [deserialize] undoes its [serialize] (the default ones do).  After any
    sequence of calls on it, [get] returns what a read of the world gives:
    [undefined] when the property is not there, the deserialized property
    otherwise. *)
Theorem cached_reads_are_fresh H name options world s0 calls key segment id :
  Database.constructor name options world = Database.Returns s0 →
  (∀ id v, map_get id world = Some v → v ≠ VUndefined) →
  codec (Database.this s0) →
  let s := Database.perform_all H calls s0 in
  Database.buildId (Database.this s) key segment = Database.Returns id →
  (Database.get key segment s).1 = read_world id s.
Proof.
  intros Hnew Hworld Hcodec s Hid.
  destruct (constructor_coherent _ _ _ _ Hnew Hworld Hcodec) as [Hok Hco].
  apply get_coherent; [|done].
  by eapply evolves_coherent; [| apply perform_all_evolves | |].
Qed.

Lemma default_codec db :
  Database.serialize db = Database.Returns → Database.deserialize db = Database.Returns →
  codec db.
Proof. intros Hs Hd v payload. rewrite Hs, Hd. intros [= <-]. by destruct v. Qed.

Lemma cached_reads_are_fresh_witness :
  let world := [("plots:owner", VStr "ann")] in
  let s0 := Database.mkState
              (Database.mkDatabase "plots" ":" true true None
                 (λ value, Database.Returns value) (λ raw, Database.Returns raw)
                 (Some [("plots:owner", VStr "ann")]) true) world in
  let calls := [Database.CallSet (VStr "owner") (VStr "bob") VUndefined;
                Database.CallGet (VStr "owner") VUndefined;
                Database.CallDelete (VStr "owner") VUndefined] in
  let s := Database.perform_all lenient calls s0 in
  (Database.get (VStr "owner") VUndefined s).1 = read_world "plots:owner" s.
Proof.
  intros world s0 calls s.
  apply (cached_reads_are_fresh lenient (VStr "plots") Database.default_options world s0
           calls (VStr "owner") VUndefined "plots:owner").
  - reflexivity.
  - intros id v. simpl. destruct (String.eqb id "plots:owner"); [|done]. by intros [= <-].
  - by apply default_codec.
  - reflexivity.
Defined.

(** ** Calls that fail, calls that only read *)

Section StoreCalls.
Context (H : Database.Host).

(** X9: a call of [get], [set], [delete] or [has] that throws has changed
    neither the world nor the cache. *)
Theorem failed_call_changes_nothing c s err :
  keyed c = true → thrown H c s = Some err → Database.perform H c s = s.
Proof.
  destruct c as [k g|k v g|k g|k g| | | | |]; try done; intros _;
    cbn [thrown Database.perform].
  - destruct (Database.buildId (Database.this s) k g) as [id|e] eqn:Hid.
    + rewrite (get_run _ _ _ _ Hid). destruct (_ && _); [done|].
      destruct (read_world id s) as [[]|]; try done.
      by destruct (Database.getDynamicProperty id s).
    + unfold Database.get. drun. by rewrite Hid.
  - destruct (Database.set H k v g s) as [r s1] eqn:Hset.
    apply set_inv in Hset as [(e & -> & ->) | (id & payload & _ & _ & -> & _)]; done.
  - destruct (Database.delete H k g s) as [r s1] eqn:Hdel.
    apply delete_inv in Hdel as [(e & -> & ->) | (id & _ & -> & _)]; done.
  - destruct (Database.buildId (Database.this s) k g) as [id|e] eqn:Hid.
    + by rewrite (has_run _ _ _ _ Hid).
    + unfold Database.has. drun. by rewrite Hid.
Qed.

(** X10: with an empty separator no key is accepted: [get], [set], [delete]
    and [has] throw for every key and every segment. *)
Theorem empty_separator_refuses_every_key c s :
  Database.separator (Database.this s) = "" → keyed c = true →
  ∃ err, thrown H c s = Some err.
Proof.
  intros Hsep.
  assert (Hid : ∀ k g, ∃ err, Database.buildId (Database.this s) k g = Database.Throws err)
    by (intros; by apply buildId_empty_separator).
  destruct c as [k g|k v g|k g|k g| | | | |]; try done; intros _; cbn [thrown];
    destruct (Hid k g) as [err Herr]; exists err.
  - unfold Database.get. drun. by rewrite Herr.
  - unfold Database.set. drun. by rewrite Herr.
  - unfold Database.delete. drun. by rewrite Herr.
  - unfold Database.has. drun. by rewrite Herr.
Qed.

Lemma collect_read_item_state ids s r s' :
  Database.collect ids Database.read_item s = (r, s') → s' = s.
Proof.
  revert r s'. induction ids as [|id ids IH]; intros r s'; [by intros [= _ <-]|].
  cbn [Database.collect]. unfold Database.bind at 1, Database.read_item at 1. drun.
  destruct (Database.deserialize _ _); [|by intros [= _ <-]].
  destruct (Database.collect ids _ s) as [r2 s1].
  pose proof (IH _ _ eq_refl) as ->. by destruct r2; intros [= _ <-].
Qed.

Lemma refreshCache_world segment s r s' :
  Database.refreshCache segment s = (r, s') →
  Database.dynamicProperties s' = Database.dynamicProperties s.
Proof.
  unfold Database.refreshCache.
  unfold Database.bind at 1, Database.gets at 1. cbv beta iota.
  destruct (_ || _); [by intros [= _ <-]|].
  unfold Database.bind at 1, Database.gets at 1. cbv beta iota.
  unfold Database.bind at 1.
  destruct (Database.collect _ _ s) as [r1 s1] eqn:Hloop.
  apply refresh_loop in Hloop as [_ Hw]; [|apply same_options_refl | done].
  destruct r1; [|by intros [= _ <-]]. drun. by intros [= _ <-].
Qed.

Lemma entries_world segment s r s' :
  Database.entries segment s = (r, s') →
  Database.dynamicProperties s' = Database.dynamicProperties s.
Proof.
  unfold Database.entries. unfold Database.bind at 1, Database.gets at 1. cbv beta iota.
  unfold Database.bind at 1.
  assert (Hlist : ∀ s1 r s', Database.dynamicProperties s1 = Database.dynamicProperties s →
    Database.bind (Database.listIds segment)
      (λ ids, Database.collect ids Database.read_item) s1 = (r, s') →
    Database.dynamicProperties s' = Database.dynamicProperties s).
  { intros s1 r1 s1' Hw. unfold Database.bind, Database.listIds, Database.gets.
    destruct (Database.collect _ _ s1) as [r2 s2] eqn:Hc.
    apply collect_read_item_state in Hc as ->. by destruct r2; intros [= _ <-]. }
  destruct (Database.useCache (Database.this s)); [|by apply Hlist].
  unfold Database.bind at 1.
  destruct (Database.refreshCache segment s) as [r1 s1] eqn:Href.
  apply refreshCache_world in Href. destruct r1; [|by intros [= _ <-]].
  drun. destruct (Database.cache (Database.this s1)); [by intros [= _ <-]|].
  by apply Hlist.
Qed.

(** X11: reading never writes.  [get], [has], [entries], [refreshCache] and
    [listIds] leave the dynamic properties of the world as they are. *)
Theorem reads_leave_the_world c s :
  reading c = true →
  Database.dynamicProperties (Database.perform H c s) = Database.dynamicProperties s.
Proof.
  destruct c as [k g|k v g|k g|k g|k f g|g|g|g|g]; try done; intros _;
    cbn [Database.perform].
  - destruct (Database.buildId (Database.this s) k g) as [id|e] eqn:Hid.
    + rewrite (get_run _ _ _ _ Hid). destruct (_ && _); [done|].
      destruct (read_world id s) as [[]|]; try apply dynamicProperties_cache_set; try done.
      destruct (Database.getDynamicProperty id s);
        try apply dynamicProperties_cache_set; done.
    + unfold Database.get. drun. by rewrite Hid.
  - destruct (Database.buildId (Database.this s) k g) as [id|e] eqn:Hid.
    + by rewrite (has_run _ _ _ _ Hid).
    + unfold Database.has. drun. by rewrite Hid.
  - destruct (Database.entries g s) as [r s'] eqn:Hrun. by eapply entries_world.
  - destruct (Database.refreshCache g s) as [r s'] eqn:Hrun. by eapply refreshCache_world.
Qed.
End StoreCalls.

Lemma failed_call_changes_nothing_witness :
  let s := Database.mkState plots_cached [] in
  Database.perform strict (Database.CallSet (VStr "owner") (VObj 0) VUndefined) s = s.
Proof.
  intros s.
  apply (failed_call_changes_nothing strict _ s
           (VError "TypeError" "unsupported dynamic property value")); reflexivity.
Defined.

Lemma empty_separator_refuses_every_key_witness :
  let db := Database.mkDatabase "plots" "" false false None
              Database.Returns Database.Returns None false in
  ∃ err, thrown lenient (Database.CallSet (VStr "owner") (VNum 1) VUndefined)
           (Database.mkState db []) = Some err.
Proof.
  intros db.
  apply (empty_separator_refuses_every_key lenient _ (Database.mkState db []));
    reflexivity.
Defined.

Lemma reads_leave_the_world_witness :
  let s := Database.mkState plots_cached [("plots:owner", VStr "ann")] in
  Database.dynamicProperties (Database.perform lenient (Database.CallEntries None) s) =
  Database.dynamicProperties s.
Proof.
  intros s. apply (reads_leave_the_world lenient (Database.CallEntries None) s).
  reflexivity.
Defined.

(** ** [clear] *)

Lemma filter_none {A} (P : A → Prop) `{∀ x, Decision (P x)} (l : list A) :
  (∀ x, x ∈ l → ¬ P x) → filter P l = [].
Proof.
  induction l as [|x l IH]; [done|]. intros Hl.
  rewrite filter_cons_False by (apply Hl; by left).
  apply IH. intros y Hy. apply Hl. by right.
Qed.

Lemma cleared_lookup ids s id :
  let s1 := foldl (λ s id, Database.cache_delete id (Database.remove_property id s)) s ids in
  map_get id (Database.dynamicProperties s1) =
    (if bool_decide (id ∈ ids) then None else map_get id (Database.dynamicProperties s)) ∧
  cached id s1 = (if bool_decide (id ∈ ids) then None else cached id s).
Proof.
  revert s. induction ids as [|x ids IH]; intros s; [done|].
  cbn [foldl]. destruct (IH (Database.cache_delete x (Database.remove_property x s)))
    as [Hw Hc]. cbn zeta in *. rewrite Hw, Hc.
  rewrite dynamicProperties_cache_delete, cached_cache_delete. cbn.
  destruct (decide (id = x)) as [->|Hne].
  - rewrite map_get_delete, (bool_decide_eq_true_2 (x ∈ x :: ids)) by by left.
    by destruct (bool_decide _).
  - rewrite map_get_delete_ne by done.
    change (cached id (Database.remove_property x s)) with (cached id s).
    destruct (decide (id ∈ ids)).
    + rewrite !bool_decide_eq_true_2; [done | by right | done].
    + rewrite !bool_decide_eq_false_2; [done | | done].
      by intros [?|?]%elem_of_cons.
Qed.

(** X12: on a host that refuses no removal, [clear(segment)] returns, and
    afterwards no id of the world starts with the prefix of the segment; the
    properties it removed are gone from the cache too, and every property
    whose id does not start with the prefix is left as it is. *)
Theorem clear_empties_segment H segment s :
  (∀ id, Database.writeError H id VUndefined = None) →
  ∃ s1,
    Database.clear H segment s = (Database.Returns VUndefined, s1) ∧
    Database.listIds segment s1 = (Database.Returns [], s1) ∧
    (∀ id, startsWith id (Database.prefix_of (Database.this s) segment) = true →
           id ∈ Database.getDynamicPropertyIds s → cached id s1 = None) ∧
    (∀ id, startsWith id (Database.prefix_of (Database.this s) segment) = false →
           map_get id (Database.dynamicProperties s1) =
           map_get id (Database.dynamicProperties s)).
Proof.
  intros Hhost.
  set (ids := filter (λ id, startsWith id (Database.prefix_of (Database.this s) segment) = true)
                (Database.getDynamicPropertyIds s)).
  destruct (Database.for_each ids (λ id,
    Database.bind (Database.setDynamicProperty H id VUndefined)
      (λ _, Database.modify (Database.cache_delete id))) s) as [r s1] eqn:Hloop.
  pose proof Hloop as Hloop'.
  apply (clear_loop H (Database.this s)) in Hloop' as (Hev & Hs1 & Hr);
    [|apply same_options_refl | apply listIds_under].
  specialize (Hr Hhost). subst r. specialize (Hs1 eq_refl).
  exists s1. split_and!.
  - unfold Database.clear, Database.listIds.
    unfold Database.bind at 1, Database.gets at 1. cbv beta iota.
    fold ids. unfold Database.bind at 1. by rewrite Hloop.
  - unfold Database.listIds, Database.gets. do 2 f_equal.
    rewrite (prefix_of_same_options _ _ segment (evolves_options _ _ Hev)).
    apply filter_none. intros id Hin Hpre.
    apply map_get_is_some in Hin as [v Hv].
    destruct (cleared_lookup ids s id) as [Hw _]. cbn zeta in Hw. rewrite <- Hs1 in Hw.
    rewrite Hv in Hw. case_bool_decide as Hids; [done|].
    apply Hids. apply list_elem_of_filter. split; [done|].
    symmetry in Hw. apply map_get_elem in Hw.
    apply list_elem_of_fmap. by exists (id, v).
  - intros id Hpre Hin. destruct (cleared_lookup ids s id) as [_ Hc]. cbn zeta in Hc.
    rewrite <- Hs1 in Hc. rewrite Hc, bool_decide_eq_true_2; [done|].
    by apply list_elem_of_filter.
  - intros id Hpre. destruct (cleared_lookup ids s id) as [Hw _]. cbn zeta in Hw.
    rewrite <- Hs1 in Hw. rewrite Hw, bool_decide_eq_false_2; [done|].
    intros [Hp _]%list_elem_of_filter. by rewrite Hp in Hpre.
Qed.

Lemma clear_empties_segment_witness :
  ∃ s1,
    Database.clear lenient (Some "north")
      (Database.mkState plots_cached
         [("plots:north:owner", VStr "ann"); ("plots:south:owner", VStr "bob")]) =
      (Database.Returns VUndefined, s1) ∧
    Database.listIds (Some "north") s1 = (Database.Returns [], s1) ∧
    map_get "plots:south:owner" (Database.dynamicProperties s1) = Some (VStr "bob").
Proof.
  destruct (clear_empties_segment lenient (Some "north")
              (Database.mkState plots_cached
                 [("plots:north:owner", VStr "ann"); ("plots:south:owner", VStr "bob")]))
    as (s1 & Hclear & Hlist & _ & Hframe); [done|].
  exists s1. split_and!; [done..|].
  by rewrite (Hframe "plots:south:owner").
Defined.

(** ** [update] *)

Lemma caching_evolves s s' : evolves s s' → caching s → caching s'.
Proof.
  induction 1 as [|s s1 s2 Hstep _ IH]; [done|]. intros Hc. apply IH. clear IH.
  destruct Hstep as [id v s _ _ _ | id v payload s _ _ | id s _ | s].
  - by apply caching_cache_set.
  - by apply caching_cache_set, caching_stored.
  - destruct Hc as [Huse [c Hc]]. unfold caching, Database.cache_delete.
    cbn [Database.this Database.remove_property]. rewrite Hc, Huse. cbn.
    split; [done | by eexists].
  - done.
Qed.

Lemma useCache_evolves s s' :
  evolves s s' → Database.useCache (Database.this s') = Database.useCache (Database.this s).
Proof. by intros (c & p & ->)%evolves_options. Qed.

(** X13: [update] and a read after it.  When [update(key, updater, segment)]
    returns, a [get(key, segment)] that follows returns the same value: the
    one the updater made of the current value, [undefined] included (the
    property is then deleted).  This holds with the cache in use, and
    without it when [deserialize] undoes [serialize]. *)
Theorem get_after_update H key f segment s r s1 :
  caching s ∨ (Database.useCache (Database.this s) = false ∧ codec (Database.this s)) →
  Database.update H key (Some f) segment s = (Database.Returns r, s1) →
  ∃ current s0,
    Database.get key segment s = (Database.Returns current, s0) ∧
    f current = Database.Returns r ∧
    Database.get key segment s1 = (Database.Returns r, s1).
Proof.
  intros Hmode. unfold Database.update. unfold Database.bind at 1.
  destruct (Database.get key segment s) as [[current|err] s0] eqn:Hget; [|done].
  unfold Database.bind at 1, Database.lift at 1.
  destruct (f current) as [next|err] eqn:Hf; [|done].
  pose proof (keeps_get _ _ _ _ _ Hget) as Hev.
  assert (Hmode0 : caching s0 ∨
            (Database.useCache (Database.this s0) = false ∧ codec (Database.this s0))).
  { destruct Hmode as [Hc | [Huse Hcodec]]; [left; by eapply caching_evolves|].
    right. split; [by rewrite (useCache_evolves _ _ Hev)|].
    eapply codec_same_options; [by apply evolves_options | done]. }
  intros Hrun. exists current, s0. split; [done|].
  assert (Hdel : ∀ r', Database.bind (Database.delete H key segment)
                         (λ _, Database.ret VUndefined) s0 = (Database.Returns r', s1) →
                       r' = VUndefined ∧
                       Database.get key segment s1 = (Database.Returns VUndefined, s1)).
  { intros r'. unfold Database.bind.
    destruct (Database.delete H key segment s0) as [[d|err] s2] eqn:Hd; [|done].
    intros [= <- <-]. split; [done|]. by apply (read_after_delete H _ _ _ _ _ Hd). }
  assert (Hset : ∀ v, v ≠ VUndefined →
            Database.set H key v segment s0 = (Database.Returns r, s1) →
            r = v ∧ Database.get key segment s1 = (Database.Returns v, s1)).
  { intros v Hv Hs.
    assert (r = v) as ->.
    { apply set_inv in Hs as [(err & [= ] & _) | (id & payload & _ & _ & [= ->] & _)]. done. }
    split; [done|].
    destruct (read_after_write H _ _ _ _ _ Hs) as [Hcached Huncached].
    destruct Hmode0 as [Hc | [Huse Hcodec]]; [by apply Hcached|].
    destruct (Huncached Huse) as (payload & Hser & ->). f_equal.
    specialize (Hcodec _ _ Hser). by destruct payload. }
  destruct next;
    try (apply Hset in Hrun as [-> Hg]; [by split | done]).
  apply Hdel in Hrun as [-> Hg]. by split.
Qed.

Lemma get_after_update_witness :
  let s := Database.mkState plots_cached [("plots:visits", VNum 1)] in
  let f := λ current, match current with
                      | VNum n => Database.Returns (VNum (n + 1))
                      | _ => Database.Returns (VNum 1)
                      end in
  let s1 := Database.mkState
              (Database.with_cache (Some [("plots:visits", VNum 2)]) true plots_cached)
              [("plots:visits", VNum 2)] in
  ∃ current s0,
    Database.get (VStr "visits") VUndefined s = (Database.Returns current, s0) ∧
    f current = Database.Returns (VNum 2) ∧
    Database.get (VStr "visits") VUndefined s1 = (Database.Returns (VNum 2), s1).
Proof.
  intros s f s1.
  apply (get_after_update lenient (VStr "visits") f VUndefined s (VNum 2) s1).
  - left. split; [reflexivity | by eexists].
  - reflexivity.
Defined.

(** ** [refreshCache], the constructor and [entries] *)

Lemma parseId_same_options db db' id :
  same_options db db' → Database.parseId db' id = Database.parseId db id.
Proof. by intros (c & p & ->). Qed.

Lemma deserialize_same_options db db' :
  same_options db db' → Database.deserialize db' = Database.deserialize db.
Proof. by intros (c & p & ->). Qed.

Lemma cache_set_options id v s :
  same_options (Database.this s) (Database.this (Database.cache_set id v s)).
Proof.
  unfold Database.cache_set.
  destruct (Database.cache (Database.this s)), (Database.useCache (Database.this s));
    try apply same_options_refl. by eexists _, _.
Qed.

Lemma refresh_one_run pre id p s :
  startsWith id pre = true → Database.parseId (Database.this s) id = Some p →
  Database.refresh_one pre id s =
  match Database.deserialize (Database.this s) (Database.getDynamicProperty id s) with
  | Database.Returns v =>
      (Database.Returns
         (Some (Database.mkItem (Database.parsed_key p) (Database.parsed_segment p) v)),
       Database.cache_set id v s)
  | Database.Throws err => (Database.Throws err, s)
  end.
Proof.
  intros Hpre Hp. unfold Database.refresh_one. rewrite Hpre. cbn [negb]. drun.
  rewrite Hp. by destruct (Database.deserialize _ _).
Qed.

(** What the loop of [refreshCache] has cached stays cached to its end. *)
Lemma refresh_loop_keeps db segment ids s loaded s' id v :
  same_options db (Database.this s) →
  Database.collect ids (Database.refresh_one (Database.prefix_of db segment)) s =
    (Database.Returns loaded, s') →
  Database.deserialize db (Database.getDynamicProperty id s) = Database.Returns v →
  cached id s = Some v → cached id s' = Some v.
Proof.
  revert s loaded. induction ids as [|x ids IH]; intros s loaded Hdb; [by intros [= _ <-]|].
  cbn [Database.collect]. unfold Database.bind at 1.
  destruct (Database.refresh_one _ x s) as [[y|err] s1] eqn:Hone; [|done].
  unfold Database.bind at 1.
  destruct (Database.collect ids _ s1) as [[ys|err] s2] eqn:Hrest; [|done].
  intros [= _ <-] Hde Hc.
  apply refresh_one_inv in Hone as [-> | (value & _ & Hval & -> & _)]; [by eapply IH|].
  eapply IH; [| done | |].
  - eapply same_options_trans; [done | apply cache_set_options].
  - by rewrite getDynamicProperty_cache_set.
  - destruct (decide (id = x)) as [->|Hne]; [|by rewrite cached_cache_set_ne].
    rewrite (deserialize_same_options _ _ Hdb) in Hval. rewrite Hde in Hval.
    injection Hval as <-. unfold cached, Database.cache_set in *.
    destruct (Database.useCache (Database.this s)) eqn:Huse; [|done].
    destruct (Database.cache (Database.this s)) as [c|] eqn:Hcache; [|done].
    cbn. rewrite Huse. cbn. apply map_get_set.
Qed.

(** What a round of [refreshCache] that returns has loaded. *)
Lemma refresh_loop_loads db segment ids s loaded s' id p :
  same_options db (Database.this s) → caching s →
  Database.collect ids (Database.refresh_one (Database.prefix_of db segment)) s =
    (Database.Returns loaded, s') →
  id ∈ ids →
  startsWith id (Database.prefix_of db segment) = true →
  Database.parseId db id = Some p →
  ∃ v, Database.deserialize db (Database.getDynamicProperty id s) = Database.Returns v ∧
       cached id s' = Some v ∧
       Database.mkItem (Database.parsed_key p) (Database.parsed_segment p) v ∈ loaded.
Proof.
  revert s loaded. induction ids as [|x ids IH]; intros s loaded Hdb Hc Hrun Hin Hpre Hp;
    [by apply elem_of_nil in Hin|].
  revert Hrun. cbn [Database.collect]. unfold Database.bind at 1.
  destruct (Database.refresh_one _ x s) as [[y|err] s1] eqn:Hone; [|done].
  unfold Database.bind at 1.
  destruct (Database.collect ids _ s1) as [[ys|err] s2] eqn:Hrest; [|done].
  intros [= <- <-].
  assert (Hs1 : same_options db (Database.this s1) ∧ caching s1 ∧
                ∀ i, Database.getDynamicProperty i s1 = Database.getDynamicProperty i s).
  { pose proof Hone as Hone'.
    apply refresh_one_inv in Hone' as [-> | (value & _ & _ & -> & _)]; [done|].
    split_and!; [| by apply caching_cache_set | intros; apply getDynamicProperty_cache_set].
    eapply same_options_trans; [done | apply cache_set_options]. }
  destruct Hs1 as (Hdb1 & Hc1 & Hw1).
  apply elem_of_cons in Hin as [->|Hin].
  - rewrite (refresh_one_run _ _ p) in Hone;
      [|done | by rewrite (parseId_same_options _ _ _ Hdb)].
    rewrite (deserialize_same_options _ _ Hdb) in Hone.
    destruct (Database.deserialize db _) as [v|err] eqn:Hde; [|done].
    injection Hone as <- <-. exists v. split_and!; [done| |].
    + eapply refresh_loop_keeps; [exact Hdb1 | exact Hrest | by rewrite Hw1 |].
      by apply cached_cache_set.
    + by left.
  - destruct (IH s1 ys Hdb1 Hc1 Hrest Hin Hpre Hp) as (v & Hde & Hcv & Hitem).
    exists v. rewrite <- Hw1. split_and!; [done..|].
    destruct y; [by right | done].
Qed.

Lemma refreshCache_run segment s :
  caching s →
  Database.refreshCache segment s =
  match Database.collect (Database.getDynamicPropertyIds s)
          (Database.refresh_one (Database.prefix_of (Database.this s) segment)) s with
  | (Database.Returns loaded, s1) => (Database.Returns loaded, Database.prime s1)
  | (Database.Throws err, s1) => (Database.Throws err, s1)
  end.
Proof.
  intros [Huse [c Hc]]. unfold Database.refreshCache. drun. rewrite Huse, Hc.
  cbn [negb orb]. rewrite (bool_decide_eq_true_2 (is_Some (Some c))) by by eexists.
  cbn [negb]. by destruct (Database.collect _ _ s) as [[]].
Qed.

Lemma refreshCache_loads segment s loaded s' id p :
  caching s →
  Database.refreshCache segment s = (Database.Returns loaded, s') →
  id ∈ Database.getDynamicPropertyIds s →
  startsWith id (Database.prefix_of (Database.this s) segment) = true →
  Database.parseId (Database.this s) id = Some p →
  ∃ v, Database.deserialize (Database.this s) (Database.getDynamicProperty id s) =
         Database.Returns v ∧
       cached id s' = Some v ∧
       Database.mkItem (Database.parsed_key p) (Database.parsed_segment p) v ∈ loaded.
Proof.
  intros Hc Hrun Hin Hpre Hp. rewrite (refreshCache_run _ _ Hc) in Hrun.
  destruct (Database.collect _ _ s) as [[l|err] s1] eqn:Hloop; [|done].
  injection Hrun as <- <-.
  destruct (refresh_loop_loads (Database.this s) segment _ s l s1 id p
              (same_options_refl _) Hc Hloop Hin Hpre Hp) as (v & Hde & Hcv & Hitem).
  by exists v.
Qed.

(** X14: the constructor.  A database is made for a name that is a string
    with more than white space in it.  Making it writes nothing; with the
    cache in use and eager loading (the defaults) every property of the
    world under the prefix of the database whose id parses is in the cache
    afterwards, deserialized. *)
Theorem constructor_primes_cache name options world s :
  Database.constructor name options world = Database.Returns s →
  (∃ n, name = VStr n ∧ trim n ≠ "" ∧ Database.name (Database.this s) = n) ∧
  Database.dynamicProperties s = world ∧
  (Database.opt_useCache options ≠ Some false →
   Database.opt_eagerLoad options ≠ Some false →
   Database.cachePrimed (Database.this s) = true ∧
   ∀ id p, id ∈ world.*1 → under id s →
     Database.parseId (Database.this s) id = Some p →
     ∃ v, Database.deserialize (Database.this s) (default VUndefined (map_get id world)) =
            Database.Returns v ∧
          cached id s = Some v).
Proof.
  intros Hnew. pose proof Hnew as (n & db & -> & Hdb & Hs)%constructor_inv.
  assert (Hblank : trim n ≠ "").
  { revert Hnew. unfold Database.constructor. by destruct (String.eqb_spec (trim n) ""). }
  assert (Hrest : Database.name (Database.this s) = n ∧ Database.dynamicProperties s = world ∧
            same_options db (Database.this s)).
  { destruct (Database.useCache db && Database.eagerLoad db).
    - destruct Hs as [loaded Hs]. pose proof (refreshCache_world _ _ _ _ Hs) as Hw.
      apply keeps_refreshCache, evolves_options in Hs as Hopt.
      split_and!; [|done..]. destruct Hopt as (c & p & ->). by rewrite Hdb.
    - rewrite Hs. split_and!; [by rewrite Hdb | done | apply same_options_refl]. }
  destruct Hrest as (Hname & Hworld & Hopt).
  split_and!; [by exists n | done |]. intros Huse Heager.
  assert (Huse' : Database.useCache db = true).
  { rewrite Hdb. cbn. by destruct (Database.opt_useCache options) as [[]|]. }
  assert (Heager' : Database.eagerLoad db = true).
  { rewrite Hdb. cbn. by destruct (Database.opt_eagerLoad options) as [[]|]. }
  rewrite Huse', Heager' in Hs. destruct Hs as [loaded Hs].
  assert (Hc : caching (Database.mkState db world)).
  { split; [done|]. rewrite Hdb. cbn.
    by destruct (Database.opt_useCache options) as [[]|]. }
  split.
  - rewrite (refreshCache_run _ _ Hc) in Hs.
    destruct (Database.collect _ _ _) as [[l|err] s1]; [|done]. by injection Hs as _ <-.
  - intros id p Hin Hunder Hp.
    destruct (refreshCache_loads None _ _ _ id p Hc Hs) as (v & Hde & Hcv & _).
    + done.
    + revert Hunder. unfold under. by rewrite (prefix_of_same_options _ _ _ Hopt).
    + by rewrite <- (parseId_same_options _ _ _ Hopt).
    + exists v. split; [|done]. by rewrite (deserialize_same_options _ _ Hopt).
Qed.

Lemma constructor_primes_cache_witness :
  let world := [("plots:owner", VStr "ann"); ("towns:spawn", VNum 7)] in
  let s := Database.mkState
             (Database.mkDatabase "plots" ":" true true None
                (λ value, Database.Returns value) (λ raw, Database.Returns raw)
                (Some [("plots:owner", VStr "ann")]) true) world in
  (∃ n, VStr "plots" = VStr n ∧ trim n ≠ "" ∧ Database.name (Database.this s) = n) ∧
  Database.dynamicProperties s = world ∧
  (Database.opt_useCache Database.default_options ≠ Some false →
   Database.opt_eagerLoad Database.default_options ≠ Some false →
   Database.cachePrimed (Database.this s) = true ∧
   ∀ id p, id ∈ world.*1 → under id s →
     Database.parseId (Database.this s) id = Some p →
     ∃ v, Database.deserialize (Database.this s) (default VUndefined (map_get id world)) =
            Database.Returns v ∧
          cached id s = Some v).
Proof.
  intros world s.
  apply (constructor_primes_cache (VStr "plots") Database.default_options world s).
  reflexivity.
Defined.

Lemma collect_read_item_lists ids s items s' id p :
  Database.collect ids Database.read_item s = (Database.Returns items, s') →
  id ∈ ids → Database.parseId (Database.this s) id = Some p →
  ∃ v, Database.deserialize (Database.this s) (Database.getDynamicProperty id s) =
         Database.Returns v ∧
       Database.mkItem (Database.parsed_key p) (Database.parsed_segment p) v ∈ items.
Proof.
  revert items. induction ids as [|x ids IH]; intros items Hrun Hin Hp;
    [by apply elem_of_nil in Hin|].
  revert Hrun. cbn [Database.collect]. unfold Database.bind at 1.
  destruct (Database.read_item x s) as [[y|err] s1] eqn:Hone; [|done].
  assert (s1 = s) as ->.
  { revert Hone. unfold Database.read_item. drun.
    destruct (Database.deserialize _ (Database.getDynamicProperty x s));
      by intros [= _ <-]. }
  unfold Database.bind at 1.
  destruct (Database.collect ids _ s) as [[ys|err] s2] eqn:Hrest; [|done].
  intros [= <- <-]. apply elem_of_cons in Hin as [->|Hin].
  - revert Hone. unfold Database.read_item. drun. rewrite Hp.
    destruct (Database.deserialize _ (Database.getDynamicProperty x s)) as [v|err]; [|done].
    intros [= <-]. exists v. split; [done | by left].
  - destruct (IH ys eq_refl Hin Hp) as (v & Hde & Hitem). exists v. split; [done|].
    destruct y; [by right | done].
Qed.

(** [entries] misses no property that parses, shared with the proofs about
    [set]. *)
Lemma entries_complete segment s items s' id p :
  Database.entries segment s = (Database.Returns items, s') →
  id ∈ Database.getDynamicPropertyIds s →
  startsWith id (Database.prefix_of (Database.this s) segment) = true →
  Database.parseId (Database.this s) id = Some p →
  ∃ v, Database.deserialize (Database.this s) (Database.getDynamicProperty id s) =
         Database.Returns v ∧
       Database.mkItem (Database.parsed_key p) (Database.parsed_segment p) v ∈ items.
Proof.
  intros Hrun Hin Hpre Hp.
  assert (Hlist : Database.bind (Database.listIds segment)
                    (λ ids, Database.collect ids Database.read_item) s =
                  (Database.Returns items, s') →
    ∃ v, Database.deserialize (Database.this s) (Database.getDynamicProperty id s) =
           Database.Returns v ∧
         Database.mkItem (Database.parsed_key p) (Database.parsed_segment p) v ∈ items).
  { unfold Database.bind, Database.listIds, Database.gets. intros Hc.
    eapply collect_read_item_lists; [exact Hc | | done].
    by apply list_elem_of_filter. }
  revert Hrun. unfold Database.entries.
  unfold Database.bind at 1, Database.gets at 1. cbv beta iota.
  unfold Database.bind at 1.
  destruct (Database.useCache (Database.this s)) eqn:Huse; [|exact Hlist].
  destruct (Database.cache (Database.this s)) as [c|] eqn:Hcache.
  - assert (Hc : caching s) by (split; [done | by eexists]).
    unfold Database.bind at 1.
    destruct (Database.refreshCache segment s) as [[loaded|err] s1] eqn:Href; [|done].
    destruct (refreshCache_loads _ _ _ _ id p Hc Href Hin Hpre Hp) as (v & Hde & Hcv & _).
    pose proof (keeps_refreshCache _ _ _ _ Href) as Hev.
    pose proof (evolves_options _ _ Hev) as Hopt.
    destruct (caching_evolves _ _ Hev Hc) as [Huse1 [c1 Hc1]].
    drun. rewrite Hc1. intros [= <- <-]. exists v. split; [done|].
    apply list_elem_of_omap. exists (id, v). split.
    + revert Hcv. unfold cached. rewrite Huse1, Hc1. cbn. apply map_get_elem.
    + unfold Database.cached_item. cbn [fst snd].
      rewrite (prefix_of_same_options _ _ _ Hopt), Hpre. cbn [negb].
      by rewrite (parseId_same_options _ _ _ Hopt), Hp.
  - unfold Database.bind at 1, Database.refreshCache.
    drun. rewrite Huse, Hcache. cbn [negb orb].
    rewrite (bool_decide_eq_false_2 (is_Some None)) by by intros [? ?].
    cbn [negb]. cbv beta iota. rewrite Hcache. exact Hlist.
Qed.

(** X15: [entries(segment)] is complete.  When it returns, it lists every
    property of the world whose id starts with the prefix of the segment
    and parses, under the key and segment [parseId] gives and with the
    deserialized property as value. *)
Theorem entries_lists_every_property segment s items s' id p :
  Database.entries segment s = (Database.Returns items, s') →
  id ∈ Database.getDynamicPropertyIds s →
  startsWith id (Database.prefix_of (Database.this s) segment) = true →
  Database.parseId (Database.this s) id = Some p →
  ∃ v, Database.deserialize (Database.this s) (Database.getDynamicProperty id s) =
         Database.Returns v ∧
       Database.mkItem (Database.parsed_key p) (Database.parsed_segment p) v ∈ items.
Proof. apply entries_complete. Qed.

Lemma entries_lists_every_property_witness :
  let world := [("plots:owner", VStr "ann"); ("towns:spawn", VNum 7)] in
  let s := Database.mkState plots_uncached world in
  ∃ v, Database.deserialize (Database.this s) (Database.getDynamicProperty "plots:owner" s) =
         Database.Returns v ∧
       Database.mkItem "owner" None v ∈ [Database.mkItem "owner" None (VStr "ann")].
Proof.
  intros world s.
  apply (entries_lists_every_property None s [Database.mkItem "owner" None (VStr "ann")] s
           "plots:owner" (Database.mkParsed "owner" None)).
  - reflexivity.
  - simpl. by left.
  - reflexivity.
  - reflexivity.
Defined.

(** X16: what is set is listed.  With a one-character separator that the
    name does not contain, after [set(key, value, segment)] has written a
    payload, [entries()] lists the key with its segment and the deserialized
    payload. *)
Theorem entries_after_set H c key value segment s s1 payload items s2 :
  Database.separator (Database.this s) = String c "" →
  Database.includes (Database.separator (Database.this s)) (Database.name (Database.this s))
    = false →
  Database.set H key value segment s = (Database.Returns value, s1) →
  Database.serialize (Database.this s) value = Database.Returns payload →
  payload ≠ VUndefined →
  Database.entries None s1 = (Database.Returns items, s2) →
  ∃ k v, key = VStr k ∧
         Database.deserialize (Database.this s) payload = Database.Returns v ∧
         Database.mkItem k (segment_of segment) v ∈ items.
Proof.
  intros Hsep Hname Hset Hser Hpayload Hentries.
  pose proof (keeps_set H _ _ _ _ _ _ Hset) as Hopt%evolves_options.
  apply set_inv in Hset as [(err & [= ] & _) | (id & payload' & Hid & Hser' & _ & ->)].
  rewrite Hser in Hser'. injection Hser' as <-.
  destruct (parse_after_build _ c _ _ _ Hsep Hname Hid) as (k & -> & Hp).
  set (s1 := Database.cache_set id value (stored id payload s)) in *.
  assert (Hraw : Database.getDynamicProperty id s1 = payload).
  { unfold s1. by rewrite getDynamicProperty_cache_set, getDynamicProperty_stored. }
  destruct (entries_complete None s1 items s2 id
              (Database.mkParsed k (segment_of segment)) Hentries) as (v & Hde & Hitem).
  - assert (Hget : map_get id (Database.dynamicProperties s1) = Some payload).
    { unfold s1. rewrite dynamicProperties_cache_set.
      destruct payload; try done; cbn; apply map_get_set. }
    apply map_get_elem in Hget. apply list_elem_of_fmap. by exists (id, payload).
  - unfold startsWith. rewrite (prefix_of_same_options _ _ _ Hopt). by eapply buildId_under.
  - rewrite (parseId_same_options _ _ _ Hopt). exact Hp.
  - exists k, v. split_and!; [done| |done].
    by rewrite Hraw, (deserialize_same_options _ _ Hopt) in Hde.
Qed.

Lemma entries_after_set_witness :
  let s := Database.mkState plots_cached [] in
  let s1 := Database.mkState
              (Database.with_cache (Some [("plots:north:owner", VStr "ann")]) true plots_cached)
              [("plots:north:owner", VStr "ann")] in
  ∃ k v, VStr "owner" = VStr k ∧
         Database.deserialize (Database.this s) (VStr "ann") = Database.Returns v ∧
         Database.mkItem k (segment_of (VStr "north")) v ∈
           [Database.mkItem "owner" (Some "north") (VStr "ann")].
Proof.
  intros s s1.
  apply (entries_after_set lenient ":" (VStr "owner") (VStr "ann") (VStr "north") s s1
           (VStr "ann") [Database.mkItem "owner" (Some "north") (VStr "ann")] s1);
    try reflexivity.
  discriminate.
Defined.

(** ** A name that contains the separator *)

Lemma collect_none {A B} (ids : list A) (f : A → Database.D (option B)) s :
  (∀ id s, f id s = (Database.Returns None, s)) →
  Database.collect ids f s = (Database.Returns [], s).
Proof.
  intros Hf. induction ids as [|x ids IH]; [done|].
  cbn [Database.collect]. unfold Database.bind at 1. rewrite Hf.
  unfold Database.bind at 1. by rewrite IH.
Qed.

Lemma collect_read_item_none ids s items s' :
  (∀ id, Database.parseId (Database.this s) id = None) →
  Database.collect ids Database.read_item s = (Database.Returns items, s') → items = [].
Proof.
  intros Hp. revert items. induction ids as [|x ids IH]; intros items; [by intros [= <- _]|].
  cbn [Database.collect]. unfold Database.bind at 1, Database.read_item at 1. drun.
  rewrite Hp. destruct (Database.deserialize _ _); [|done].
  destruct (Database.collect ids _ s) as [[ys|err] s1]; [|done].
  intros [= <- <-]. by apply IH.
Qed.

Lemma cached_items_none db pre (l : list (string * Value)) :
  (∀ id, Database.parseId db id = None) → omap (Database.cached_item db pre) l = [].
Proof.
  intros Hp. induction l as [|e l IH]; [done|].
  assert (Database.cached_item db pre e = None) as He.
  { unfold Database.cached_item. destruct (negb (startsWith e.1 pre)); [done|].
    by rewrite Hp. }
  simpl. by rewrite He.
Qed.

(** X17: a database whose name contains its one-character separator lists
    nothing: no id parses, so [entries] returns no item, whatever is stored
    (with the cache in use it returns the empty list). *)
Theorem name_with_separator_lists_nothing c segment s r s' :
  Database.separator (Database.this s) = String c "" →
  Database.includes (Database.separator (Database.this s)) (Database.name (Database.this s))
    = true →
  Database.entries segment s = (r, s') →
  (∀ id, Database.parseId (Database.this s) id = None) ∧
  (∀ items, r = Database.Returns items → items = []) ∧
  (caching s → r = Database.Returns []).
Proof.
  intros Hsep Hname Hrun.
  assert (Hp : ∀ id, Database.parseId (Database.this s) id = None)
    by (intros; by eapply parseId_name_with_separator).
  split; [done|].
  assert (Hlist : ∀ r s', Database.bind (Database.listIds segment)
                    (λ ids, Database.collect ids Database.read_item) s = (r, s') →
                  ∀ items, r = Database.Returns items → items = []).
  { intros r0 s0. unfold Database.bind, Database.listIds, Database.gets.
    destruct (Database.collect _ _ s) as [[l|err] s1] eqn:Hc; intros [= <- <-] items [= <-].
    by eapply collect_read_item_none. }
  assert (Hone : ∀ pre id s0, Database.this s0 = Database.this s →
            Database.refresh_one pre id s0 = (Database.Returns None, s0)).
  { intros pre id s0 Hs0. unfold Database.refresh_one.
    destruct (negb (startsWith id pre)); [done|]. drun. by rewrite Hs0, Hp. }
  revert Hrun. unfold Database.entries.
  unfold Database.bind at 1, Database.gets at 1. cbv beta iota.
  unfold Database.bind at 1.
  destruct (Database.useCache (Database.this s)) eqn:Huse.
  - destruct (Database.cache (Database.this s)) as [c0|] eqn:Hcache.
    + assert (Hc : caching s) by (split; [done | by eexists]).
      unfold Database.bind at 1. rewrite (refreshCache_run _ _ Hc).
      assert (Hloop : ∀ ids, Database.collect ids
                (Database.refresh_one (Database.prefix_of (Database.this s) segment)) s =
                (Database.Returns [], s)).
      { induction ids as [|x ids IH]; [done|]. cbn [Database.collect].
        unfold Database.bind at 1. rewrite Hone by done.
        unfold Database.bind at 1. by rewrite IH. }
      rewrite Hloop. drun. cbn. rewrite Hcache. intros [= <- <-].
      rewrite cached_items_none by (intros; apply Hp).
      split; [by intros items [= <-] | done].
    + unfold Database.bind at 1, Database.refreshCache.
      drun. rewrite Huse, Hcache. cbn [negb orb].
      rewrite (bool_decide_eq_false_2 (is_Some None)) by by intros [? ?].
      cbn [negb]. cbv beta iota. rewrite Hcache. intros Hrun. split.
      * by eapply Hlist.
      * intros [_ [? Hsome]]. by rewrite Hcache in Hsome.
  - intros Hrun. split; [by eapply Hlist|]. intros [Hu _]. by rewrite Huse in Hu.
Qed.

Lemma name_with_separator_lists_nothing_witness :
  let s := Database.mkState my_plots [("my:plots:owner", VStr "ann")] in
  (∀ id, Database.parseId (Database.this s) id = None) ∧
  (∀ items, Database.Returns (A := list Database.Item) [] = Database.Returns items →
            items = []) ∧
  (caching s → Database.Returns (A := list Database.Item) [] = Database.Returns []).
Proof.
  intros s.
  apply (name_with_separator_lists_nothing ":" None s (Database.Returns [])
           (Database.mkState
              (Database.with_cache (Some []) true my_plots)
              [("my:plots:owner", VStr "ann")])); reflexivity.
Defined.

(** ** [split] and [join] *)

Lemma concat_cons sep x y (l : list string) :
  String.concat sep (x :: y :: l) = (x ++ sep ++ String.concat sep (y :: l))%string.
Proof. done. Qed.

Lemma split_from_cons sep skip cur s :
  ∃ first rest, Database.split_from sep skip cur s = first :: rest.
Proof.
  revert skip cur. induction s as [|a s IH]; intros skip cur; [by eexists _, _|].
  cbn [Database.split_from]. destruct skip as [|n]; [|apply IH].
  destruct (String.prefix sep (String a s)); [by eexists _, _ | apply IH].
Qed.

(** Joining the pieces gives the string back; [skipped] is the rest of a
    separator that is being passed. *)
Lemma join_split_from sep cur (skipped rest : string) :
  sep ≠ "" →
  Database.join sep (Database.split_from sep (String.length skipped) cur (skipped ++ rest)) =
  (cur ++ rest)%string.
Proof.
  intros Hsep. remember (skipped ++ rest)%string as s eqn:Hs.
  revert skipped rest cur Hs. induction s as [|a s IH]; intros skipped rest cur Hs.
  - destruct skipped; [|done]. rewrite append_nil_l in Hs. subst rest.
    cbn. by rewrite append_nil_r.
  - destruct skipped as [|b skipped].
    + rewrite append_nil_l in Hs. subst rest. cbn [String.length Database.split_from].
      destruct (String.prefix sep (String a s)) eqn:Hpre.
      * apply prefix_inv in Hpre as [t Ht].
        destruct sep as [|b sep']; [done|]. rewrite append_cons in Ht.
        injection Ht as <- ->.
        replace (String.length (String a sep') - 1) with (String.length sep')
          by (cbn [String.length]; lia).
        destruct (split_from_cons (String a sep') (String.length sep') "" (sep' ++ t))
          as (first & more & Hsplit).
        unfold Database.join. rewrite Hsplit, concat_cons, <- Hsplit.
        fold (Database.join (String a sep')
                (Database.split_from (String a sep') (String.length sep') "" (sep' ++ t))).
        rewrite (IH sep' t "") by done.
        by rewrite append_nil_l, append_cons.
      * pose proof (IH "" s (cur ++ String a "")%string eq_refl) as IH'.
        cbn [String.length] in IH'. rewrite IH'. by rewrite append_assoc.
    + rewrite append_cons in Hs. injection Hs as <- ->.
      cbn [String.length Database.split_from]. by apply IH.
Qed.

Lemma join_split sep s : Database.join sep (Database.split sep s) = s.
Proof.
  unfold Database.split. destruct (String.eqb_spec sep "") as [->|Hsep].
  - induction s as [|a s IH]; [done|]. cbn [list_ascii_of_string fmap list_fmap].
    unfold Database.join in *. destruct s as [|b s]; [done|].
    cbn [list_ascii_of_string fmap list_fmap] in *. rewrite concat_cons, IH. done.
  - apply (join_split_from sep "" "" s Hsep).
Qed.

(** X18: decode, then encode.  For every separator, an id that [parseId]
    accepts is the name of the database, the segment if there is one and
    the key, joined by the separator. *)
Theorem parseId_sound db id p :
  Database.parseId db id = Some p →
  id = Database.join (Database.separator db)
         (Database.name db ::
          match Database.parsed_segment p with
          | Some g => [g; Database.parsed_key p]
          | None => [Database.parsed_key p]
          end).
Proof.
  unfold Database.parseId. intros Hp.
  rewrite <- (join_split (Database.separator db) id) at 1.
  destruct (Database.split (Database.separator db) id) as [|first rest]; [done|].
  destruct (String.eqb_spec first (Database.name db)) as [->|]; [|done].
  cbn [negb] in Hp. destruct rest as [|k more]; [done|].
  destruct more as [|k' more]; injection Hp as <-; reflexivity.
Qed.

Lemma parseId_sound_witness :
  "plots:north:owner" =
  Database.join (Database.separator plots_uncached)
    (Database.name plots_uncached ::
     match Database.parsed_segment (Database.mkParsed "owner" (Some "north")) with
     | Some g => [g; Database.parsed_key (Database.mkParsed "owner" (Some "north"))]
     | None => [Database.parsed_key (Database.mkParsed "owner" (Some "north"))]
     end).
Proof.
  apply (parseId_sound plots_uncached "plots:north:owner"
           (Database.mkParsed "owner" (Some "north"))).
  reflexivity.
Defined.

(** ** The examples of the reads and writes *)

Lemma get_after_set_witness :
  let s := Database.mkState plots_cached [] in
  let s1 := Database.mkState
              (Database.with_cache (Some [("plots:owner", VStr "ann")]) true plots_cached)
              [("plots:owner", VStr "ann")] in
  (caching s →
   Database.get (VStr "owner") VUndefined s1 = (Database.Returns (VStr "ann"), s1)) ∧
  (Database.useCache (Database.this s) = false →
   ∃ payload,
     Database.serialize (Database.this s) (VStr "ann") = Database.Returns payload ∧
     Database.get (VStr "owner") VUndefined s1 =
     (match payload with
      | VUndefined => Database.Returns VUndefined
      | _ => Database.deserialize (Database.this s) payload
      end, s1)).
Proof.
  intros s s1.
  apply (get_after_set lenient (VStr "owner") (VStr "ann") VUndefined s s1).
  reflexivity.
Defined.

Lemma absent_after_delete_witness :
  let s := Database.mkState
             (Database.with_cache (Some [("plots:owner", VStr "ann")]) true plots_cached)
             [("plots:owner", VStr "ann")] in
  let s1 := Database.mkState (Database.with_cache (Some []) true plots_cached) [] in
  Database.get (VStr "owner") VUndefined s1 = (Database.Returns VUndefined, s1) ∧
  Database.has (VStr "owner") VUndefined s1 = (Database.Returns false, s1).
Proof.
  intros s s1.
  apply (absent_after_delete lenient (VStr "owner") VUndefined s VUndefined s1).
  reflexivity.
Defined.

Lemma has_after_set_without_payload_witness :
  let s := Database.mkState plots_cached [("plots:owner", VStr "ann")] in
  let s1 := Database.mkState
              (Database.with_cache (Some [("plots:owner", VUndefined)]) true plots_cached)
              [] in
  Database.has (VStr "owner") VUndefined s1 = (Database.Returns true, s1) ∧
  "plots:owner" ∉ Database.getDynamicPropertyIds s1.
Proof.
  intros s s1.
  apply (has_after_set_without_payload lenient (VStr "owner") VUndefined VUndefined s s1
           "plots:owner").
  - split; [reflexivity | by eexists].
  - reflexivity.
  - reflexivity.
  - reflexivity.
Defined.

(** * More of the loader and of the lifecycle *)

(** ** What a phase batch changes *)

Section Phases.
Context (W : World).

Lemma update_same s : with_trace (trace s) (with_imported (importedModules s) s) = s.
Proof. by destruct s. Qed.

(** A batch of imports changes the loaded set and the trace, nothing else. *)
Lemma import_batch_shape pending s :
  ∃ imp tr,
    map_M pending (λ en, importModule W (specifier en)) s =
    (Ret (replicate (length pending) (VPromise Fulfilled VUndefined)),
     with_trace tr (with_imported imp s)).
Proof.
  revert s. induction pending as [|en pending IH]; intros s.
  - exists (importedModules s), (trace s). by rewrite update_same.
  - cbn [map_M]. rewrite (bind_run _ _ _ _ _ (importModule_run W (specifier en) s)).
    cbv beta iota.
    set (s1 := if decide (specifier en ∈ importedModules s) then s
               else loaded W (specifier en) s).
    assert (Hs1 : ∃ imp tr, s1 = with_trace tr (with_imported imp s)).
    { unfold s1. case_decide.
      - exists (importedModules s), (trace s). by rewrite update_same.
      - exists (importedModules (loaded W (specifier en) s)),
               (trace (loaded W (specifier en) s)).
        unfold loaded, load, log, add_imported.
        destruct (importOutcome W (specifier en)); reflexivity. }
    destruct Hs1 as (imp1 & tr1 & Hs1). destruct (IH s1) as (imp & tr & Hrun).
    rewrite (bind_run _ _ _ _ _ Hrun). cbv beta iota. exists imp, tr.
    unfold ret. f_equal. rewrite Hs1. reflexivity.
Qed.

Lemma importPhase_shape ph s :
  ∃ imp tr,
    importPhase W ph s = (Ret tt, with_trace tr (with_imported imp (complete_phase ph s))).
Proof.
  unfold importPhase. mrun.
  destruct (filter (λ en, phase en = ph) (moduleQueue s)) as [|en pending].
  - exists (importedModules s), (trace s).
    unfold ret. f_equal. by destruct s, ph.
  - destruct (import_batch_shape (en :: pending) (complete_phase ph s)) as (imp & tr & Hrun).
    rewrite (bind_run _ _ _ _ _ Hrun). cbv beta iota.
    rewrite allSettled_fulfilled, rejected_only_fulfilled.
    rewrite bool_decide_eq_false_2 by (simpl; lia). by exists imp, tr.
Qed.

Lemma initialize_run s :
  initialized s = false →
  initialize W s =
  (Ret VUndefined,
   hook_worldLoad
     (importPhase W Bootstrap
        (if watchdogAvailable W then hook_watchdog (set_initialized s)
         else set_initialized s)).2).
Proof.
  intros Hinit. unfold initialize. mrun. rewrite Hinit.
  rewrite bind_modify. unfold setupWatchdogGuard.
  set (s0 := if watchdogAvailable W then hook_watchdog (set_initialized s)
             else set_initialized s).
  assert (Hguard : when (watchdogAvailable W) (modify hook_watchdog) (set_initialized s) =
                   (Ret tt, s0)).
  { unfold s0. by destruct (watchdogAvailable W). }
  rewrite (bind_run _ _ _ _ _ Hguard). cbv beta iota.
  destruct (importPhase_shape Bootstrap s0) as (imp & tr & Hphase).
  rewrite (bind_run _ _ _ _ _ Hphase). cbv beta iota. mrun. by rewrite Hphase.
Qed.

(** X19: [initialize].  The first call marks the bus as initialized, hooks
    the world-load signal (and the watchdog where the host has one), and
    runs the bootstrap phase: the phase is completed and every bootstrap
    entry queued so far has been loaded.  It changes neither the listeners
    nor the queue, and a second call does nothing. *)
Theorem initialize_once s :
  initialized s = false →
  ∃ s1,
    initialize W s = (Ret VUndefined, s1) ∧
    initialized s1 = true ∧ bootstrapCompleted s1 = true ∧ worldLoadHooked s1 = true ∧
    watchdogHooked s1 = (watchdogAvailable W || watchdogHooked s) ∧
    worldReady s1 = worldReady s ∧ runtimeCompleted s1 = runtimeCompleted s ∧
    Forall (λ en, phase en = Bootstrap → specifier en ∈ importedModules s1) (moduleQueue s) ∧
    listenersMap s1 = listenersMap s ∧ sets s1 = sets s ∧ moduleQueue s1 = moduleQueue s ∧
    initialize W s1 = (Ret VUndefined, s1).
Proof.
  intros Hinit. rewrite (initialize_run s Hinit).
  set (s0 := if watchdogAvailable W then hook_watchdog (set_initialized s)
             else set_initialized s) in *.
  pose proof (importPhase_attempts_all W Bootstrap s0) as Hall.
  destruct (importPhase_shape Bootstrap s0) as (imp & tr & Hphase).
  assert (Hq : moduleQueue s0 = moduleQueue s) by (unfold s0; by destruct (watchdogAvailable W)).
  rewrite Hq in Hall. eexists. split; [reflexivity|].
  split_and!; try exact Hall; rewrite Hphase; try done;
    try (unfold s0; by destruct (watchdogAvailable W)).
Qed.
End Phases.

Lemma initialize_once_witness :
  ∃ s1,
    initialize quiet_world fresh = (Ret VUndefined, s1) ∧
    initialized s1 = true ∧ bootstrapCompleted s1 = true ∧ worldLoadHooked s1 = true ∧
    watchdogHooked s1 = (watchdogAvailable quiet_world || watchdogHooked fresh) ∧
    worldReady s1 = worldReady fresh ∧ runtimeCompleted s1 = runtimeCompleted fresh ∧
    Forall (λ en, phase en = Bootstrap → specifier en ∈ importedModules s1)
      (moduleQueue fresh) ∧
    listenersMap s1 = listenersMap fresh ∧ sets s1 = sets fresh ∧
    moduleQueue s1 = moduleQueue fresh ∧
    initialize quiet_world s1 = (Ret VUndefined, s1).
Proof. apply (initialize_once quiet_world fresh). reflexivity. Defined.

(** ** The stages are passed in order *)

Lemma holds_ret I {A} (a : A) : holds I (ret a).
Proof. by intros s r s' HI [= _ <-]. Qed.

Lemma holds_throw I {A} err : holds I (@throw A err).
Proof. by intros s r s' HI [= _ <-]. Qed.

Lemma holds_out_of_fuel I {A} : holds I (@out_of_fuel A).
Proof. by intros s r s' HI [= _ <-]. Qed.

Lemma holds_gets I {A} (f : Bus → A) : holds I (gets f).
Proof. by intros s r s' HI [= _ <-]. Qed.

Lemma holds_modify (I : Bus → Prop) f : (∀ s, I s → I (f s)) → holds I (modify f).
Proof. intros Hf s r s' HI [= _ <-]. by apply Hf. Qed.

Lemma holds_bind I {A B} (m : M A) (k : A → M B) :
  holds I m → (∀ a, holds I (k a)) → holds I (bind m k).
Proof.
  intros Hm Hk s r s' HI. unfold bind.
  destruct (m s) as [[a|err|] s1] eqn:E; intros Hrun.
  - eapply Hk; [eapply Hm; [exact HI | exact E] | exact Hrun].
  - injection Hrun as _ <-. eapply Hm; [exact HI | exact E].
  - injection Hrun as _ <-. eapply Hm; [exact HI | exact E].
Qed.

Lemma holds_try_catch I {A} (m : M A) h :
  holds I m → (∀ err, holds I (h err)) → holds I (try_catch m h).
Proof.
  intros Hm Hh s r s' HI. unfold try_catch.
  destruct (m s) as [[a|err|] s1] eqn:E; intros Hrun.
  - injection Hrun as _ <-. eapply Hm; [exact HI | exact E].
  - eapply Hh; [eapply Hm; [exact HI | exact E] | exact Hrun].
  - injection Hrun as _ <-. eapply Hm; [exact HI | exact E].
Qed.

Lemma holds_try_finally I {A} (m : M A) f :
  holds I m → holds I f → holds I (try_finally m f).
Proof.
  intros Hm Hf s r s' HI. unfold try_finally.
  destruct (m s) as [[a|err|] s1] eqn:E.
  1,2: destruct (f s1) as [[[]|err'|] s2] eqn:E'; intros [= _ <-];
       (eapply Hf; [eapply Hm; [exact HI | exact E] | exact E']).
  intros [= _ <-]. eapply Hm; [exact HI | exact E].
Qed.

Lemma holds_when I b m : holds I m → holds I (when b m).
Proof. destruct b; [done | intros; apply holds_ret]. Qed.

Lemma holds_for_each I {A} (l : list A) body :
  (∀ x, holds I (body x)) → holds I (for_each l body).
Proof.
  intros Hb. induction l as [|x l IH]; simpl; [apply holds_ret|].
  apply holds_bind; [apply Hb | by intros].
Qed.

Lemma holds_map_M I {A B} (l : list A) (f : A → M B) :
  (∀ x, holds I (f x)) → holds I (map_M l f).
Proof.
  intros Hf. induction l as [|x l IH]; simpl; [apply holds_ret|].
  apply holds_bind; [apply Hf|]. intros y. apply holds_bind; [apply IH|].
  intros; apply holds_ret.
Qed.

Lemma staged_flags w s s' : flags s' = flags s → staged w s → staged w s'.
Proof. unfold flags, staged. intros [= -> -> -> -> ->]. done. Qed.

Lemma staged_weaken w s : staged true s → staged w s.
Proof. intros (H1 & H2 & H3 & H4). split_and!; [done..|]. intros _. by apply H4. Qed.

(** An update that leaves the stages alone. *)
Lemma holds_quiet w f : (∀ s, flags (f s) = flags s) → holds (staged w) (modify f).
Proof. intros Hf. apply holds_modify. intros s. by apply staged_flags. Qed.

Create HintDb stg discriminated.
#[local] Hint Resolve holds_ret holds_throw holds_out_of_fuel holds_gets holds_when
  holds_for_each holds_map_M : stg.
#[local] Hint Extern 1 (holds _ (bind _ _)) => apply holds_bind; [|intros] : stg.
#[local] Hint Extern 1 (holds _ (try_catch _ _)) => apply holds_try_catch; [|intros] : stg.
#[local] Hint Extern 1 (holds _ (try_finally _ _)) => apply holds_try_finally : stg.
#[local] Hint Extern 1 (holds _ (modify _)) => apply holds_quiet; intros; reflexivity : stg.
#[local] Hint Extern 2 (holds _ (match ?x with _ => _ end)) => destruct x : stg.

Section Stages.
Context (W : World).

Lemma staged_validateEventName w v : holds (staged w) (validateEventName v).
Proof. destruct v; simpl; auto with stg. Qed.
Lemma staged_validateHandler w v : holds (staged w) (validateHandler v).
Proof. destruct v; simpl; auto with stg. Qed.
Hint Resolve staged_validateEventName staged_validateHandler : stg.

Lemma staged_new_closure w c : holds (staged w) (new_closure c).
Proof. unfold new_closure. auto 10 with stg. Qed.
Hint Resolve staged_new_closure : stg.

Lemma staged_on w e h : holds (staged w) (on e h).
Proof. unfold on. auto 20 with stg. Qed.
Hint Resolve staged_on : stg.

Lemma staged_once w e h : holds (staged w) (once e h).
Proof. unfold once. auto 10 with stg. Qed.

Lemma staged_off w e h : holds (staged w) (off e h).
Proof. unfold off. destruct e; auto 20 with stg. Qed.

Lemma staged_clearListeners w e : holds (staged w) (clearListeners e).
Proof. apply staged_off. Qed.
Hint Resolve staged_once staged_off staged_clearListeners : stg.

Lemma staged_importModule w spec : holds (staged w) (importModule W spec).
Proof. unfold importModule. auto 20 with stg. Qed.
Hint Resolve staged_importModule : stg.

Lemma staged_validateModuleSpecifier w v : holds (staged w) (validateModuleSpecifier v).
Proof. destruct v; simpl; auto with stg. Qed.

Lemma staged_resolveModuleSpecifier w sp a : holds (staged w) (resolveModuleSpecifier W sp a).
Proof.
  unfold resolveModuleSpecifier.
  repeat match goal with
         | |- holds _ (if ?b then _ else _) => destruct b
         | |- holds _ (match ?b with _ => _ end) => destruct b
         end; auto with stg.
Qed.
Hint Resolve staged_validateModuleSpecifier staged_resolveModuleSpecifier : stg.

Lemma staged_registerModule w spec o : holds (staged w) (registerModule W spec o).
Proof.
  unfold registerModule.
  repeat (apply holds_bind; [auto with stg|]; intros).
  auto with stg.
Qed.
Hint Resolve staged_registerModule : stg.

(** The event sources are bound when the world is ready. *)
Lemma staged_attachMinecraftEvents : holds (staged true) (attachMinecraftEvents W).
Proof.
  unfold attachMinecraftEvents. apply holds_for_each. intros ev. apply holds_when.
  apply holds_modify. intros s (H1 & H2 & H3 & H4). split_and!; try done.
  intros Hready. cbn in Hready. by rewrite H4 in Hready.
Qed.
Hint Resolve staged_attachMinecraftEvents : stg.

(** The runtime phase is run when the world is ready. *)
Lemma staged_importPhase_runtime : holds (staged true) (importPhase W Runtime).
Proof.
  intros s r s' (H1 & H2 & H3 & H4).
  destruct (importPhase_shape W Runtime s) as (imp & tr & ->).
  intros [= _ <-]. split_and!; [intros _; by apply H4 | done | done | done].
Qed.
Hint Resolve staged_importPhase_runtime : stg.

Lemma staged_initialize w : holds (staged w) (initialize W).
Proof.
  intros s r s' (H1 & H2 & H3 & H4). destruct (initialized s) eqn:Hinit.
  - unfold initialize. mrun. rewrite Hinit. intros [= _ <-].
    unfold staged. by rewrite Hinit.
  - rewrite (initialize_run W s Hinit).
    destruct (importPhase_shape W Bootstrap
                (if watchdogAvailable W then hook_watchdog (set_initialized s)
                 else set_initialized s)) as (imp & tr & ->).
    intros [= _ <-]. unfold staged. by destruct (watchdogAvailable W).
Qed.
Hint Resolve staged_initialize : stg.

Section Open.
Variable invoke : Fn → list Value → M Value.
Hypothesis staged_invoke : ∀ w f args, holds (staged w) (invoke f args).
Hint Resolve staged_invoke : stg.

Lemma staged_call_listener w sp wc e p fn :
  holds (staged w) (call_listener invoke sp wc e p fn).
Proof. unfold call_listener. apply holds_bind; [auto with stg|]. intros []; auto with stg. Qed.
Hint Resolve staged_call_listener : stg.

Lemma staged_emit w e p : holds (staged w) (emit invoke e p).
Proof.
  unfold emit. apply holds_bind; [auto with stg|]. intros e'.
  apply holds_bind; [auto with stg|]. intros sp.
  apply holds_bind; [auto with stg|]. intros wc.
  assert (holds (staged w) (handlers <- gets (delivery sp wc);;
    for_each handlers (λ fn, try_catch (call_listener invoke sp wc e' p fn;; ret tt)
      (λ error, modify (log (ErrorHandlerFailure e' error))));; ret VUndefined)).
  { auto 10 with stg. }
  destruct sp, wc; auto with stg.
Qed.

Lemma staged_emitAsync w e p : holds (staged w) (emitAsync invoke e p).
Proof.
  unfold emitAsync. destruct e; auto with stg.
  apply holds_bind; [auto with stg|]. intros sp.
  apply holds_bind; [auto with stg|]. intros wc.
  assert (holds (staged w) (handlers <- gets (delivery sp wc);;
                tasks <- map_M handlers (launch invoke sp wc s p);; ret (allSettled tasks))).
  { apply holds_bind; [auto with stg|]. intros hs.
    apply holds_bind; [|auto with stg]. apply holds_map_M. intros fn.
    unfold launch. auto 10 with stg. }
  destruct sp, wc; auto with stg.
Qed.
Hint Resolve staged_emit staged_emitAsync : stg.

Lemma staged_onWorldLoad w ev : holds (staged w) (onWorldLoad W invoke ev).
Proof.
  intros s r s' Hs. unfold onWorldLoad. rewrite bind_gets.
  destruct (worldReady s) eqn:Hready; [by intros [= _ <-]|].
  rewrite bind_modify. intros Hrun. apply staged_weaken.
  assert (Hs1 : staged true (set_worldReady s)).
  { destruct Hs as (H1 & H2 & H3 & H4). by split_and!. }
  assert (Hbody : holds (staged true)
            (try_catch (attachMinecraftEvents W;; emit invoke (VStr BUS_WORLD_LOAD) ev;;
                        importPhase W Runtime)
               (λ error, modify (log (ErrorWorldLoad error))))).
  { apply holds_try_catch; [|intros; auto with stg].
    apply holds_bind; [apply staged_attachMinecraftEvents|]. intros _.
    apply holds_bind; [apply staged_emit|]. intros _.
    apply staged_importPhase_runtime. }
  exact (Hbody _ _ _ Hs1 Hrun).
Qed.

Lemma staged_onWatchdog w shutdown : holds (staged w) (onWatchdog invoke shutdown).
Proof. unfold onWatchdog. auto 10 with stg. Qed.

Lemma staged_exec_cmd w c : holds (staged w) (exec_cmd W invoke c).
Proof. induction c; simpl; auto 10 with stg. Qed.
Hint Resolve staged_exec_cmd : stg.

Lemma staged_run w body : holds (staged w) (run W invoke body).
Proof.
  induction body as [|c rest IH]; simpl; [auto with stg|].
  apply holds_bind; [auto with stg|]. intros [v|]; auto with stg.
Qed.
Hint Resolve staged_run : stg.

Lemma staged_fn_body w f args : holds (staged w) (fn_body W invoke f args).
Proof.
  unfold fn_body. destruct f as [id|addr]; [auto 10 with stg|].
  apply holds_bind; [auto with stg|]. intros [[e h completed|e h|id]|]; auto 10 with stg.
  unfold wrapper_body. destruct completed; auto 20 with stg.
Qed.

Lemma staged_apply_fn w f args : holds (staged w) (apply_fn W invoke f args).
Proof. unfold apply_fn. apply holds_bind; [auto with stg|]. intros. apply staged_fn_body. Qed.
End Open.

Lemma staged_invoke w fuel f args : holds (staged w) (invoke W fuel f args).
Proof.
  revert w f args. induction fuel as [|n IH]; intros w f args; simpl; [auto with stg|].
  by apply staged_apply_fn.
Qed.

Lemma staged_step w fuel op s : staged w s → staged w (step W fuel op s).
Proof.
  intros Hs. destruct op as [c|ev|sd|name p]; cbn [step].
  - destruct (exec_cmd W (invoke W fuel) c s) as [r s'] eqn:Hrun.
    eapply staged_exec_cmd; [intros; apply staged_invoke | exact Hs | exact Hrun].
  - destruct (worldLoadHooked s); [|done].
    destruct (onWorldLoad W (invoke W fuel) ev s) as [r s'] eqn:Hrun.
    eapply staged_onWorldLoad; [intros; apply staged_invoke | exact Hs | exact Hrun].
  - destruct (watchdogHooked s); [|done].
    destruct (onWatchdog (invoke W fuel) sd s) as [r s'] eqn:Hrun.
    eapply staged_onWatchdog; [intros; apply staged_invoke | exact Hs | exact Hrun].
  - case_bool_decide; [|done].
    destruct (emit (invoke W fuel) (VStr name) p s) as [r s'] eqn:Hrun.
    eapply staged_emit; [intros; apply staged_invoke | exact Hs | exact Hrun].
Qed.

Lemma staged_run_ops w fuel ops s : staged w s → staged w (run_ops W fuel ops s).
Proof.
  revert s. induction ops as [|op ops IH]; intros s Hs; [done|].
  cbn. apply IH. by apply staged_step.
Qed.

Lemma staged_fresh : staged false fresh.
Proof. by split_and!. Qed.
End Stages.

(** ** [registerModule] and the capability it returns *)

Section Registration.
Context (W : World).

Lemma registerModule_inv spec options s r s' :
  registerModule W spec options s = (r, s') →
  (∃ err, r = Throw err ∧ s' = s) ∨
  (∃ resolved,
     let ph := normalizePhase (opt_phase options) (opt_beforeLoad options) in
     let s1 := push_entry resolved ph s in
     r = Ret (VFn (FClosure (length (closures s)))) ∧
     s' = alloc (CancelModule (entries s))
            (if phase_completed ph s
             then (if decide (resolved ∈ importedModules s) then s1 else loaded W resolved s1)
             else s1)).
Proof.
  unfold registerModule. intros Hrun.
  destruct spec as [| | | |sp| | | |];
    try (injection Hrun as <- <-; left; by eexists).
  cbn [validateModuleSpecifier] in Hrun.
  destruct (String.eqb (trim sp) ""); [injection Hrun as <- <-; left; by eexists|].
  rewrite bind_ret in Hrun. revert Hrun. unfold bind at 1.
  destruct (resolveModuleSpecifier W sp (opt_anchor options) s) as [[resolved|err|] s1] eqn:Hres;
    pose proof (resolveModuleSpecifier_state W _ _ _ _ _ Hres) as ->.
  - mrun. right. exists resolved. cbn zeta.
    replace (phase_completed _ (push_entry resolved _ s)) with
      (phase_completed (normalizePhase (opt_phase options) (opt_beforeLoad options)) s)
      in Hrun by by destruct (normalizePhase _ _).
    destruct (phase_completed _ s).
    + revert Hrun.
      erewrite bind_run by (erewrite bind_run by apply importModule_run; done).
      unfold new_closure. mrun. intros [= <- <-]. split; [|done].
      by case_decide; try destruct (importOutcome W resolved) eqn:E; unfold loaded;
        rewrite ?E.
    + revert Hrun. unfold new_closure. mrun. by intros [= <- <-].
  - intros [= <- <-]. left. by eexists.
  - revert Hres. unfold resolveModuleSpecifier. by repeat case_match.
Qed.
End Registration.

(** X20: the stages are passed in order.  In every run from the initial
    state the bootstrap phase is completed exactly when the bus is
    initialized, and the runtime phase is completed only once the world is
    ready.  So while the world is not ready, [registerModule] of a runtime
    entry loads nothing (the loaded set and the trace stay as they are), no
    event source of the host is bound, and an event of the host changes
    nothing. *)
Theorem runtime_modules_wait_for_world_load W fuel ops spec options :
  let s := run_ops W fuel ops fresh in
  bootstrapCompleted s = initialized s ∧
  (runtimeCompleted s = true → worldReady s = true) ∧
  (worldReady s = false →
   normalizePhase (opt_phase options) (opt_beforeLoad options) = Runtime →
   importedModules (registerModule W spec options s).2 = importedModules s ∧
   trace (registerModule W spec options s).2 = trace s) ∧
  (worldReady s = false →
   sourcesBound s = [] ∧ ∀ name payload, step W fuel (HostEvent name payload) s = s).
Proof.
  intros s.
  destruct (staged_run_ops W false fuel ops fresh staged_fresh) as (H1 & H2 & H3 & _).
  fold s in H1, H2, H3. split_and!; [done..| |].
  - intros Hready Hph.
    destruct (registerModule W spec options s) as [r s'] eqn:Hrun.
    apply registerModule_inv in Hrun as [(err & _ & ->) | (resolved & _ & ->)]; [done|].
    rewrite Hph. cbn [phase_completed].
    destruct (runtimeCompleted s) eqn:Hrt; [|done].
    rewrite H1 in Hready; done.
  - intros Hready. split; [by apply H3|]. intros name payload. cbn [step].
    rewrite (H3 Hready). by rewrite bool_decide_eq_false_2 by by intros ?%elem_of_nil.
Qed.

Lemma runtime_modules_wait_for_world_load_witness :
  let s := run_ops quiet_world 1 [Do CInitialize] fresh in
  bootstrapCompleted s = initialized s ∧
  (runtimeCompleted s = true → worldReady s = true) ∧
  (worldReady s = false →
   normalizePhase (opt_phase runtime_options) (opt_beforeLoad runtime_options) = Runtime →
   importedModules (registerModule quiet_world (VStr "plots") runtime_options s).2 =
     importedModules s ∧
   trace (registerModule quiet_world (VStr "plots") runtime_options s).2 = trace s) ∧
  (worldReady s = false →
   sourcesBound s = [] ∧
   ∀ name payload, step quiet_world 1 (HostEvent name payload) s = s).
Proof.
  exact (runtime_modules_wait_for_world_load quiet_world 1 [Do CInitialize]
           (VStr "plots") runtime_options).
Defined.

(** ** The queue and its identities *)

Lemma queue_ok_astep s s' : astep s s' → queue_ok s → queue_ok s'.
Proof.
  destruct 1 as [ev s _|e h s|e r h s E|e s|s|c s|addr s|sp ph s|id s|sp s _|ph s
                |i w wd wl b s|cell v s];
    intros Hq; try exact Hq.
  - unfold listen. by destruct (map_get e (listenersMap s)).
  - unfold unlisten. by destruct (bool_decide _).
  - unfold queue_ok in *. cbn. apply Forall_app. split.
    + eapply Forall_impl; [exact Hq|]. intros en. cbn. lia.
    + constructor; [cbn; lia | constructor].
  - unfold queue_ok in *. cbn.
    induction (moduleQueue s) as [|en q IH]; [done|].
    apply Forall_cons in Hq as [Hen Hq]. cbn. case_decide; [done|].
    constructor; [done | by apply IH].
  - by destruct ph.
Qed.

Lemma queue_ok_reach s s' : reach s s' → queue_ok s → queue_ok s'.
Proof. induction 1; eauto using queue_ok_astep. Qed.

Lemma remove_entry_absent id q :
  Forall (λ en, ident en ≠ id) q → remove_entry id q = q.
Proof.
  induction 1 as [|en q Hen _ IH]; [done|]. cbn. rewrite decide_False by done. by f_equal.
Qed.

Lemma remove_entry_last id spec ph q :
  Forall (λ en, ident en ≠ id) q → remove_entry id (q ++ [mkEntry spec ph id]) = q.
Proof.
  induction 1 as [|en q Hen _ IH]; cbn; [by rewrite decide_True|].
  rewrite decide_False by done. by f_equal.
Qed.

(** X21: the capability [registerModule] returns takes its entry out of the
    queue again.  In every run from the initial state, calling it restores
    the queue as it was before the registration, and calling it once more
    changes nothing in the queue; the loaded set is not touched. *)
Theorem cancel_restores_the_queue W fuel ops k spec options v s1 :
  let s := run_ops W fuel ops fresh in
  registerModule W spec options s = (Ret v, s1) →
  ∃ cancel s2 s3,
    v = VFn cancel ∧
    invoke W (S k) cancel [] s1 = (Ret VUndefined, s2) ∧
    moduleQueue s2 = moduleQueue s ∧
    importedModules s2 = importedModules s1 ∧
    invoke W (S k) cancel [] s2 = (Ret VUndefined, s3) ∧
    moduleQueue s3 = moduleQueue s.
Proof.
  intros s Hrun.
  assert (Hq : queue_ok s).
  { eapply queue_ok_reach; [apply reach_run_ops|]. constructor. }
  assert (Hne : Forall (λ en, ident en ≠ entries s) (moduleQueue s)).
  { eapply Forall_impl; [exact Hq|]. intros en. cbn. lia. }
  apply registerModule_inv in Hrun as [(err & [= ] & _) | (resolved & [= ->] & ->)].
  set (ph := normalizePhase (opt_phase options) (opt_beforeLoad options)) in *.
  set (body := if phase_completed ph s
               then (if decide (resolved ∈ importedModules s) then push_entry resolved ph s
                     else loaded W resolved (push_entry resolved ph s))
               else push_entry resolved ph s).
  assert (Hbody : closures body = closures s ∧
                  moduleQueue body = moduleQueue s ++ [mkEntry resolved ph (entries s)]).
  { unfold body. destruct (phase_completed ph s); [|done].
    case_decide; [done|]. unfold loaded. by destruct (importOutcome W resolved). }
  destruct Hbody as [Hcl Hqueue].
  assert (Hcall : ∀ s0, closures s0 !! length (closures s) = Some (CancelModule (entries s)) →
            invoke W (S k) (FClosure (length (closures s))) [] s0 =
            (Ret VUndefined,
             cancel_entry (entries s) (log (Invoked (FClosure (length (closures s))) []) s0))).
  { intros s0 Hlook. cbn [invoke]. unfold apply_fn. rewrite bind_modify.
    unfold fn_body. rewrite bind_gets. cbn [log with_trace closures]. rewrite Hlook.
    by rewrite bind_modify. }
  eexists _, _, _. split; [done|]. split_and!.
  - apply Hcall. cbn [alloc with_closures closures]. rewrite Hcl.
    by rewrite lookup_app_r, Nat.sub_diag.
  - cbn. rewrite Hqueue. by apply remove_entry_last.
  - done.
  - apply Hcall. cbn. rewrite Hcl. by rewrite lookup_app_r, Nat.sub_diag.
  - cbn. rewrite Hqueue, remove_entry_last by done. by apply remove_entry_absent.
Qed.

Lemma cancel_restores_the_queue_witness :
  let s := run_ops quiet_world 1 [Do CInitialize] fresh in
  ∃ cancel s2 s3,
    VFn (FClosure 0) = VFn cancel ∧
    invoke quiet_world 1 cancel []
      (registerModule quiet_world (VStr "plots") runtime_options s).2 = (Ret VUndefined, s2) ∧
    moduleQueue s2 = moduleQueue s ∧
    importedModules s2 =
      importedModules (registerModule quiet_world (VStr "plots") runtime_options s).2 ∧
    invoke quiet_world 1 cancel [] s2 = (Ret VUndefined, s3) ∧
    moduleQueue s3 = moduleQueue s.
Proof.
  intros s.
  apply (cancel_restores_the_queue quiet_world 1 [Do CInitialize] 0 (VStr "plots")
           runtime_options (VFn (FClosure 0))
           (registerModule quiet_world (VStr "plots") runtime_options s).2).
  reflexivity.
Defined.

(** ** The world-load signal *)

Section WorldLoad.
Context (W : World).

Lemma attach_run l s :
  for_each l (λ ev, when (sourceAvailable W ev) (modify (bind_source ev))) s =
  (Ret tt,
   with_lifecycle (initialized s) (worldReady s) (watchdogHooked s) (worldLoadHooked s)
     (sourcesBound s ++ filter (λ ev, sourceAvailable W ev = true) l) s).
Proof.
  revert s. induction l as [|ev l IH]; intros s.
  - cbn. unfold ret. f_equal. rewrite app_nil_r. by destruct s.
  - cbn [for_each]. destruct (sourceAvailable W ev) eqn:Hev.
    + rewrite filter_cons_True by done. cbn [when]. rewrite bind_modify, IH.
      f_equal. unfold bind_source, with_lifecycle. cbn. by rewrite <- app_assoc.
    + rewrite filter_cons_False by by rewrite Hev. cbn [when]. rewrite bind_ret. apply IH.
Qed.

Lemma importModule_calls_nobody spec s :
  ∃ evs, trace (importModule W spec s).2 = trace s ++ evs ∧ invoked_fns evs = [].
Proof.
  rewrite importModule_run. cbn [snd]. case_decide.
  - exists []. by rewrite app_nil_r.
  - unfold loaded, load. destruct (importOutcome W spec) as [err|].
    + exists [Import spec; ErrorImportFailed spec err]. simpl. by rewrite <- app_assoc.
    + by exists [Import spec].
Qed.

Lemma import_batch_calls_nobody pending s :
  ∃ evs, trace (map_M pending (λ en, importModule W (specifier en)) s).2 = trace s ++ evs ∧
         invoked_fns evs = [].
Proof.
  revert s. induction pending as [|en pending IH]; intros s.
  - exists []. by rewrite app_nil_r.
  - destruct (importModule_calls_nobody (specifier en) s) as (evs1 & Ht1 & Hq1).
    destruct (IH (importModule W (specifier en) s).2) as (evs2 & Ht2 & Hq2).
    exists (evs1 ++ evs2). split.
    + cbn [map_M]. rewrite (bind_run _ _ _ _ _ (importModule_run W (specifier en) s)).
      cbv beta iota. rewrite importModule_run in Ht2, Ht1. cbn [snd] in Ht2, Ht1.
      destruct (import_batch W pending
                  (if decide (specifier en ∈ importedModules s) then s
                   else loaded W (specifier en) s)) as (s' & evs & Hrun & _).
      rewrite Hrun in Ht2. cbn [snd] in Ht2.
      rewrite (bind_run _ _ _ _ _ Hrun). cbn. by rewrite Ht2, Ht1, app_assoc.
    + by rewrite invoked_fns_app, Hq1, Hq2.
Qed.

Lemma importPhase_calls_nobody ph s :
  ∃ evs, trace (importPhase W ph s).2 = trace s ++ evs ∧ invoked_fns evs = [].
Proof.
  unfold importPhase. mrun.
  destruct (filter (λ en, phase en = ph) (moduleQueue s)) as [|en pending] eqn:Hpending.
  - exists []. rewrite app_nil_r. by destruct ph.
  - destruct (import_batch_calls_nobody (en :: pending) (complete_phase ph s))
      as (evs & Ht & Hq).
    destruct (import_batch W (en :: pending) (complete_phase ph s)) as (s' & evs' & Hrun & _).
    rewrite Hrun in Ht. cbn [snd] in Ht.
    rewrite (bind_run _ _ _ _ _ Hrun). cbv beta iota.
    rewrite allSettled_fulfilled, rejected_only_fulfilled.
    exists evs. split; [|done]. rewrite bool_decide_eq_false_2 by (simpl; lia).
    cbn [when ret snd]. rewrite Ht. by destruct ph.
Qed.

(** X22: the world-load signal.  On a bus that has hooked it and is not
    ready yet, with [worldLoad] listeners that do not call the bus: the world
    is marked as ready, the event sources the host has are bound, every
    [worldLoad] listener is called once, in order, and the runtime phase is
    completed with every runtime entry of the queue loaded.  A second signal
    changes nothing. *)
Theorem world_load_runs_the_runtime_phase n ev s :
  worldLoadHooked s = true → worldReady s = false →
  Forall (passive W) (delivery_of BUS_WORLD_LOAD s) →
  let s1 := step W (S n) (HostWorldLoad ev) s in
  worldReady s1 = true ∧ runtimeCompleted s1 = true ∧
  sourcesBound s1 =
    sourcesBound s ++ filter (λ e, sourceAvailable W e = true) bindings ∧
  invoked_fns (since (length (trace s)) s1) = delivery_of BUS_WORLD_LOAD s ∧
  Forall (λ en, phase en = Runtime → specifier en ∈ importedModules s1) (moduleQueue s) ∧
  ∀ ev', step W (S n) (HostWorldLoad ev') s1 = s1.
Proof.
  intros Hhook Hready Hpassive s1.
  set (sa := with_lifecycle (initialized s) true (watchdogHooked s) (worldLoadHooked s)
               (sourcesBound s ++ filter (λ e, sourceAvailable W e = true) bindings) s).
  assert (Hattach : attachMinecraftEvents W (set_worldReady s) = (Ret tt, sa)).
  { unfold attachMinecraftEvents. by rewrite attach_run. }
  assert (Hdel : delivery_of BUS_WORLD_LOAD sa = delivery_of BUS_WORLD_LOAD s) by done.
  set (se := with_trace (trace sa ++
               flat_map (call_events W (map_get BUS_WORLD_LOAD (listenersMap sa))
                           (map_get BUS_ANY (listenersMap sa)) BUS_WORLD_LOAD ev sa)
                 (delivery_of BUS_WORLD_LOAD sa)) sa).
  assert (Hemit : emit (invoke W (S n)) (VStr BUS_WORLD_LOAD) ev sa = (Ret VUndefined, se)).
  { apply emit_passive. by rewrite Hdel. }
  destruct (importPhase_shape W Runtime se) as (imp & tr & Hphase).
  destruct (importPhase_calls_nobody Runtime se) as (evs & Ht & Hq).
  pose proof (importPhase_attempts_all W Runtime se) as Hall.
  assert (Hs1 : s1 = (importPhase W Runtime se).2).
  { unfold s1. cbn [step]. rewrite Hhook. unfold onWorldLoad. rewrite bind_gets, Hready.
    rewrite bind_modify. unfold try_catch.
    rewrite (bind_run _ _ _ _ _ Hattach). cbv beta iota.
    rewrite (bind_run _ _ _ _ _ Hemit). cbv beta iota. by rewrite Hphase. }
  rewrite Hs1. split_and!.
  - by rewrite Hphase.
  - by rewrite Hphase.
  - by rewrite Hphase.
  - unfold since. rewrite Ht. unfold se. cbn [trace with_trace].
    change (trace sa) with (trace s). rewrite <- app_assoc, drop_app_length.
    rewrite invoked_fns_app, Hq, app_nil_r. by rewrite invoked_fns_call_events.
  - exact Hall.
  - intros ev'. cbn [step]. rewrite Hphase. cbn. rewrite Hhook. done.
Qed.
End WorldLoad.

Lemma world_load_runs_the_runtime_phase_witness :
  let s := run_ops quiet_world 1
             [Do CInitialize; Do (COn (VStr "worldLoad") (VFn (FUser 0)));
              Do (CRegisterModule (VStr "plots") runtime_options)] fresh in
  let s1 := step quiet_world 1 (HostWorldLoad VNull) s in
  worldReady s1 = true ∧ runtimeCompleted s1 = true ∧
  sourcesBound s1 =
    sourcesBound s ++ filter (λ e, sourceAvailable quiet_world e = true) bindings ∧
  invoked_fns (since (length (trace s)) s1) = delivery_of BUS_WORLD_LOAD s ∧
  Forall (λ en, phase en = Runtime → specifier en ∈ importedModules s1) (moduleQueue s) ∧
  ∀ ev', step quiet_world 1 (HostWorldLoad ev') s1 = s1.
Proof.
  intros s.
  apply (world_load_runs_the_runtime_phase quiet_world 0 VNull s); try reflexivity.
  repeat constructor.
Defined.

(** * More of the registry *)

(** ** [on] and the function it returns *)

Lemma set_delete_add h l : h ∉ l → set_delete h (set_add h l) = l.
Proof.
  intros Hh. unfold set_delete, set_add. rewrite decide_False by done.
  rewrite filter_app, filter_cons_False, filter_nil, app_nil_r by (by intros ?).
  induction l as [|x l IH]; [done|].
  apply not_elem_of_cons in Hh as [Hx Hl].
  rewrite filter_cons_True by done. f_equal. by apply IH.
Qed.

Lemma set_delete_absent h l : h ∉ l → set_delete h l = l.
Proof.
  intros Hh. unfold set_delete. induction l as [|x l IH]; [done|].
  apply not_elem_of_cons in Hh as [Hx Hl].
  rewrite filter_cons_True by done. f_equal. by apply IH.
Qed.

Lemma ref_live e r s : wf s → map_get e (listenersMap s) = Some r → r < length (sets s).
Proof.
  intros (_ & Hlive & _) E. destruct (Hlive e r) as (l & Hl & _); [by apply map_get_elem|].
  by eapply lookup_lt_Some.
Qed.

Lemma refs_differ e e' r r' s :
  wf s → e' ≠ e →
  map_get e (listenersMap s) = Some r → map_get e' (listenersMap s) = Some r' → r' ≠ r.
Proof.
  intros (Hrefs & _ & _) Hne E E' ->. apply Hne.
  eapply refs_unique; [exact Hrefs | by apply map_get_elem..].
Qed.

Lemma listeners_of_listen_ne e e' h s :
  wf s → e' ≠ e → listeners_of e' (listen e h s) = listeners_of e' s.
Proof.
  intros Hwf Hne. unfold listeners_of, listen.
  destruct (map_get e (listenersMap s)) as [r|] eqn:E; cbn;
    rewrite map_get_set_ne by done;
    destruct (map_get e' (listenersMap s)) as [r'|] eqn:E'; try done;
    unfold set_at; cbn.
  - rewrite list_lookup_alter_ne; [done|]. intros ->. by eapply refs_differ.
  - pose proof (ref_live _ _ _ Hwf E') as Hlt.
    rewrite list_lookup_alter_ne by lia. by rewrite lookup_app_l.
Qed.

Lemma listeners_of_unlisten e r h s :
  wf s → map_get e (listenersMap s) = Some r →
  listeners_of e (unlisten e r h s) = set_delete h (listeners_of e s).
Proof.
  intros Hwf E. destruct Hwf as (_ & Hlive & _).
  destruct (Hlive e r) as (l & Hl & _); [by apply map_get_elem|].
  assert (Hat : set_at r (delete_from r h s) = set_delete h l).
  { unfold set_at, delete_from. cbn. by rewrite list_lookup_alter_eq, Hl. }
  assert (Hl0 : listeners_of e s = l).
  { unfold listeners_of, set_at. by rewrite E, Hl. }
  unfold unlisten. cbv zeta. rewrite Hat, Hl0. case_bool_decide as Hempty.
  - unfold listeners_of, drop_event. cbn. rewrite map_get_delete.
    symmetry. by apply nil_length_inv.
  - unfold listeners_of. cbn [listenersMap delete_from with_registry]. by rewrite E.
Qed.

Lemma listeners_of_unlisten_ne e e' r h s :
  wf s → e' ≠ e → map_get e (listenersMap s) = Some r →
  listeners_of e' (unlisten e r h s) = listeners_of e' s.
Proof.
  intros Hwf Hne E.
  assert (Hdel : listeners_of e' (delete_from r h s) = listeners_of e' s).
  { unfold listeners_of, delete_from, set_at. cbn.
    destruct (map_get e' (listenersMap s)) as [r'|] eqn:E'; [|done].
    rewrite list_lookup_alter_ne; [done|]. intros ->. by eapply refs_differ. }
  unfold unlisten. case_bool_decide; [|done].
  rewrite <- Hdel. unfold listeners_of, drop_event, set_at. cbn.
  by rewrite map_get_delete_ne.
Qed.

Section Unsubscribe.
Context (W : World).

(** The state after the function at [length (closures s)] that [on]
    returned has been called. *)
Lemma unsubscribe_run k e h s :
  ∃ r, map_get e (listenersMap (listen e h s)) = Some r ∧
    invoke W (S k) (FClosure (length (closures s))) [] (on (VStr e) (VFn h) s).2 =
    (Ret VUndefined,
     unlisten e r h
       (log (Invoked (FClosure (length (closures s))) [])
          (alloc (Unsubscribe e h) (warn_leak e (listen_ref e s) (listen e h s))))).
Proof.
  assert (Hr : ∃ r, map_get e (listenersMap (listen e h s)) = Some r).
  { unfold listen. destruct (map_get e (listenersMap s)); cbn; rewrite map_get_set; by eexists. }
  destruct Hr as [r Hr]. exists r. split; [done|].
  rewrite on_run. cbn [snd invoke]. unfold apply_fn. rewrite bind_modify.
  unfold fn_body. rewrite bind_gets.
  assert (Hcl : closures (warn_leak e (listen_ref e s) (listen e h s)) = closures s).
  { unfold warn_leak, listen. destruct (bool_decide _), (map_get e (listenersMap s)); done. }
  cbn [log with_trace alloc with_closures closures]. rewrite Hcl.
  rewrite lookup_app_r, Nat.sub_diag by done. cbn [lookup list_lookup].
  apply off_run_fn. cbn. unfold warn_leak. by destruct (bool_decide _).
Qed.

Lemma unsubscribe_effect k e h s :
  wf s →
  ∃ s2,
    invoke W (S k) (FClosure (length (closures s))) [] (on (VStr e) (VFn h) s).2 =
      (Ret VUndefined, s2) ∧
    listeners_of e s2 = set_delete h (set_add h (listeners_of e s)) ∧
    ∀ e', e' ≠ e → listeners_of e' s2 = listeners_of e' s.
Proof.
  intros Hwf. destruct (unsubscribe_run k e h s) as (r & Hr & Hrun).
  eexists. split; [exact Hrun|].
  set (s1 := log (Invoked (FClosure (length (closures s))) [])
               (alloc (Unsubscribe e h) (warn_leak e (listen_ref e s) (listen e h s)))).
  assert (Hreg : listenersMap s1 = listenersMap (listen e h s) ∧ sets s1 = sets (listen e h s)).
  { unfold s1, warn_leak. by destruct (bool_decide _). }
  destruct Hreg as [Hmap Hsets].
  assert (Hwf1 : wf s1).
  { unfold wf. rewrite Hmap, Hsets. apply (wf_astep s); [apply a_listen | done]. }
  assert (Hr1 : map_get e (listenersMap s1) = Some r) by by rewrite Hmap.
  assert (Hsame : ∀ e', listeners_of e' s1 = listeners_of e' (listen e h s)).
  { intros e'. by apply listeners_of_same. }
  split.
  - rewrite listeners_of_unlisten by done. by rewrite Hsame, listeners_of_listen.
  - intros e' Hne. rewrite listeners_of_unlisten_ne by done.
    rewrite Hsame. by apply listeners_of_listen_ne.
Qed.

(** X23: the function [on] returns undoes the registration.  On a
    well-formed bus, after [on(e, h)] and a call of the function it
    returned, [h] is not a listener of [e]; the listeners of every other
    event are the same as before in the same order, and so are those of [e]
    when [h] was not registered for it before. *)
Theorem on_then_unsubscribe k e h s v s1 :
  wf s →
  on (VStr e) (VFn h) s = (Ret v, s1) →
  ∃ unsub s2,
    v = VFn unsub ∧
    invoke W (S k) unsub [] s1 = (Ret VUndefined, s2) ∧
    (h ∉ listeners_of e s2) ∧
    (∀ e', e' ≠ e → listeners_of e' s2 = listeners_of e' s) ∧
    (h ∉ listeners_of e s → listeners_of e s2 = listeners_of e s).
Proof.
  intros Hwf Hon. destruct (unsubscribe_effect k e h s Hwf) as (s2 & Hrun & He & Hothers).
  rewrite Hon in Hrun. cbn [snd] in Hrun.
  rewrite on_run in Hon. injection Hon as <- <-.
  assert (Hcl : closures (warn_leak e (listen_ref e s) (listen e h s)) = closures s).
  { unfold warn_leak, listen. destruct (bool_decide _), (map_get e (listenersMap s)); done. }
  rewrite Hcl. exists (FClosure (length (closures s))), s2. split_and!; [done..| | done |].
  - rewrite He. apply set_delete_elem.
  - intros Hh. rewrite He. by apply set_delete_add.
Qed.

(** X24: a [once] registration that is taken back is never delivered.  On
    a well-formed bus whose listeners for [e] do not call the bus and do not
    include [L]: after [once(e, L)] and a call of the function it returned,
    the listeners of every event are the same as before, and [emit(e, p)]
    calls the listeners it would have called before, in order, and not [L]. *)
Theorem once_then_unsubscribe k n e l p s v s1 :
  wf s →
  Forall (passive W) (delivery_of e s) →
  FUser l ∉ delivery_of e s →
  once (VStr e) (VFn (FUser l)) s = (Ret v, s1) →
  ∃ unsub s2 evs,
    v = VFn unsub ∧
    invoke W (S k) unsub [] s1 = (Ret VUndefined, s2) ∧
    (∀ e', listeners_of e' s2 = listeners_of e' s) ∧
    emit (invoke W (S n)) (VStr e) p s2 = (Ret VUndefined, with_trace (trace s2 ++ evs) s2) ∧
    invoked_fns evs = delivery_of e s ∧
    calls_to (FUser l) evs = [].
Proof.
  intros Hwf Hpassive HL Honce.
  set (w := FClosure (length (closures s))).
  set (sa := alloc (OnceWrapper e (FUser l) false) s).
  assert (Hon : once (VStr e) (VFn (FUser l)) s = on (VStr e) (VFn w) sa).
  { unfold once. mrun. by rewrite (bind_run _ _ _ _ _ (new_closure_run _ s)). }
  assert (Hwfa : wf sa) by done.
  assert (Hw : w ∉ listeners_of e s).
  { intros Hin. rewrite Forall_forall in Hpassive.
    apply (Hpassive w). apply delivery_of_elem. by left. }
  destruct (unsubscribe_effect k e w sa Hwfa) as (s2 & Hrun & He & Hothers).
  rewrite <- Hon, Honce in Hrun. cbn [snd] in Hrun.
  assert (Hv : v = VFn (FClosure (length (closures sa)))).
  { rewrite Hon, on_run in Honce. injection Honce as <- _.
    do 2 f_equal. unfold warn_leak, listen.
    destruct (bool_decide _), (map_get e (listenersMap sa)); done. }
  assert (Hsame : ∀ e', listeners_of e' s2 = listeners_of e' s).
  { intros e'. destruct (decide (e' = e)) as [->|Hne].
    - rewrite He. change (listeners_of e sa) with (listeners_of e s). by apply set_delete_add.
    - by rewrite Hothers. }
  assert (Hwf2 : wf s2).
  { apply wf_reach with s; [|done]. eapply rtc_trans.
    - eapply (pres_once (VStr e) (VFn (FUser l))). exact Honce.
    - eapply (pres_invoke W). exact Hrun. }
  assert (Hdel : delivery_of e s2 = delivery_of e s).
  { rewrite !delivery_of_order by done. by rewrite !Hsame. }
  eexists _, s2, _. split; [exact Hv|]. split; [exact Hrun|]. split; [exact Hsame|].
  split; [apply emit_passive; by rewrite Hdel|].
  rewrite invoked_fns_call_events. split; [exact Hdel|].
  apply calls_to_others. intros f. rewrite invoked_fns_call_events, Hdel. by intros Hf ->.
Qed.
End Unsubscribe.

Lemma on_then_unsubscribe_witness :
  let s := run_ops quiet_world 1 [Do (COn (VStr "x") (VFn (FUser 1)))] fresh in
  ∃ unsub s2,
    VFn (FClosure 1) = VFn unsub ∧
    invoke quiet_world 1 unsub [] (on (VStr "x") (VFn (FUser 2)) s).2 = (Ret VUndefined, s2) ∧
    (FUser 2 ∉ listeners_of "x" s2) ∧
    (∀ e', e' ≠ "x" → listeners_of e' s2 = listeners_of e' s) ∧
    (FUser 2 ∉ listeners_of "x" s → listeners_of "x" s2 = listeners_of "x" s).
Proof.
  intros s.
  apply (on_then_unsubscribe quiet_world 0 "x" (FUser 2) s (VFn (FClosure 1))
           (on (VStr "x") (VFn (FUser 2)) s).2).
  - apply wf_reach with fresh; [apply reach_run_ops | apply wf_fresh].
  - reflexivity.
Defined.

Lemma once_then_unsubscribe_witness :
  let s := run_ops quiet_world 1 [Do (COn (VStr "x") (VFn (FUser 1)))] fresh in
  let s1 := (once (VStr "x") (VFn (FUser 2)) s).2 in
  ∃ unsub s2 evs,
    VFn (FClosure 2) = VFn unsub ∧
    invoke quiet_world 1 unsub [] s1 = (Ret VUndefined, s2) ∧
    (∀ e', listeners_of e' s2 = listeners_of e' s) ∧
    emit (invoke quiet_world 1) (VStr "x") VNull s2 =
      (Ret VUndefined, with_trace (trace s2 ++ evs) s2) ∧
    invoked_fns evs = delivery_of "x" s ∧
    calls_to (FUser 2) evs = [].
Proof.
  intros s s1.
  apply (once_then_unsubscribe quiet_world 0 0 "x" 2 VNull s (VFn (FClosure 2)) s1).
  - apply wf_reach with fresh; [apply reach_run_ops | apply wf_fresh].
  - repeat constructor.
  - vm_compute. by intros [[= ]|?%elem_of_nil]%elem_of_cons.
  - reflexivity.
Defined.

(** ** Introspection *)

Lemma keys_astep s s' :
  astep s s' → NoDup (listenersMap s).*1 → NoDup (listenersMap s').*1.
Proof.
  assert (Hdel : ∀ e (m : list (string * nat)), NoDup m.*1 → NoDup (map_delete e m).*1).
  { intros e m Hm. eapply (sublist_NoDup _ m.*1); [exact Hm|].
    apply fmap_sublist, map_delete_sublist. }
  assert (Hset : ∀ e r (m : list (string * nat)),
            (map_get e m = Some r ∨ map_get e m = None) →
            NoDup m.*1 → NoDup (map_set e r m).*1).
  { intros e r m [E|E] Hm.
    - by rewrite (map_set_present _ _ _ E).
    - rewrite (map_set_absent _ _ _ E), fmap_app. apply NoDup_app. split_and!; [done| |].
      + intros x Hx [->|[]%elem_of_nil]%elem_of_cons. by apply map_get_none in E.
      + apply NoDup_singleton. }
  destruct 1 as [ev s _|e h s|e r h s E|e s|s|c s|addr s|sp ph s|id s|sp s _|ph s
                |i w wd wl b s|cell v s];
    intros Hk; try exact Hk.
  - unfold listen. destruct (map_get e (listenersMap s)) as [r|] eqn:E; cbn.
    + apply Hset; [by left | done].
    + apply Hset; [by right | done].
  - unfold unlisten. destruct (bool_decide _); cbn; [by apply Hdel | done].
  - cbn. by apply Hdel.
  - cbn. constructor.
  - by destruct ph.
Qed.

Lemma keys_reach s s' :
  reach s s' → NoDup (listenersMap s).*1 → NoDup (listenersMap s').*1.
Proof. induction 1; eauto using keys_astep. Qed.

Lemma map_get_snapshot e s :
  map_get e (listenersSnapshot s) = (λ r, set_at r s) <$> map_get e (listenersMap s).
Proof.
  unfold listenersSnapshot. induction (listenersMap s) as [|[k r] m IH]; [done|].
  cbn. by destruct (String.eqb e k).
Qed.

(** X25: the introspection functions agree.  In every run from the initial
    state, with any listeners: [listeners(e)] has no duplicate and
    [listenerCount(e)] is its length; [eventNames()] lists every event once,
    and lists [e] exactly when [e] has a listener; [listenersSnapshot] has
    the same events in the same order and gives [e] the listeners
    [listeners(e)] returns. *)
Theorem introspection_agrees W fuel ops e :
  let s := run_ops W fuel ops fresh in
  ∃ l,
    listeners (VStr e) s = (Ret l, s) ∧
    listenerCount (VStr e) s = (Ret (length l), s) ∧
    NoDup l ∧
    NoDup (eventNames s) ∧
    (e ∈ eventNames s ↔ l ≠ []) ∧
    (listenersSnapshot s).*1 = eventNames s ∧
    map_get e (listenersSnapshot s) = (if decide (e ∈ eventNames s) then Some l else None).
Proof.
  intros s.
  assert (Hwf : wf s) by (apply wf_reach with fresh; [apply reach_run_ops | apply wf_fresh]).
  assert (Hkeys : NoDup (eventNames s)).
  { apply keys_reach with fresh; [apply reach_run_ops | constructor]. }
  exists (listeners_of e s). split_and!.
  - done.
  - unfold listenerCount, listeners_of. mrun. unfold gets.
    by destruct (map_get e (listenersMap s)).
  - by apply listeners_of_NoDup.
  - done.
  - rewrite eventNames_get. unfold listeners_of. split.
    + intros [r Hr]. rewrite Hr. destruct Hwf as (_ & Hlive & _).
      destruct (Hlive e r) as (l & Hl & Hne); [by apply map_get_elem|].
      unfold set_at. by rewrite Hl.
    + destruct (map_get e (listenersMap s)); [by eexists | done].
  - unfold listenersSnapshot, eventNames. rewrite <- list_fmap_compose.
    apply list_fmap_ext. by intros ? [].
  - rewrite map_get_snapshot. unfold listeners_of. case_decide as Hin.
    + apply eventNames_get in Hin as [r ->]. done.
    + destruct (map_get e (listenersMap s)) eqn:E; [|done].
      exfalso. apply Hin, eventNames_get. by eexists.
Qed.

(** ** Arguments that are refused *)

(** X26: a refused argument changes nothing.  With an event name that is
    not a string, [on], [once], [emit], [listeners] and [listenerCount]
    throw a [TypeError], [off] does too unless the name is [null] or
    [undefined], and [emitAsync] returns a promise rejected with it; with a
    handler that is not a function [on] and [once] throw a [TypeError].  The
    bus is left as it was and no listener is called. *)
Theorem refused_arguments_change_nothing invoke v h p s :
  typeof v ≠ "string" →
  let error := VError "TypeError" "Event name must be a string" in
  on v h s = (Throw error, s) ∧
  once v h s = (Throw error, s) ∧
  emit invoke v p s = (Throw error, s) ∧
  emitAsync invoke v p s = (Ret (ARejected error), s) ∧
  listeners v s = (Throw error, s) ∧
  listenerCount v s = (Throw error, s) ∧
  (v ≠ VNull → v ≠ VUndefined → off v h s = (Throw error, s)) ∧
  (∀ e, typeof h ≠ "function" →
     on (VStr e) h s = (Throw (VError "TypeError" "Handler must be a function"), s) ∧
     once (VStr e) h s = (Throw (VError "TypeError" "Handler must be a function"), s)).
Proof.
  intros Hv error. split_and!.
  - unfold on. by rewrite (bind_run _ _ _ _ _ (validateEventName_throws v s Hv)).
  - unfold once. by rewrite (bind_run _ _ _ _ _ (validateEventName_throws v s Hv)).
  - unfold emit. by rewrite (bind_run _ _ _ _ _ (validateEventName_throws v s Hv)).
  - unfold emitAsync. by destruct v.
  - unfold listeners. by rewrite (bind_run _ _ _ _ _ (validateEventName_throws v s Hv)).
  - unfold listenerCount. by rewrite (bind_run _ _ _ _ _ (validateEventName_throws v s Hv)).
  - intros Hnull Hundef. unfold off. destruct v; try done.
  - intros e Hh. split.
    + unfold on. mrun. by rewrite (bind_run _ _ _ _ _ (validateHandler_throws h s Hh)).
    + unfold once. mrun. by rewrite (bind_run _ _ _ _ _ (validateHandler_throws h s Hh)).
Qed.

Lemma refused_arguments_change_nothing_witness :
  let error := VError "TypeError" "Event name must be a string" in
  let s := run_ops quiet_world 1 [Do (COn (VStr "x") (VFn (FUser 1)))] fresh in
  on (VNum 3) VNull s = (Throw error, s) ∧
  once (VNum 3) VNull s = (Throw error, s) ∧
  emit (invoke quiet_world 1) (VNum 3) VNull s = (Throw error, s) ∧
  emitAsync (invoke quiet_world 1) (VNum 3) VNull s = (Ret (ARejected error), s) ∧
  listeners (VNum 3) s = (Throw error, s) ∧
  listenerCount (VNum 3) s = (Throw error, s) ∧
  (VNum 3 ≠ VNull → VNum 3 ≠ VUndefined → off (VNum 3) VNull s = (Throw error, s)) ∧
  (∀ e, typeof VNull ≠ "function" →
     on (VStr e) VNull s = (Throw (VError "TypeError" "Handler must be a function"), s) ∧
     once (VStr e) VNull s = (Throw (VError "TypeError" "Handler must be a function"), s)).
Proof.
  intros error s.
  apply (refused_arguments_change_nothing (invoke quiet_world 1) (VNum 3) VNull VNull s).
  vm_compute. discriminate.
Defined.

(** ** [off] for a whole event *)

(** X27: [off(e)] and [clearListeners(e)] remove the listeners of [e] and
    of no other event: afterwards [e] has no listener and is not among the
    event names, and every other event has the listeners it had. *)
Theorem off_event_removes_its_listeners e s :
  ∃ s',
    off (VStr e) VUndefined s = (Ret VUndefined, s') ∧
    clearListeners (VStr e) s = (Ret VUndefined, s') ∧
    listeners_of e s' = [] ∧
    (e ∉ eventNames s') ∧
    ∀ e', e' ≠ e → listeners_of e' s' = listeners_of e' s.
Proof.
  exists (drop_event e s).
  assert (Hoff : off (VStr e) VUndefined s = (Ret VUndefined, drop_event e s)).
  { unfold off. mrun. destruct (map_get e (listenersMap s)) eqn:E; mrun; [done|].
    unfold ret, drop_event. f_equal.
    assert (Hm : map_delete e (listenersMap s) = listenersMap s).
    { apply map_get_none in E. revert E. unfold eventNames.
      induction (listenersMap s) as [|[k r] m IH]; [done|]. cbn.
      intros [Hk Hm]%not_elem_of_cons. destruct (String.eqb_spec e k); [done|].
      f_equal. by apply IH. }
    rewrite Hm. by destruct s. }
  split_and!; [done | done | | |].
  - unfold listeners_of, drop_event. cbn. by rewrite map_get_delete.
  - rewrite eventNames_get. unfold drop_event. cbn. rewrite map_get_delete. by intros [? ?].
  - intros e' Hne. unfold listeners_of, drop_event, set_at. cbn.
    by rewrite map_get_delete_ne.
Qed.

(** ** The watchdog signal *)

(** X28: the watchdog callback.  It never throws, whatever the listeners
    do.  With [shutdown] listeners that do not call the bus it logs its
    warning, then calls every listener of the delivery set of [shutdown]
    once, in order, with the shutdown object (and the event name for a
    wildcard-only listener), and changes nothing else. *)
Theorem watchdog_emits_shutdown W n shutdown s :
  watchdogHooked s = true →
  (∀ fuel r s', onWatchdog (invoke W fuel) shutdown s = (r, s') → r = Ret tt ∨ r = OutOfFuel) ∧
  (Forall (passive W) (delivery_of BUS_SHUTDOWN s) →
   ∃ evs,
     step W (S n) (HostWatchdog shutdown) s =
       with_trace (trace s ++ WarnWatchdog :: evs) s ∧
     invoked_fns evs = delivery_of BUS_SHUTDOWN s ∧
     ∀ L, L ∈ delivery_of BUS_SHUTDOWN s →
          calls_to L evs = [expected_args BUS_SHUTDOWN shutdown s L]).
Proof.
  intros Hhook. split.
  - intros fuel r s'. unfold onWatchdog. rewrite bind_modify. unfold try_catch, bind.
    destruct (emit (invoke W fuel) (VStr BUS_SHUTDOWN) shutdown (log WarnWatchdog s))
      as [re se] eqn:Hemit.
    destruct (emit_delivers W _ _ _ _ _ _ Hemit) as [[-> | ->] _]; intros [= <- _]; auto.
  - intros Hp.
    assert (Hemit := emit_passive W n BUS_SHUTDOWN shutdown (log WarnWatchdog s) Hp).
    exists (flat_map (call_events W (map_get BUS_SHUTDOWN (listenersMap s))
                        (map_get BUS_ANY (listenersMap s)) BUS_SHUTDOWN shutdown s)
              (delivery_of BUS_SHUTDOWN s)).
    split_and!.
    + cbn [step]. rewrite Hhook. unfold onWatchdog. rewrite bind_modify.
      unfold try_catch. rewrite (bind_run _ _ _ _ _ Hemit). cbn [snd].
      unfold with_trace, log. cbn. by rewrite <- app_assoc.
    + apply invoked_fns_call_events.
    + intros L HL. rewrite calls_to_call_events by (done || apply delivery_of_NoDup).
      by rewrite call_args_delivery.
Qed.

Lemma watchdog_emits_shutdown_witness :
  let s := run_ops quiet_world 1
             [Do CInitialize; Do (COn (VStr "shutdown") (VFn (FUser 1)))] fresh in
  (∀ fuel r s',
     onWatchdog (invoke quiet_world fuel) (VObj 0) s = (r, s') → r = Ret tt ∨ r = OutOfFuel) ∧
  (Forall (passive quiet_world) (delivery_of BUS_SHUTDOWN s) →
   ∃ evs,
     step quiet_world 1 (HostWatchdog (VObj 0)) s =
       with_trace (trace s ++ WarnWatchdog :: evs) s ∧
     invoked_fns evs = delivery_of BUS_SHUTDOWN s ∧
     ∀ L, L ∈ delivery_of BUS_SHUTDOWN s →
          calls_to L evs = [expected_args BUS_SHUTDOWN (VObj 0) s L]).
Proof.
  intros s. apply (watchdog_emits_shutdown quiet_world 0 (VObj 0) s). reflexivity.
Defined.

(** ** Module specifiers *)

Lemma string_rev_involutive s : string_rev (string_rev s) = s.
Proof.
  unfold string_rev. rewrite list_ascii_of_string_of_list_ascii, rev_involutive.
  apply string_of_list_ascii_of_string.
Qed.

Lemma string_rev_cons a s : string_rev (String a s) = (string_rev s ++ String a "")%string.
Proof.
  unfold string_rev. cbn [list_ascii_of_string rev].
  generalize (rev (list_ascii_of_string s)). intros l.
  induction l as [|b l IH]; [done|]. cbn. by rewrite IH.
Qed.

Lemma trim_start_length s : String.length (trim_start s) ≤ String.length s.
Proof. induction s as [|a s IH]; [done|]. cbn. destruct (is_space a); cbn; lia. Qed.

Lemma trim_start_fixed a s : trim_start (String a s) = String a s → is_space a = false.
Proof.
  cbn. destruct (is_space a); [|done]. intros Heq.
  pose proof (trim_start_length s) as Hlen. rewrite Heq in Hlen. cbn in Hlen. lia.
Qed.

Lemma trim_start_idemp s : trim_start (trim_start s) = trim_start s.
Proof.
  induction s as [|a s IH]; [done|]. cbn. destruct (is_space a) eqn:Ha; [done|].
  cbn. by rewrite Ha.
Qed.

Lemma trim_start_app a (s : string) :
  trim_start (s ++ String a "") = (s ++ String a "")%string → s ≠ "" → trim_start s = s.
Proof.
  destruct s as [|b s]; [done|]. intros Hfix _.
  apply trim_start_fixed in Hfix. cbn. by rewrite Hfix.
Qed.

(** White space at the end is trimmed off without bringing white space to
    the front. *)
Lemma trim_end_keeps_start x :
  trim_start (string_rev x) = string_rev x →
  trim_start (string_rev (trim_start x)) = string_rev (trim_start x).
Proof.
  induction x as [|a x IH]; [done|]. rewrite string_rev_cons. intros Hfix.
  cbn [trim_start]. destruct (is_space a) eqn:Ha; [|by rewrite string_rev_cons].
  apply IH. destruct (string_rev x) as [|b y] eqn:Hrev.
  - rewrite append_nil_l in Hfix. apply trim_start_fixed in Hfix. congruence.
  - by apply (trim_start_app a).
Qed.

Lemma trim_idemp s : trim (trim s) = trim s.
Proof.
  unfold trim.
  assert (Hfront : trim_start (string_rev (trim_start (string_rev (trim_start s)))) =
                   string_rev (trim_start (string_rev (trim_start s)))).
  { apply trim_end_keeps_start. rewrite string_rev_involutive. apply trim_start_idemp. }
  rewrite Hfront, string_rev_involutive. by rewrite trim_start_idemp.
Qed.

(** X29: white space around a module specifier is ignored.  Registering
    [specifier.trim()] does what registering [specifier] does, in every
    state; a specifier that is not relative resolves to itself, trimmed,
    whatever the anchor; a relative one without an anchor is refused. *)
Theorem specifier_whitespace_is_ignored W sp options s :
  registerModule W (VStr (trim sp)) options s = registerModule W (VStr sp) options s ∧
  (∀ anchor,
     resolveModuleSpecifier W (trim sp) anchor s = resolveModuleSpecifier W sp anchor s) ∧
  (∀ anchor,
     isAbsolute (trim sp) || negb (startsWith (trim sp) "./" || startsWith (trim sp) "../")
       = true →
     resolveModuleSpecifier W sp anchor s = (Ret (trim sp), s)) ∧
  (∀ anchor,
     isAbsolute (trim sp) = false →
     startsWith (trim sp) "./" || startsWith (trim sp) "../" = true →
     truthy anchor = false →
     ∃ message, resolveModuleSpecifier W sp anchor s = (Throw (VError "Error" message), s)).
Proof.
  assert (Hres : ∀ anchor,
    resolveModuleSpecifier W (trim sp) anchor s = resolveModuleSpecifier W sp anchor s).
  { intros anchor. unfold resolveModuleSpecifier. by rewrite trim_idemp. }
  split_and!.
  - unfold registerModule. cbn [validateModuleSpecifier]. rewrite trim_idemp.
    destruct (String.eqb (trim sp) ""); [done|]. rewrite !bind_ret.
    unfold bind at 1 3. by rewrite Hres.
  - exact Hres.
  - intros anchor. unfold resolveModuleSpecifier.
    destruct (isAbsolute (trim sp)); [done|]. cbn [orb].
    by destruct (startsWith (trim sp) "./" || startsWith (trim sp) "../").
  - intros anchor Habs Hrel Hanchor. unfold resolveModuleSpecifier.
    rewrite Habs, Hrel, Hanchor. by eexists.
Qed.

(** ** What a phase imports *)

Section PhaseImports.
Context (W : World).

Lemma importedModules_loaded_iff spec s sp :
  sp ∈ importedModules (loaded W spec s) ↔ sp ∈ importedModules s ∨ sp = spec.
Proof.
  unfold loaded, load, add_imported. destruct (importOutcome W spec); cbn;
    (case_decide as Hin; [split; [by left | intros [?| ->]; done]|]);
    rewrite elem_of_app, list_elem_of_singleton; done.
Qed.

Lemma import_batch_imports pending s :
  ∃ evs,
    trace (map_M pending (λ en, importModule W (specifier en)) s).2 = trace s ++ evs ∧
    ∀ sp, sp ∈ imports_of evs ↔ sp ∈ specifier <$> pending ∧ sp ∉ importedModules s.
Proof.
  revert s. induction pending as [|en pending IH]; intros s.
  - exists []. split; [by rewrite app_nil_r|]. intros sp. cbn.
    split; [by intros ?%elem_of_nil | by intros [?%elem_of_nil _]].
  - cbn [map_M]. rewrite (bind_run _ _ _ _ _ (importModule_run W (specifier en) s)).
    cbv beta iota.
    set (s1 := if decide (specifier en ∈ importedModules s) then s
               else loaded W (specifier en) s).
    destruct (IH s1) as (evs2 & Ht2 & Himp2).
    destruct (import_batch W pending s1) as (s' & evs' & Hrun & _).
    rewrite Hrun in Ht2. cbn [snd] in Ht2.
    rewrite (bind_run _ _ _ _ _ Hrun). cbn [ret snd]. unfold s1 in *. clear s1.
    destruct (decide (specifier en ∈ importedModules s)) as [Hin|Hin].
    + exists evs2. split; [done|]. intros sp. rewrite Himp2, fmap_cons, elem_of_cons.
      split; [intros [? ?]; split; [by right | done]|].
      intros [[->|?] Hsp]; [done | by split].
    + destruct (importModule_quiet W (specifier en) s) as (evs1 & Ht1 & _).
      rewrite importModule_run in Ht1. cbn [snd] in Ht1. rewrite decide_False in Ht1 by done.
      exists (evs1 ++ evs2). split; [by rewrite Ht2, Ht1, app_assoc|].
      assert (Himp1 : imports_of evs1 = [specifier en]).
      { pose proof (imports_of_loaded W (specifier en) s) as Hl.
        rewrite Ht1, imports_of_app in Hl. by apply app_inv_head in Hl. }
      intros sp. rewrite imports_of_app, elem_of_app, Himp1, list_elem_of_singleton, Himp2.
      rewrite importedModules_loaded_iff, fmap_cons, elem_of_cons. split.
      * intros [->|[Hsp Hnot]]; [by split; [left|] | split; [by right | tauto]].
      * intros [[->|Hsp] Hnot]; [by left|].
        destruct (decide (sp = specifier en)) as [->|Hne]; [by left|]. right. tauto.
Qed.

(** X30: a phase imports exactly what is pending for it.  The dynamic
    [import] is called, during [importPhase(phase)], for the specifiers of
    the queue entries of that phase that are not loaded yet, and for no
    other specifier. *)
Theorem phase_imports_its_pending_entries ph s :
  ∃ evs,
    trace (importPhase W ph s).2 = trace s ++ evs ∧
    ∀ sp, sp ∈ imports_of evs ↔
          (∃ en, en ∈ moduleQueue s ∧ phase en = ph ∧ specifier en = sp) ∧
          sp ∉ importedModules s.
Proof.
  assert (Hpending : ∀ sp,
    sp ∈ specifier <$> filter (λ en, phase en = ph) (moduleQueue s) ↔
    ∃ en, en ∈ moduleQueue s ∧ phase en = ph ∧ specifier en = sp).
  { intros sp. rewrite list_elem_of_fmap. split.
    - intros (en & -> & [Hph Hin]%list_elem_of_filter). by exists en.
    - intros (en & Hin & Hph & <-). exists en. split; [done|]. by apply list_elem_of_filter. }
  unfold importPhase. mrun.
  destruct (filter (λ en, phase en = ph) (moduleQueue s)) as [|en pending] eqn:Hfilter.
  - exists []. split; [rewrite app_nil_r; by destruct ph|]. intros sp.
    rewrite <- Hpending. cbn. split; [by intros ?%elem_of_nil | by intros [?%elem_of_nil _]].
  - destruct (import_batch_imports (en :: pending) (complete_phase ph s))
      as (evs & Ht & Himp).
    destruct (import_batch W (en :: pending) (complete_phase ph s)) as (s' & evs' & Hrun & _).
    rewrite Hrun in Ht. cbn [snd] in Ht.
    rewrite (bind_run _ _ _ _ _ Hrun). cbv beta iota.
    rewrite allSettled_fulfilled, rejected_only_fulfilled.
    rewrite bool_decide_eq_false_2 by (simpl; lia). cbn [when ret snd].
    exists evs. split; [rewrite Ht; by destruct ph|]. intros sp.
    rewrite Himp, Hpending. by destruct ph.
Qed.
End PhaseImports.

(** * The delivery loops, whatever the listeners do *)

Section Deliveries.
Context (W : World).

Lemma call_listener_run invoke sp wc e p fn s :
  call_listener invoke sp wc e p fn s = invoke fn (call_args sp wc e p s fn) s.
Proof.
  unfold call_listener, call_args. rewrite bind_gets.
  by destruct (shouldSendEventName _ _ _ _).
Qed.

Lemma deliver_cons invoke sp wc e p fn fns s :
  deliver invoke sp wc e p (fn :: fns) s =
  match invoke fn (call_args sp wc e p s fn) s with
  | (OutOfFuel, s1) => (OutOfFuel, s1)
  | (r, s1) => deliver invoke sp wc e p fns (caught e r s1)
  end.
Proof.
  unfold deliver. cbn [for_each]. unfold bind at 1, try_catch, bind at 1.
  rewrite call_listener_run.
  by destruct (invoke fn _ s) as [[v|err|] s1].
Qed.

Lemma emit_deliver invoke e p s :
  emit invoke (VStr e) p s =
  match deliver invoke (map_get e (listenersMap s)) (map_get BUS_ANY (listenersMap s))
          e p (delivery_of e s) s with
  | (Ret _, s') => (Ret VUndefined, s')
  | (Throw err, s') => (Throw err, s')
  | (OutOfFuel, s') => (OutOfFuel, s')
  end.
Proof.
  unfold emit, delivery_of, deliver. mrun.
  destruct (map_get e (listenersMap s)) as [sp|], (map_get BUS_ANY (listenersMap s)) as [wc|];
    try done; mrun; unfold bind;
    by destruct (for_each _ _ s) as [[[]|err|] s1].
Qed.

(** The loop of [emit], call by call: it ends when every listener has been
    called, or at the first call that does not return within the bound. *)
Lemma deliver_run fuel sp wc e p fns s r s' :
  deliver (invoke W fuel) sp wc e p fns s = (r, s') →
  ∃ ds sx,
    delivered W fuel sp wc e p (caught e) ds s sx ∧
    ((r = Ret tt ∧ sx = s' ∧ d_fn <$> ds = fns) ∨
     (r = OutOfFuel ∧ ∃ fn rest,
        fns = (d_fn <$> ds) ++ fn :: rest ∧
        invoke W fuel fn (call_args sp wc e p sx fn) sx = (OutOfFuel, s'))).
Proof.
  revert s. induction fns as [|fn fns IH]; intros s.
  - intros [= <- <-]. exists [], s. split; [constructor|]. by left.
  - rewrite deliver_cons.
    destruct (invoke W fuel fn (call_args sp wc e p s fn) s) as [rc s1] eqn:Hc.
    assert (Hstep : rc ≠ OutOfFuel →
      deliver (invoke W fuel) sp wc e p fns (caught e rc s1) = (r, s') →
      ∃ ds sx,
        delivered W fuel sp wc e p (caught e) ds s sx ∧
        ((r = Ret tt ∧ sx = s' ∧ d_fn <$> ds = fn :: fns) ∨
         (r = OutOfFuel ∧ ∃ fn' rest,
            fn :: fns = (d_fn <$> ds) ++ fn' :: rest ∧
            invoke W fuel fn' (call_args sp wc e p sx fn') sx = (OutOfFuel, s')))).
    { intros Hrc (ds & sx & Hd & Hcase)%IH.
      destruct (invoke_records W fuel fn _ s rc s1 Hc Hrc) as [evs Hevs].
      exists (mkDelivery fn (call_args sp wc e p s fn) rc evs :: ds), sx. split.
      - by econstructor.
      - destruct Hcase as [(-> & -> & <-)|(-> & fn' & rest & -> & Hoof)]; [by left|].
        right. split; [done|]. by exists fn', rest. }
    destruct rc as [v|err|]; [by apply Hstep..|].
    intros [= <- <-]. exists [], s. split; [constructor|]. right. split; [done|].
    by exists fn, fns.
Qed.

Lemma delivered_trace fuel sp wc e p ds s s' :
  delivered W fuel sp wc e p (caught e) ds s s' →
  trace s' = trace s ++ flat_map (delivery_events e) ds.
Proof.
  induction 1 as [s|d ds s s1 s' Hargs Hcall Hr Ht _ IH]; [by rewrite app_nil_r|].
  rewrite IH. cbn [flat_map]. unfold delivery_events, caught.
  destruct (d_result d); cbn; rewrite Ht, <- ?app_assoc; cbn;
    by rewrite <- ?app_assoc, ?app_nil_r.
Qed.

Lemma launched_trace fuel sp wc e p ds s s' :
  delivered W fuel sp wc e p kept ds s s' →
  trace s' = trace s ++ flat_map launch_events ds.
Proof.
  induction 1 as [s|d ds s s1 s' Hargs Hcall Hr Ht _ IH]; [by rewrite app_nil_r|].
  rewrite IH. cbn [flat_map]. unfold launch_events, kept. rewrite Ht.
  by rewrite <- app_assoc.
Qed.

Lemma delivered_reach fuel sp wc e p after ds s s' :
  (∀ r s, reach s (after r s)) →
  delivered W fuel sp wc e p after ds s s' → reach s s'.
Proof.
  intros Hafter. induction 1 as [s|d ds s s1 s' Hargs Hcall Hr Ht _ IH]; [apply rtc_refl|].
  eapply rtc_trans; [eapply pres_invoke; exact Hcall|].
  eapply rtc_trans; [apply Hafter | exact IH].
Qed.

Lemma reach_caught e r s : reach s (caught e r s).
Proof. destruct r; try apply rtc_refl. apply rtc_once. by constructor. Qed.

Lemma reach_kept r s : reach s (kept r s).
Proof. apply rtc_refl. Qed.

(** [emit], call by call. *)
Lemma emit_run fuel e p s r s' :
  emit (invoke W fuel) (VStr e) p s = (r, s') →
  ∃ ds sx,
    emitted W fuel e p ds s sx ∧
    ((r = Ret VUndefined ∧ sx = s' ∧ d_fn <$> ds = delivery_of e s) ∨
     (r = OutOfFuel ∧ ∃ fn rest,
        delivery_of e s = (d_fn <$> ds) ++ fn :: rest ∧
        ∃ args, invoke W fuel fn args sx = (OutOfFuel, s'))).
Proof.
  rewrite emit_deliver.
  destruct (deliver _ _ _ e p (delivery_of e s) s) as [r1 s1] eqn:Hd.
  destruct (deliver_run _ _ _ _ _ _ _ _ _ Hd) as (ds & sx & Hds & Hcase).
  intros Hrun. exists ds, sx. split; [done|].
  destruct Hcase as [(-> & -> & Hfns)|(-> & fn & rest & Hfns & Hoof)];
    injection Hrun as <- <-.
  - by left.
  - right. split; [done|]. exists fn, rest. split; [done|]. by eexists.
Qed.
End Deliveries.

(** ** The claims about [emit] *)

(** C2, on the code: function 1 is registered for "x" and for the wildcard
    when [emit("x", p)] starts, when it is called and afterwards, yet it is
    called with the event name.  Function 0, called before it, has emptied
    the [Set] of "x" that [emit] looked up and registered function 1 anew,
    in a new [Set]; [emit] asks the [Set] it holds, not the registry. *)
Lemma emit_event_name_to_specific_listener_cex :
  let L := FUser 1 in
  let p := VNum 7 in
  let s := run_ops resubscribing_world 2
             [Do (COn (VStr "x") (VFn (FUser 0))); Do (COn (VStr "x") (VFn L));
              Do (COn (VStr "*") (VFn L))] fresh in
  let s' := (emit (invoke resubscribing_world 2) (VStr "x") p s).2 in
  L ∈ listeners_of "x" s ∧ L ∈ listeners_of "x" s' ∧
  calls_to L (since (length (trace s)) s') = [[p; VStr "x"]] ∧
  calls_to L (since (length (trace s)) s') ≠ [[p]].
Proof.
  vm_compute. split_and!; [by right; left | by left | done | done].
Qed.



(** C8, as stated, fails: registering function 0 again for "x" leaves it
    before function 1, and [emit] calls it first. *)
Lemma reregistration_keeps_place_cex :
  let A := FUser 0 in
  let B := FUser 1 in
  let s := run_ops quiet_world 1
             [Do (COn (VStr "x") (VFn A)); Do (COn (VStr "x") (VFn B));
              Do (COn (VStr "x") (VFn A))] fresh in
  listeners_of "x" s = [A; B] ∧
  invoked_fns (trace (step quiet_world 1 (Do (CEmit (VStr "x") VNull)) s)) = [A; B] ∧
  invoked_fns (trace (step quiet_world 1 (Do (CEmit (VStr "x") VNull)) s)) ≠ [B; A].
Proof. by vm_compute. Qed.

(** C8, amended: whatever the listeners do, [emit] calls the listeners of
    [e] in the order of their set, then the listeners of the wildcard that
    are not listeners of [e], in the order of theirs (all of them when it
    returns, the first of them when a call does not return within the
    bound); [on] puts a listener that is not in the set at its end and
    leaves the set as it is when the listener is already in it. *)
Theorem delivery_in_insertion_order W fuel e p h s r s' :
  wf s →
  emit (invoke W fuel) (VStr e) p s = (r, s') →
  (∃ ds sx,
     emitted W fuel e p ds s sx ∧
     d_fn <$> ds `prefix_of` delivery_order e s ∧
     (r ≠ OutOfFuel → sx = s' ∧ d_fn <$> ds = delivery_order e s)) ∧
  listeners_of e (on (VStr e) (VFn h) s).2 =
    (if decide (h ∈ listeners_of e s) then listeners_of e s
     else listeners_of e s ++ [h]).
Proof.
  intros Hwf (ds & sx & Hds & Hcase)%emit_run. split; [|by apply listeners_of_on].
  exists ds, sx. unfold delivery_order. rewrite <- delivery_of_order by done.
  split; [done|].
  destruct Hcase as [(-> & -> & ->)|(-> & fn & rest & -> & _)].
  - done.
  - split; [by eexists|done].
Qed.

Lemma delivery_in_insertion_order_witness :
  let W := lively_world in
  let A := FUser 2 in
  let B := FUser 1 in
  let s := run_ops W 3
             [Do (COn (VStr "x") (VFn A)); Do (COn (VStr "*") (VFn B));
              Do (COn (VStr "*") (VFn A)); Do (COnce (VStr "x") (VFn (FUser 0)));
              Do (COn (VStr "x") (VFn A))] fresh in
  let s' := (emit (invoke W 3) (VStr "x") VNull s).2 in
  delivery_order "x" s = [A; FClosure 3; B] ∧
  (∃ ds sx,
     emitted W 3 "x" VNull ds s sx ∧
     d_fn <$> ds `prefix_of` delivery_order "x" s ∧
     ((emit (invoke W 3) (VStr "x") VNull s).1 ≠ OutOfFuel →
      sx = s' ∧ d_fn <$> ds = delivery_order "x" s)) ∧
  listeners_of "x" (on (VStr "x") (VFn A) s).2 =
    (if decide (A ∈ listeners_of "x" s) then listeners_of "x" s
     else listeners_of "x" s ++ [A]).
Proof.
  intros W A B s s'. split; [by vm_compute|].
  apply (delivery_in_insertion_order W 3 "x" VNull A s
           (emit (invoke W 3) (VStr "x") VNull s).1 s').
  - apply wf_reach with fresh; [apply reach_run_ops | apply wf_fresh].
  - by destruct (emit (invoke W 3) (VStr "x") VNull s).
Defined.

(** ** [emitAsync], call by call *)

Section AsyncDeliveries.
Context (W : World).

Lemma launch_cons invoke sp wc e p fn fns s :
  map_M (fn :: fns) (launch invoke sp wc e p) s =
  match invoke fn (call_args sp wc e p s fn) s with
  | (OutOfFuel, s1) => (OutOfFuel, s1)
  | (r, s1) =>
      match map_M fns (launch invoke sp wc e p) s1 with
      | (Ret tasks, s2) => (Ret (task_of r :: tasks), s2)
      | (Throw err, s2) => (Throw err, s2)
      | (OutOfFuel, s2) => (OutOfFuel, s2)
      end
  end.
Proof.
  cbn [map_M]. unfold bind at 1, launch at 1, try_catch, bind at 1.
  rewrite call_listener_run.
  destruct (invoke fn _ s) as [[v|err|] s1]; [| |done];
    cbn [ret task_of]; unfold bind;
    by destruct (map_M fns _ s1) as [[tasks|err'|] s2].
Qed.

Lemma launch_all_run fuel sp wc e p fns s r s' :
  map_M fns (launch (invoke W fuel) sp wc e p) s = (r, s') →
  ∃ ds sx,
    delivered W fuel sp wc e p kept ds s sx ∧
    ((r = Ret ((λ d, task_of (d_result d)) <$> ds) ∧ sx = s' ∧ d_fn <$> ds = fns) ∨
     (r = OutOfFuel ∧ ∃ fn rest,
        fns = (d_fn <$> ds) ++ fn :: rest ∧
        invoke W fuel fn (call_args sp wc e p sx fn) sx = (OutOfFuel, s'))).
Proof.
  revert s r s'. induction fns as [|fn fns IH]; intros s r s'.
  - intros [= <- <-]. exists [], s. split; [constructor|]. by left.
  - rewrite launch_cons.
    destruct (invoke W fuel fn (call_args sp wc e p s fn) s) as [rc s1] eqn:Hc.
    assert (Hstep : rc ≠ OutOfFuel →
      match map_M fns (launch (invoke W fuel) sp wc e p) s1 with
      | (Ret tasks, s2) => (Ret (task_of rc :: tasks), s2)
      | (Throw err, s2) => (Throw err, s2)
      | (OutOfFuel, s2) => (OutOfFuel, s2)
      end = (r, s') →
      ∃ ds sx,
        delivered W fuel sp wc e p kept ds s sx ∧
        ((r = Ret ((λ d, task_of (d_result d)) <$> ds) ∧ sx = s' ∧ d_fn <$> ds = fn :: fns) ∨
         (r = OutOfFuel ∧ ∃ fn' rest,
            fn :: fns = (d_fn <$> ds) ++ fn' :: rest ∧
            invoke W fuel fn' (call_args sp wc e p sx fn') sx = (OutOfFuel, s')))).
    { intros Hrc.
      destruct (map_M fns _ s1) as [r2 s2] eqn:Hm.
      destruct (IH _ _ _ Hm) as (ds & sx & Hd & Hcase).
      destruct (invoke_records W fuel fn _ s rc s1 Hc Hrc) as [evs Hevs].
      intros Hrun.
      exists (mkDelivery fn (call_args sp wc e p s fn) rc evs :: ds), sx. split.
      - by econstructor.
      - destruct Hcase as [(-> & -> & <-)|(-> & fn' & rest & -> & Hoof)];
          injection Hrun as <- <-; [by left|].
        right. split; [done|]. by exists fn', rest. }
    destruct rc as [v|err|]; [by apply Hstep..|].
    intros [= <- <-]. exists [], s. split; [constructor|]. right. split; [done|].
    by exists fn, fns.
Qed.

(** [emitAsync], call by call. *)
Lemma emitAsync_run fuel e p s r s' :
  emitAsync (invoke W fuel) (VStr e) p s = (r, s') →
  ∃ ds sx,
    launched W fuel e p ds s sx ∧
    ((r = Ret (allSettled ((λ d, task_of (d_result d)) <$> ds)) ∧ sx = s' ∧
      d_fn <$> ds = delivery_of e s) ∨
     (r = OutOfFuel ∧ ∃ fn rest,
        delivery_of e s = (d_fn <$> ds) ++ fn :: rest ∧
        ∃ args, invoke W fuel fn args sx = (OutOfFuel, s'))).
Proof.
  unfold emitAsync, launched, delivery_of. mrun.
  set (sp := map_get e (listenersMap s)). set (wc := map_get BUS_ANY (listenersMap s)).
  assert (Hgen : (handlers <- gets (delivery sp wc);;
                  tasks <- map_M handlers (launch (invoke W fuel) sp wc e p);;
                  ret (allSettled tasks)) s = (r, s') →
    ∃ ds sx,
      delivered W fuel sp wc e p kept ds s sx ∧
      ((r = Ret (allSettled ((λ d, task_of (d_result d)) <$> ds)) ∧ sx = s' ∧
        d_fn <$> ds = delivery sp wc s) ∨
       (r = OutOfFuel ∧ ∃ fn rest,
          delivery sp wc s = (d_fn <$> ds) ++ fn :: rest ∧
          ∃ args, invoke W fuel fn args sx = (OutOfFuel, s')))).
  { mrun. unfold bind at 1.
    destruct (map_M (delivery sp wc s) _ s) as [r1 s1] eqn:Hm.
    destruct (launch_all_run _ _ _ _ _ _ _ _ _ Hm) as (ds & sx & Hds & Hcase).
    intros Hrun. exists ds, sx. split; [done|].
    destruct Hcase as [(-> & -> & Hfns)|(-> & fn & rest & Hfns & Hoof)];
      injection Hrun as <- <-; [by left|].
    right. split; [done|]. exists fn, rest. split; [done|]. by eexists. }
  destruct sp as [r0|], wc as [w0|]; exact Hgen.
Qed.

Lemma task_of_promise r : r ≠ OutOfFuel → is_promise (task_of r) = true.
Proof. destruct r as [v|err|]; [by destruct v | done | done]. Qed.

Lemma delivered_completed fuel sp wc e p after ds s s' :
  delivered W fuel sp wc e p after ds s s' → Forall (λ d, d_result d ≠ OutOfFuel) ds.
Proof. induction 1; by constructor. Qed.

Lemma allSettled_pending tasks :
  Forall (λ t, is_promise t = true) tasks →
  Exists (λ t, ∃ v, t = VPromise Pending v) tasks →
  allSettled tasks = APending.
Proof.
  induction 1 as [|t tasks Ht Hts IH]; [by intros ?%Exists_nil|].
  intros [[v ->]|Hex]%Exists_cons; [done|].
  cbn [allSettled]. rewrite IH by done.
  destruct t as [| | | | | | | |[] v]; done.
Qed.
End AsyncDeliveries.



(** ** Late registration *)

Lemma requests_normalizePhase P o :
  requests P o → normalizePhase (opt_phase o) (opt_beforeLoad o) = P.
Proof.
  unfold requests, normalizePhase.
  destruct P; (intros [->|[->|[(H1 & H2 & H3 & H4) ->]]]; [done..|]);
    (destruct (opt_phase o) as [| | | |ph| | | |]; try done;
     destruct (String.eqb_spec ph "bootstrap") as [->|]; [done|];
     destruct (String.eqb_spec ph "before") as [->|]; [done|];
     destruct (String.eqb_spec ph "runtime") as [->|]; [done|];
     destruct (String.eqb_spec ph "after") as [->|]; done).
Qed.

(** C6: take a phase [P] whose gate is set, options that ask for [P], and a
    specifier that is not blank and resolves.  Then [registerModule] returns,
    the entry is queued under [P] with the resolved specifier (the trimmed
    specifier itself unless it is relative, the URL the host makes of it and
    of the anchor when it is), and [registerModule] itself has loaded it:
    the resolved specifier is in the loaded set afterwards, and the dynamic
    import was called for it at that moment unless it had been loaded
    before. *)
Theorem late_registration_loads W P sp options resolved s s1 :
  requests P options →
  trim sp ≠ "" →
  resolveModuleSpecifier W sp (opt_anchor options) s = (Ret resolved, s1) →
  phase_completed P s = true →
  ∃ cancel s',
    registerModule W (VStr sp) options s = (Ret (VFn cancel), s') ∧
    moduleQueue s' = moduleQueue s ++ [mkEntry resolved P (entries s)] ∧
    resolved ∈ importedModules s' ∧
    imports_of (trace s') =
      imports_of (trace s) ++
      (if decide (resolved ∈ importedModules s) then [] else [resolved]) ∧
    (if isAbsolute (trim sp) || negb (startsWith (trim sp) "./" || startsWith (trim sp) "../")
     then resolved = trim sp
     else resolveURL W (trim sp) (opt_anchor options) = inl resolved).
Proof.
  intros Hph Hsp Hres Hgate. apply requests_normalizePhase in Hph.
  assert (Hresolved :
    if isAbsolute (trim sp) || negb (startsWith (trim sp) "./" || startsWith (trim sp) "../")
    then resolved = trim sp
    else resolveURL W (trim sp) (opt_anchor options) = inl resolved).
  { revert Hres. unfold resolveModuleSpecifier.
    destruct (isAbsolute (trim sp)); [by intros [= ->]|].
    destruct (startsWith (trim sp) "./" || startsWith (trim sp) "../"); [|by intros [= ->]].
    cbn. destruct (negb (truthy (opt_anchor options))); [done|].
    destruct (resolveURL W (trim sp) (opt_anchor options)); [by intros [= ->]|done]. }
  pose proof Hres as Hs1. apply resolveModuleSpecifier_state in Hs1 as ->.
  unfold registerModule. cbn [validateModuleSpecifier].
  destruct (String.eqb_spec (trim sp) "") as [|_]; [done|]. rewrite bind_ret.
  rewrite (bind_run _ _ _ _ _ Hres). cbv beta iota. rewrite Hph. mrun.
  replace (phase_completed P (push_entry resolved P s)) with true
    by (rewrite <- Hgate; by destruct P).
  erewrite bind_run by (erewrite bind_run by apply importModule_run; done).
  unfold new_closure. mrun. eexists _, _. split; [reflexivity|].
  cbn [importedModules push_entry with_queue alloc with_closures moduleQueue trace].
  destruct (decide (resolved ∈ importedModules s)) as [Hin|Hin].
  - split_and!; [done | done | by rewrite app_nil_r | done].
  - split_and!; [by destruct (importOutcome W resolved) eqn:E; unfold loaded; rewrite E | | |done].
    + apply (importedModules_loaded W resolved (push_entry _ _ s)).
    + apply (imports_of_loaded W resolved (push_entry _ _ s)).
Qed.

Lemma late_registration_loads_witness :
  let W := quiet_world in
  let sb := run_ops W 1 [Do CInitialize] fresh in
  let sr := run_ops W 1 [Do CInitialize; HostWorldLoad VNull] fresh in
  (bootstrapCompleted sb = true ∧ runtimeCompleted sb = false ∧
   ∃ cancel s',
     registerModule W (VStr " a ") bootstrap_options sb = (Ret (VFn cancel), s') ∧
     moduleQueue s' = [mkEntry "a" Bootstrap 0] ∧
     imports_of (trace s') = ["a"]) ∧
  (runtimeCompleted sr = true ∧
   ∃ cancel s',
     registerModule W (VStr "b") (mkOptions (VStr "after") VUndefined VUndefined) sr =
       (Ret (VFn cancel), s') ∧
     moduleQueue s' = [mkEntry "b" Runtime 0] ∧
     imports_of (trace s') = ["b"]).
Proof.
  intros W sb sr. split.
  - split; [by vm_compute|]. split; [by vm_compute|].
    destruct (late_registration_loads W Bootstrap " a " bootstrap_options "a" sb sb)
      as (cancel & s' & Hrun & Hq & _ & Himp & _).
    + by left.
    + by vm_compute.
    + by vm_compute.
    + by vm_compute.
    + exists cancel, s'. split_and!; [done | by rewrite Hq | by rewrite Himp].
  - split; [by vm_compute|].
    destruct (late_registration_loads W Runtime "b"
                (mkOptions (VStr "after") VUndefined VUndefined) "b" sr sr)
      as (cancel & s' & Hrun & Hq & _ & Himp & _).
    + right. by left.
    + by vm_compute.
    + by vm_compute.
    + by vm_compute.
    + exists cancel, s'. split_and!; [done | by rewrite Hq | by rewrite Himp].
Defined.

(** ** The summary of a phase, on the runtime batch *)

(** C7, on the code: the module is loaded (its last line runs [initialize]),
    "bad" and "ok" are registered for the runtime phase, and the world
    loads.  The runtime batch attempts both entries and the failure of "bad"
    is logged, but the batch writes no summary: the count of failures it
    would report is 0, not 1. *)
Lemma importPhase_failure_not_counted :
  let W := failing_world in
  let s := run_ops W 1
             [Do CInitialize;
              Do (CRegisterModule (VStr "bad") runtime_options);
              Do (CRegisterModule (VStr "ok") runtime_options)] fresh in
  let s' := step W 1 (HostWorldLoad VNull) s in
  specifier <$> filter (λ en, phase en = Runtime) (moduleQueue s) = ["bad"; "ok"] ∧
  importedModules s = [] ∧
  runtimeCompleted s' = true ∧
  imports_of (trace s') = ["bad"; "ok"] ∧
  ErrorImportFailed "bad" (VError "Error" "cannot load") ∈ trace s' ∧
  ∀ n ph, ErrorPhaseFailures n ph ∉ trace s'.
Proof.
  intros W s s'.
  assert (Ht : trace s' = [Import "bad";
    ErrorImportFailed "bad" (VError "Error" "cannot load"); Import "ok"]) by by vm_compute.
  split_and!; [by vm_compute.. | |].
  - rewrite Ht. right. by left.
  - intros n ph. rewrite Ht. intros Hin.
    repeat (apply elem_of_cons in Hin as [Hin|Hin]; [done|]). by apply elem_of_nil in Hin.
Qed.

(** ** The invariant of a [once] registration *)

Lemma upholds_ret I {A} (a : A) : upholds I (ret a).
Proof. by intros s r s' HI [= <- <-]. Qed.
Lemma upholds_throw I {A} err : upholds I (@throw A err).
Proof. by intros s r s' HI [= <- <-]. Qed.
Lemma upholds_out_of_fuel I {A} : upholds I (@out_of_fuel A).
Proof. by intros s r s' HI [= <- <-]. Qed.
Lemma upholds_gets I {A} (f : Bus → A) : upholds I (gets f).
Proof. by intros s r s' HI [= <- <-]. Qed.
Lemma upholds_modify (I : Bus → Prop) f : (∀ s, I s → I (f s)) → upholds I (modify f).
Proof. intros Hf s r s' HI [= <- <-] _. by apply Hf. Qed.

Lemma upholds_bind I {A B} (m : M A) (k : A → M B) :
  upholds I m → (∀ a, upholds I (k a)) → upholds I (bind m k).
Proof.
  intros Hm Hk s r s' HI. unfold bind.
  destruct (m s) as [[a|err|] s1] eqn:E; intros Hrun Hr.
  - eapply Hk; [eapply Hm; [exact HI | exact E | done] | exact Hrun | done].
  - injection Hrun as <- <-. eapply Hm; [exact HI | exact E | done].
  - by injection Hrun as <- <-.
Qed.

Lemma upholds_try_catch I {A} (m : M A) h :
  upholds I m → (∀ err, upholds I (h err)) → upholds I (try_catch m h).
Proof.
  intros Hm Hh s r s' HI. unfold try_catch.
  destruct (m s) as [[a|err|] s1] eqn:E; intros Hrun Hr.
  - injection Hrun as <- <-. eapply Hm; [exact HI | exact E | done].
  - eapply Hh; [eapply Hm; [exact HI | exact E | done] | exact Hrun | done].
  - by injection Hrun as <- <-.
Qed.

Lemma upholds_try_finally I {A} (m : M A) f :
  upholds I m → upholds I f → upholds I (try_finally m f).
Proof.
  intros Hm Hf s r s' HI. unfold try_finally.
  destruct (m s) as [[a|err|] s1] eqn:E.
  1,2: destruct (f s1) as [[[]|err'|] s2] eqn:E'; intros [= <- <-] Hr; try done;
       (eapply Hf; [eapply Hm; [exact HI | exact E | done] | exact E' | done]).
  by intros [= <- <-].
Qed.

Lemma upholds_when I b m : upholds I m → upholds I (when b m).
Proof. destruct b; [done | intros; apply upholds_ret]. Qed.

Lemma upholds_for_each I {A} (l : list A) body :
  (∀ x, x ∈ l → upholds I (body x)) → upholds I (for_each l body).
Proof.
  induction l as [|x l IH]; intros Hb; simpl; [apply upholds_ret|].
  apply upholds_bind; [apply Hb; by left|]. intros _. apply IH. intros y Hy. apply Hb. by right.
Qed.

Lemma upholds_map_M I {A B} (l : list A) (f : A → M B) :
  (∀ x, x ∈ l → upholds I (f x)) → upholds I (map_M l f).
Proof.
  induction l as [|x l IH]; intros Hf; simpl; [apply upholds_ret|].
  apply upholds_bind; [apply Hf; by left|]. intros y. apply upholds_bind.
  - apply IH. intros z Hz. apply Hf. by right.
  - intros; apply upholds_ret.
Qed.

(** A method whose runs are sequences of the state changes keeps what they
    keep. *)
Lemma since_app n s s' evs :
  n ≤ length (trace s) → trace s' = trace s ++ evs → since n s' = since n s ++ evs.
Proof. unfold since. intros Hn ->. by rewrite drop_app_le. Qed.

Lemma calls_to_nil_invoked f evs : invoked_fns evs = [] → calls_to f evs = [].
Proof. intros H. apply calls_to_others. rewrite H. by intros g ?%elem_of_nil. Qed.

Create HintDb oi discriminated.

Section OnceInvariant.
Context (W : World) (l a : nat) (e0 : string) (n0 : nat).
Local Abbreviation L := (FUser l).
Local Abbreviation w := (FClosure a).
Local Abbreviation Inv := (once_inv (FUser l) a e0 n0).
Hypothesis Hreserved : reserved W L.

Lemma once_inv_step s s' evs :
  Inv s →
  wf s' →
  trace s' = trace s ++ evs → calls_to w evs = [] → calls_to L evs = [] →
  (∀ e' f, f ∈ listeners_of e' s' → f ∈ listeners_of e' s ∨ f ≠ L) →
  closures s' !! a = closures s !! a →
  (∀ b e' c, closures s' !! b = Some (OnceWrapper e' L c) →
             ∃ c', closures s !! b = Some (OnceWrapper e' L c')) →
  Inv s'.
Proof.
  intros ((Hwf & Hn & Hlive & Honly) & c & Hc & Hcalls) Hwf' Htr Hw HL Hl Ha Hcl.
  assert (Hsince : since n0 s' = since n0 s ++ evs) by by apply since_app.
  split.
  - split_and!; [done | rewrite Htr, length_app; lia | |].
    + intros e' Hin. destruct (Hl e' L Hin) as [?|?]; [by eapply Hlive | done].
    + intros b e' c' Hb. destruct (Hcl b e' c' Hb) as [c'' Hb']. by eapply Honly.
  - exists c. rewrite Ha. split; [done|].
    by rewrite Hsince, !calls_to_app, Hw, HL, !app_nil_r.
Qed.

(** An update that leaves the registry and the closures alone and logs no
    call. *)
Lemma once_inv_quiet f :
  (∀ s, listenersMap (f s) = listenersMap s) → (∀ s, sets (f s) = sets s) →
  (∀ s, closures (f s) = closures s) →
  (∀ s, ∃ evs, trace (f s) = trace s ++ evs ∧ invoked_fns evs = []) →
  upholds Inv (modify f).
Proof.
  intros Hm Hs Hc Ht. apply upholds_modify. intros s HI.
  destruct (Ht s) as (evs & Htr & Hevs).
  eapply once_inv_step; [exact HI | | exact Htr | by apply calls_to_nil_invoked..| | |].
  - destruct HI as ((Hwf & _) & _). unfold wf. by rewrite Hm, Hs.
  - intros e' f' Hin. left. by rewrite (listeners_of_same e' s (f s)) in Hin.
  - by rewrite Hc.
  - intros b e' c. rewrite Hc. eauto.
Qed.

Lemma once_inv_alloc c s :
  (∀ e' c', c ≠ OnceWrapper e' L c') → Inv s → Inv (alloc c s).
Proof.
  intros Hc HI. pose proof HI as (_ & c0 & Ha & _).
  apply lookup_lt_Some in Ha.
  eapply (once_inv_step s _ []); [exact HI | | | done | done | | |].
  - by destruct HI as ((Hwf & _) & _).
  - by rewrite app_nil_r.
  - intros e' f Hin. by left.
  - cbn. by rewrite lookup_app_l.
  - intros b e' c' Hb. cbn in Hb.
    destruct (decide (b < length (closures s))) as [Hlt|Hge].
    + rewrite lookup_app_l in Hb by done. eauto.
    + rewrite lookup_app_r in Hb by lia.
      destruct (b - length (closures s)) as [|k]; [|done].
      cbn in Hb. injection Hb as ->. by destruct (Hc e' c').
Qed.

Lemma once_inv_latch b s : b ≠ a → Inv s → Inv (latch b s).
Proof.
  intros Hb HI.
  eapply (once_inv_step s _ []); [exact HI | | | done | done | | |].
  - by destruct HI as ((Hwf & _) & _).
  - by rewrite app_nil_r.
  - intros e' f Hin. by left.
  - cbn. by rewrite list_lookup_alter_ne.
  - intros b' e' c' Hb'. cbn in Hb'.
    destruct (decide (b' = b)) as [->|Hne].
    + rewrite list_lookup_alter_eq in Hb'.
      destruct (closures s !! b) as [[e'' h'' c''|e'' h''|id]|] eqn:E; cbn in Hb'; try done.
      injection Hb' as -> -> _. eauto.
    + rewrite list_lookup_alter_ne in Hb' by done. eauto.
Qed.

Lemma once_inv_call f args s :
  f ≠ L → f ≠ w → Inv s → Inv (log (Invoked f args) s).
Proof.
  intros HfL Hfw HI.
  eapply (once_inv_step s _ [Invoked f args]); [exact HI | | done | | | | done |].
  - by destruct HI as ((Hwf & _) & _).
  - by rewrite calls_to_cons, decide_False.
  - by rewrite calls_to_cons, decide_False.
  - intros e' f' Hin. by left.
  - intros b e' c. eauto.
Qed.

Ltac oi_quiet :=
  apply once_inv_quiet; intros;
  [reflexivity | reflexivity | reflexivity
  | first [ by (exists []; split; [symmetry; apply app_nil_r | done])
          | by (eexists [_]; split; [reflexivity | done]) ]].

Hint Resolve upholds_ret upholds_throw upholds_out_of_fuel upholds_gets upholds_when : oi.
Hint Extern 1 (upholds _ (bind _ _)) => apply upholds_bind; [|intros] : oi.
Hint Extern 1 (upholds _ (try_catch _ _)) => apply upholds_try_catch; [|intros] : oi.
Hint Extern 1 (upholds _ (try_finally _ _)) => apply upholds_try_finally : oi.
Hint Extern 1 (upholds _ (for_each _ _)) => apply upholds_for_each; intros : oi.
Hint Extern 1 (upholds _ (map_M _ _)) => apply upholds_map_M; intros : oi.
Hint Extern 1 (upholds _ (modify _)) => oi_quiet : oi.
Hint Extern 2 (upholds _ (match ?x with _ => _ end)) => destruct x : oi.
Hint Extern 2 (upholds _ (if ?x then _ else _)) => destruct x : oi.

Lemma oi_validateEventName v : upholds Inv (validateEventName v).
Proof. destruct v; simpl; auto with oi. Qed.
Lemma oi_validateHandler v : upholds Inv (validateHandler v).
Proof. destruct v; simpl; auto with oi. Qed.
Lemma oi_validateModuleSpecifier v : upholds Inv (validateModuleSpecifier v).
Proof. destruct v; simpl; auto with oi. Qed.
Hint Resolve oi_validateEventName oi_validateHandler oi_validateModuleSpecifier : oi.

Lemma oi_new_closure c :
  (∀ e' c', c ≠ OnceWrapper e' L c') → upholds Inv (new_closure c).
Proof.
  intros Hc. unfold new_closure. apply upholds_bind; [auto with oi|]. intros addr.
  apply upholds_bind; [|auto with oi]. apply upholds_modify. intros s. by apply once_inv_alloc.
Qed.

Lemma oi_on e h : h ≠ VFn L → upholds Inv (on e h).
Proof.
  intros Hh.
  destruct e as [| | | |e| | | |]; try (by intros ??? HI [= _ <-] _).
  destruct h as [| | | | |f| | |]; try (by intros ??? HI [= _ <-] _).
  assert (HfL : f ≠ L) by congruence.
  intros s r s' HI. rewrite on_run. intros [= _ <-] _.
  apply once_inv_alloc; [done|].
  assert (Hwf : wf (listen e f s)).
  { destruct HI as ((Hwf & _) & _). eapply wf_astep; [apply a_listen | done]. }
  assert (Hlisten : Inv (listen e f s)).
  { eapply (once_inv_step s _ []); [exact HI | done | | done | done | | |].
    - unfold listen. destruct (map_get e (listenersMap s)); cbn; by rewrite app_nil_r.
    - intros e' f' Hin. destruct HI as ((Hwf0 & _) & _).
      destruct (decide (e' = e)) as [->|Hne].
      + rewrite listeners_of_listen in Hin by done. unfold set_add in Hin.
        case_decide; [by left|]. apply elem_of_app in Hin as [?|Hin]; [by left|].
        apply list_elem_of_singleton in Hin as ->. by right.
      + rewrite listeners_of_listen_ne in Hin by done. by left.
    - unfold listen. by destruct (map_get e (listenersMap s)).
    - intros b e' c. unfold listen. destruct (map_get e (listenersMap s)); eauto. }
  unfold warn_leak. destruct (bool_decide _); [|done].
  eapply (once_inv_step _ _ [_]); [exact Hlisten | done | done | done | done | | done |].
  - intros e' f' Hin. by left.
  - intros b e' c. eauto.
Qed.


Lemma oi_once e h : h ≠ VFn L → upholds Inv (once e h).
Proof.
  intros Hh.
  destruct e as [| | | |e| | | |]; try (by intros ??? HI [= _ <-] _).
  destruct h as [| | | | |f| | |]; try (by intros ??? HI [= _ <-] _).
  intros s r s' HI. unfold once. mrun.
  rewrite (bind_run _ _ _ _ _ (new_closure_run _ _)). cbv beta iota.
  apply oi_on; [done|]. apply once_inv_alloc; [|done].
  intros e' c' [= _ -> _]. done.
Qed.

Lemma listeners_of_drop e e' s f :
  f ∈ listeners_of e' (drop_event e s) → f ∈ listeners_of e' s.
Proof.
  unfold listeners_of, set_at. cbn.
  destruct (decide (e' = e)) as [->|Hne].
  - rewrite map_get_delete. by intros ?%elem_of_nil.
  - by rewrite map_get_delete_ne.
Qed.

Lemma oi_off e h : upholds Inv (off e h).
Proof.
  intros s r s' HI Hrun Hr.
  assert (Hwf : wf s').
  { destruct HI as ((Hwf & _) & _). eapply wf_reach; [|exact Hwf]. by eapply pres_off. }
  assert (Hgen : ∀ s1, wf s1 → trace s1 = trace s → closures s1 = closures s →
            (∀ e' f, f ∈ listeners_of e' s1 → f ∈ listeners_of e' s) → Inv s1).
  { intros s1 Hwf1 Ht Hc Hl.
    eapply (once_inv_step s _ []); [exact HI | done | by rewrite app_nil_r | done | done | | |].
    - intros e' f Hin. left. by apply Hl.
    - by rewrite Hc.
    - intros b e' c. rewrite Hc. eauto. }
  destruct e as [| | | |e| | | |]; try (by injection Hrun as _ <-).
  1,2: injection Hrun as _ <-; apply Hgen; [done | done | done |];
       intros e' f; unfold listeners_of; cbn; by intros ?%elem_of_nil.
  revert Hrun. unfold off. mrun.
  destruct (map_get e (listenersMap s)) as [x|] eqn:E; [|by intros [= _ <-]].
  destruct h as [| | | | |f| | |]; mrun; try (by intros [= _ <-]).
  - intros [= _ <-]. apply Hgen; [done | done | done |]. intros e' f. apply listeners_of_drop.
  - fold (delete_from x f s). intros Hrun.
    assert (Hs' : s' = unlisten e x f s).
    { pose proof (off_run_fn e x f s E) as Hoff. unfold off in Hoff. revert Hoff. mrun.
      rewrite E. mrun. rewrite Hrun. by intros [= _ ->]. }
    subst s'. destruct HI as ((Hwf0 & H0) & H1).
    apply Hgen.
    + done.
    + unfold unlisten. by destruct (bool_decide _).
    + unfold unlisten. by destruct (bool_decide _).
    + intros e' f'. destruct (decide (e' = e)) as [->|Hne].
      * rewrite listeners_of_unlisten by done. by intros [_ ?]%list_elem_of_filter.
      * by rewrite listeners_of_unlisten_ne.
Qed.

Lemma oi_clearListeners e : upholds Inv (clearListeners e).
Proof. apply oi_off. Qed.
Hint Resolve oi_off oi_clearListeners : oi.

Lemma oi_importModule spec : upholds Inv (importModule W spec).
Proof. unfold importModule. auto 20 with oi. Qed.
Hint Resolve oi_importModule : oi.

Lemma oi_importPhase ph : upholds Inv (importPhase W ph).
Proof.
  unfold importPhase. apply upholds_bind; [auto with oi|]. intros pending.
  apply upholds_bind; [destruct ph; auto with oi|]. intros _.
  destruct pending; [auto with oi|].
  apply upholds_bind; [auto with oi|]. intros tasks. destruct (allSettled tasks); auto with oi.
Qed.

Lemma oi_resolveModuleSpecifier sp anchor : upholds Inv (resolveModuleSpecifier W sp anchor).
Proof.
  unfold resolveModuleSpecifier.
  repeat match goal with
         | |- upholds _ (if ?b then _ else _) => destruct b
         | |- upholds _ (match ?b with _ => _ end) => destruct b
         end; auto with oi.
Qed.
Hint Resolve oi_importPhase oi_resolveModuleSpecifier : oi.

Lemma oi_registerModule spec o : upholds Inv (registerModule W spec o).
Proof.
  unfold registerModule.
  do 6 (apply upholds_bind; [auto 10 with oi|]; intros).
  apply upholds_bind; [by apply oi_new_closure|]. auto with oi.
Qed.

Lemma oi_setupWatchdogGuard : upholds Inv (setupWatchdogGuard W).
Proof. unfold setupWatchdogGuard. auto with oi. Qed.

Lemma oi_attachMinecraftEvents : upholds Inv (attachMinecraftEvents W).
Proof. unfold attachMinecraftEvents. auto 10 with oi. Qed.
Hint Resolve oi_registerModule oi_setupWatchdogGuard oi_attachMinecraftEvents : oi.

Lemma oi_initialize : upholds Inv (initialize W).
Proof. unfold initialize. auto 20 with oi. Qed.
Hint Resolve oi_initialize : oi.

Section Open.
Variable invoke : Fn → list Value → M Value.
Hypothesis Hother : ∀ f args, f ≠ L → upholds Inv (invoke f args).
Hypothesis Hfirst : ∀ args s r s',
  once_pending L a e0 n0 args s → invoke L (handed args) s = (r, s') → r ≠ OutOfFuel → Inv s'.

Lemma oi_call_listener sp wc e p fn :
  fn ≠ L → upholds Inv (call_listener invoke sp wc e p fn).
Proof.
  intros Hfn. unfold call_listener. apply upholds_bind; [auto with oi|].
  intros []; by apply Hother.
Qed.

Lemma delivery_not_reserved sp wc e s :
  Inv s → sp = map_get e (listenersMap s) → wc = map_get BUS_ANY (listenersMap s) →
  ∀ fn, fn ∈ delivery sp wc s → fn ≠ L.
Proof.
  intros ((_ & _ & Hlive & _) & _) -> -> fn Hin ->.
  apply (delivery_of_elem e s L) in Hin as [Hin|Hin]; by eapply Hlive.
Qed.

Lemma oi_emit e p : upholds Inv (emit invoke e p).
Proof.
  destruct e as [| | | |e| | | |]; try (by intros ??? HI [= _ <-] _).
  intros s r s' HI. rewrite emit_deliver.
  destruct (deliver _ _ _ e p (delivery_of e s) s) as [r1 s1] eqn:Hd.
  intros Hrun Hr.
  assert (Hs1 : s' = s1 ∧ r1 ≠ OutOfFuel).
  { destruct r1; injection Hrun as <- <-; done. }
  destruct Hs1 as [-> Hr1].
  assert (Hloop : upholds Inv
            (deliver invoke (map_get e (listenersMap s)) (map_get BUS_ANY (listenersMap s))
               e p (delivery_of e s))).
  { unfold deliver. apply upholds_for_each. intros fn Hin.
    apply upholds_try_catch; [|intros; auto with oi].
    apply upholds_bind; [|auto with oi]. apply oi_call_listener.
    by eapply (delivery_not_reserved _ _ e s). }
  by eapply Hloop.
Qed.

Lemma oi_emitAsync e p : upholds Inv (emitAsync invoke e p).
Proof.
  destruct e as [| | | |e| | | |]; try (by intros ??? HI [= _ <-] _).
  intros s r s' HI. unfold emitAsync. mrun.
  set (sp := map_get e (listenersMap s)). set (wc := map_get BUS_ANY (listenersMap s)).
  assert (Hloop : upholds Inv
            (tasks <- map_M (delivery sp wc s) (launch invoke sp wc e p);;
             ret (allSettled tasks))).
  { apply upholds_bind; [|auto with oi]. apply upholds_map_M. intros fn Hin.
    unfold launch. apply upholds_try_catch; [|intros; auto with oi].
    apply upholds_bind; [|auto with oi]. apply oi_call_listener.
    by eapply (delivery_not_reserved sp wc e s). }
  destruct sp, wc; by apply Hloop.
Qed.
Hint Resolve oi_emit oi_emitAsync : oi.

Lemma oi_exec_cmd c : avoids L c = true → upholds Inv (exec_cmd W invoke c).
Proof.
  induction c; cbn [avoids exec_cmd]; intros Hc; auto 10 with oi.
  - apply upholds_bind; [|auto with oi]. apply oi_on. intros ->.
    by apply bool_decide_eq_true in Hc.
  - apply upholds_bind; [|auto with oi]. apply oi_once. intros ->.
    by apply bool_decide_eq_true in Hc.
  - apply upholds_bind; [|auto with oi]. apply Hother. by apply bool_decide_eq_true in Hc.
Qed.

Lemma oi_run body : forallb (avoids L) body = true → upholds Inv (run W invoke body).
Proof.
  induction body as [|c rest IH]; cbn [forallb run]; [auto with oi|].
  intros [Hc Hrest]%andb_prop.
  apply upholds_bind; [by apply oi_exec_cmd|]. intros [v|]; auto with oi.
Qed.

Lemma oi_fn_body_user id args : upholds Inv (fn_body W invoke (FUser id) args).
Proof.
  unfold fn_body. apply upholds_bind; [auto with oi|]. intros mem.
  apply oi_run, Hreserved.
Qed.

Lemma oi_fn_body_closure b args :
  b ≠ a → upholds Inv (fn_body W invoke (FClosure b) args).
Proof.
  intros Hb s r s' HI. unfold fn_body. rewrite bind_gets.
  destruct (closures s !! b) as [[e' h c|e' h|id]|] eqn:Eb.
  - assert (Hh : h ≠ L).
    { intros ->. destruct HI as ((_ & _ & _ & Honly) & _). by apply Honly in Eb. }
    revert s r s' HI Eb. unfold wrapper_body. intros s r s' HI _. revert s r s' HI.
    change (upholds Inv (if c then ret VUndefined else
      modify (latch b);;
      try_finally (invoke h [arg 0 args; arg 1 args];; ret tt)
        (off (VStr e') (VFn (FClosure b));; ret tt);;
      ret VUndefined)).
    destruct c; [auto with oi|].
    apply upholds_bind; [apply upholds_modify; intros; by apply once_inv_latch|]. intros _.
    apply upholds_bind; [|auto with oi]. apply upholds_try_finally; [|auto with oi].
    apply upholds_bind; [by apply Hother | auto with oi].
  - by apply oi_off.
  - revert s r s' HI Eb. intros s r s' HI _. revert s r s' HI.
    change (upholds Inv (modify (cancel_entry id);; ret VUndefined)). auto with oi.
  - by intros [= _ <-] _.
Qed.

Lemma oi_apply_fn f args : f ≠ L → upholds Inv (apply_fn W invoke f args).
Proof.
  intros Hf. destruct f as [id|b].
  - unfold apply_fn. apply upholds_bind; [|intros; apply oi_fn_body_user].
    apply upholds_modify. intros s. by apply once_inv_call.
  - destruct (decide (b = a)) as [->|Hb].
    2:{ unfold apply_fn. apply upholds_bind; [|intros; by apply oi_fn_body_closure].
        apply upholds_modify. intros s. apply once_inv_call; [done|congruence]. }
    intros s r s' HI. unfold apply_fn. rewrite bind_modify. unfold fn_body. rewrite bind_gets.
    pose proof HI as ((Hwf & Hn & Hlive & Honly) & c & Hc & Hcalls).
    cbn [closures log with_trace]. rewrite Hc. unfold wrapper_body.
    set (s1 := log (Invoked w args) s).
    assert (Hsince : since n0 s1 = since n0 s ++ [Invoked w args]) by by apply since_app.
    assert (Hguard : once_guard L a n0 s1).
    { split_and!; [done | unfold s1; cbn; rewrite length_app; lia | done | done]. }
    destruct c.
    + intros [= <- <-] _. split; [done|]. exists true. split; [done|].
      destruct Hcalls as (args0 & rest & Hw & HL).
      exists args0, (rest ++ [args]). rewrite Hsince, !calls_to_app, Hw, HL.
      rewrite !calls_to_cons, decide_True, decide_False by done. done.
    + destruct Hcalls as [Hw HL]. rewrite bind_modify.
      set (s2 := latch a s1).
      assert (Hpending : once_pending L a e0 n0 args s2).
      { split_and!.
        - destruct Hguard as (H1 & H2 & H3 & H4). split_and!; [done..|].
          intros b e' c' Hb'. cbn in Hb'.
          destruct (decide (b = a)) as [->|Hne]; [done|].
          rewrite list_lookup_alter_ne in Hb' by done. by eapply Honly.
        - cbn. by rewrite list_lookup_alter_eq, Hc.
        - change (since n0 s2) with (since n0 s1).
          rewrite Hsince, calls_to_app, Hw, calls_to_cons, decide_True by done. done.
        - change (since n0 s2) with (since n0 s1).
          rewrite Hsince, calls_to_app, HL, calls_to_cons, decide_False by done. done. }
      unfold bind at 1, try_finally, bind at 1.
      destruct (invoke L [arg 0 args; arg 1 args] s2) as [rL sL] eqn:EL.
      assert (HsL : rL ≠ OutOfFuel → Inv sL) by (intros; by eapply Hfirst).
      destruct rL as [v|err|]; [| |by intros [= <- <-]]; cbn [ret].
      all: destruct ((off (VStr e0) (VFn w);; ret tt) sL) as [ro so] eqn:Eo.
      all: assert (Hso : ro ≠ OutOfFuel → Inv so)
             by (intros; eapply (upholds_bind Inv (off (VStr e0) (VFn w)) (λ _, ret tt));
                 [apply oi_off | intros; apply upholds_ret | by apply HsL | exact Eo | done]).
      all: destruct ro as [[]|err'|]; intros [= <- <-] Hr; by apply Hso.
Qed.
End Open.

Lemma oi_invoke fuel :
  (∀ f args, f ≠ L → upholds Inv (invoke W fuel f args)) ∧
  (∀ args s r s',
     once_pending L a e0 n0 args s → invoke W fuel L (handed args) s = (r, s') →
     r ≠ OutOfFuel → Inv s').
Proof.
  induction fuel as [|n [IH1 IH2]].
  - split; [intros; apply upholds_out_of_fuel|]. by intros args s r s' _ [= <- <-].
  - split; [intros f args Hf; by apply oi_apply_fn|].
    intros args s r s' (Hguard & Hc & Hw & HL). cbn [invoke]. unfold apply_fn.
    rewrite bind_modify. intros Hrun Hr.
    eapply (oi_fn_body_user (invoke W n) IH1 l (handed args)); [|exact Hrun|done].
    destruct Hguard as (Hwf & Hn & Hlive & Honly).
    set (s1 := log (Invoked L (handed args)) s).
    assert (Hsince : since n0 s1 = since n0 s ++ [Invoked L (handed args)]) by by apply since_app.
    split.
    + split_and!; [done | unfold s1; cbn; rewrite length_app; lia | done | done].
    + exists true. split; [done|]. exists args, [].
      rewrite Hsince, !calls_to_app, Hw, HL, !calls_to_cons.
      rewrite decide_False, decide_True by done. done.
Qed.
End OnceInvariant.

(** ** [once], for every bus *)

Lemma calls_to_elem f evs : f ∈ invoked_fns evs → calls_to f evs ≠ [].
Proof.
  induction evs as [|ev evs IH]; [by intros ?%elem_of_nil|].
  destruct ev as [g args| | | | | | | |]; try exact IH.
  intros Hin. cbn in Hin. rewrite calls_to_cons.
  apply elem_of_cons in Hin as [->|Hin].
  - by rewrite decide_True.
  - destruct (decide (g = f)); [done|]. by apply IH.
Qed.

Lemma unregistered_live L s e' : unregistered L s = true → L ∉ listeners_of e' s.
Proof.
  intros [Hlive _]%andb_prop. unfold listeners_of.
  destruct (map_get e' (listenersMap s)) as [r|] eqn:E; [|apply not_elem_of_nil].
  apply map_get_elem in E. rewrite forallb_forall in Hlive.
  apply list_elem_of_In, Hlive in E. cbn in E. unfold set_has in E.
  apply negb_true_iff, bool_decide_eq_false in E. done.
Qed.

Lemma unregistered_closures L s b e' c :
  unregistered L s = true → closures s !! b ≠ Some (OnceWrapper e' L c).
Proof.
  intros [_ Hcl]%andb_prop Hb. rewrite forallb_forall in Hcl.
  apply list_elem_of_lookup_2, list_elem_of_In, Hcl in Hb.
  by apply bool_decide_eq_true in Hb.
Qed.

Lemma before_split w l : w ∈ l → ∃ post, l = before w l ++ w :: post.
Proof.
  induction l as [|f l IH]; [by intros ?%elem_of_nil|]. cbn [before].
  destruct (decide (f = w)) as [->|Hne]; [intros _; by exists l|].
  intros [->|Hin]%elem_of_cons; [done|]. destruct (IH Hin) as [post Hpost].
  exists post. cbn. by rewrite <- Hpost.
Qed.

Lemma deliver_app invoke sp wc e p l1 l2 s :
  deliver invoke sp wc e p (l1 ++ l2) s =
  match deliver invoke sp wc e p l1 s with
  | (Ret _, s1) => deliver invoke sp wc e p l2 s1
  | other => other
  end.
Proof.
  revert s. induction l1 as [|fn l1 IH]; intros s; [done|].
  cbn [app]. rewrite !deliver_cons.
  destruct (invoke fn _ s) as [[v|err|] s1]; [apply IH | apply IH | done].
Qed.

Lemma deliver_completes W fuel sp wc e p fns s :
  (deliver (invoke W fuel) sp wc e p fns s).1 = Ret tt ∨
  (deliver (invoke W fuel) sp wc e p fns s).1 = OutOfFuel.
Proof.
  destruct (deliver _ sp wc e p fns s) as [r s'] eqn:Hd.
  destruct (deliver_run W _ _ _ _ _ _ _ _ _ Hd) as (ds & sx & _ & [(-> & _)|(-> & _)]);
    [by left | by right].
Qed.

Lemma pres_deliver W fuel sp wc e p fns : pres (deliver (invoke W fuel) sp wc e p fns).
Proof.
  intros s r s' Hd.
  destruct (deliver_run W _ _ _ _ _ _ _ _ _ Hd)
    as (ds & sx & Hds & [(_ & <- & _)|(_ & fn & rest & _ & Hoof)]).
  - eapply delivered_reach; [apply reach_caught | exact Hds].
  - eapply rtc_trans; [eapply delivered_reach; [apply reach_caught | exact Hds]|].
    eapply pres_invoke. exact Hoof.
Qed.

Lemma once_run e h s :
  once (VStr e) (VFn h) s =
  on (VStr e) (VFn (FClosure (length (closures s)))) (alloc (OnceWrapper e h false) s).
Proof. unfold once. mrun. by rewrite (bind_run _ _ _ _ _ (new_closure_run _ _)). Qed.

(** The state [once(e, L)] leaves satisfies the invariant. *)
Lemma once_inv_start e l s0 :
  wf s0 → unregistered (FUser l) s0 = true →
  once_inv (FUser l) (length (closures s0)) e (length (trace s0))
    (once (VStr e) (VFn (FUser l)) s0).2.
Proof.
  intros Hwf Hun.
  destruct (once_effect e (FUser l) s0 Hwf)
    as (v & s1 & evs0 & Honce & Ht1 & Hevs0 & Hc1 & Hin1 & _).
  rewrite Honce. cbn [snd].
  assert (Hwf1 : wf s1) by (eapply wf_reach; [by eapply pres_once|done]).
  assert (Hsince : since (length (trace s0)) s1 = evs0).
  { unfold since. by rewrite Ht1, drop_app_length. }
  assert (Hs1 : s1 = alloc (Unsubscribe e (FClosure (length (closures s0))))
                  (warn_leak e (listen_ref e (alloc (OnceWrapper e (FUser l) false) s0))
                     (listen e (FClosure (length (closures s0)))
                        (alloc (OnceWrapper e (FUser l) false) s0)))).
  { rewrite once_run, on_run in Honce. by injection Honce as _ <-. }
  split.
  - split_and!; [done | rewrite Ht1, length_app; lia | |].
    + intros e' Hin.
      assert (Hin' : FUser l ∈ listeners_of e'
                (listen e (FClosure (length (closures s0)))
                   (alloc (OnceWrapper e (FUser l) false) s0))).
      { rewrite Hs1 in Hin. unfold warn_leak in Hin.
        by destruct (bool_decide _) in Hin. }
      assert (Hwf0 : wf (alloc (OnceWrapper e (FUser l) false) s0)) by done.
      destruct (decide (e' = e)) as [->|Hne].
      * rewrite listeners_of_listen in Hin' by done. unfold set_add in Hin'.
        case_decide; [by eapply (unregistered_live _ s0 e)|].
        apply elem_of_app in Hin' as [Hin'|Hin'].
        -- by eapply (unregistered_live _ s0 e).
        -- by apply list_elem_of_singleton in Hin'.
      * rewrite listeners_of_listen_ne in Hin' by done.
        by eapply (unregistered_live _ s0 e').
    + intros b e' c Hb.
      assert (Hcl : closures s1 = closures s0 ++
                [OnceWrapper e (FUser l) false; Unsubscribe e (FClosure (length (closures s0)))]).
      { rewrite Hs1. unfold warn_leak, listen. cbn.
        destruct (bool_decide _), (map_get _ _); cbn; by rewrite <- app_assoc. }
      rewrite Hcl in Hb.
      destruct (decide (b < length (closures s0))) as [Hlt|Hge].
      * rewrite lookup_app_l in Hb by done. by apply unregistered_closures in Hb.
      * rewrite lookup_app_r in Hb by lia.
        destruct (b - length (closures s0)) as [|[|k]] eqn:Hk; [lia | done | done].
  - exists false. split; [done|]. rewrite Hsince.
    split; by apply calls_to_nil_invoked.
Qed.




End EventBus.
